(** * The distributed dual-tree task queue

    A shallow embedding of
    [core/parallel/distributed_dualtree_task_queue.h]
    (class [DistributedDualtreeTaskQueue]) and the properties its
    specification states about it.

    Conventions of the embedding.
    - [int] fields and arguments are integers of [Z]; signed overflow is
      undefined in the source and is not modelled.  Positions in a vector
      are natural numbers.
    - [unsigned long int] counters are integers of [Z] kept in
      [0 .. 2^64) by [wrap64], written at every arithmetic step.
    - A [std::vector] is a [list]; element access outside the vector, the
      top of an empty heap and a dereferenced null pointer are undefined
      behaviour in the source and make the operation end in [Faults].
    - A [boost::intrusive_ptr] that may be null is an [option]; the queue
      never keeps two pointers to one heap, interval set or subtable, so
      the pointed-to objects are held by value.
    - The table-exchange collaborator is seen through the calls the queue
      makes on it, recorded in order. *)

From Stdlib Require Import ZArith Lia.
From stdpp Require Import base option list.

Local Open Scope Z_scope.

(** ** Results of operations *)

Inductive fault : Type :=
| OutOfRange    (* element access outside a vector, or back() of an empty one *)
| EmptyTop      (* top() or pop() of an empty task heap *)
| NullPointer   (* dereference of a null pointer *)
| EndIterator   (* dereference of a list iterator that designates no node *)
| OutOfFuel.    (* a loop of the model ran out of steps; the operations
                   pass enough, see the lemmas on their loops *)

Inductive outcome (A : Type) : Type :=
| Returns (a : A)
| Faults (f : fault).

Arguments Returns {A} a.
Arguments Faults {A} f.

Definition outcome_bind {A B : Type} (m : outcome A) (k : A -> outcome B)
  : outcome B :=
  match m with
  | Returns a => k a
  | Faults f => Faults f
  end.

Notation "'let*' x ':=' m 'in' k" := (outcome_bind m (fun x => k))
  (at level 10, x pattern, m at level 200, k at level 200).

Definition returns {A : Type} (m : outcome A) : Prop :=
  exists a, m = Returns a.

(** ** Machine arithmetic *)

Definition two64 : Z := 2 ^ 64.

Definition wrap64 (z : Z) : Z := z mod two64.

(** ** Vectors *)

Definition vec_get {A : Type} (v : list A) (i : nat) : outcome A :=
  match v !! i with
  | Some x => Returns x
  | None => Faults OutOfRange
  end.

Definition vec_set {A : Type} (v : list A) (i : nat) (x : A)
  : outcome (list A) :=
  match v !! i with
  | Some _ => Returns (<[i := x]> v)
  | None => Faults OutOfRange
  end.

Definition vec_back {A : Type} (v : list A) : outcome A :=
  match last v with
  | Some x => Returns x
  | None => Faults OutOfRange
  end.

Definition vec_pop_back {A : Type} (v : list A) : outcome (list A) :=
  match last v with
  | Some _ => Returns (take (Nat.pred (length v)) v)
  | None => Faults OutOfRange
  end.

(** [v[i] = v.back(); v.pop_back();] *)
Definition vec_evict {A : Type} (v : list A) (i : nat) : outcome (list A) :=
  let* b := vec_back v in
  let* v1 := vec_set v i b in
  vec_pop_back v1.

(** ** Communicator *)

Record communicator : Type := {
  rank : Z;       (* world.rank() *)
  comm_size : Z;  (* world.size() *)
}.

(** ** Disjoint integer intervals *)

(** An interval [(rank, begin, end)], half-open, and a set of them. *)
Abbreviation interval := (Z * Z * Z)%type.

Abbreviation DisjointIntIntervals := (list (Z * Z * Z)).

(** Modelled from the spec: [core/parallel/disjoint_int_intervals.h] is
    not among the sources.  Section 4.1: half-open integer intervals keyed
    by an originating process rank; two intervals under one rank are not
    disjoint when an integer lies in both. *)
Definition interval_overlaps (a b : interval) : bool :=
  let '(ra, ba, ea) := a in
  let '(rb, bb, eb) := b in
  (ra =? rb) && (Z.max ba bb <? Z.min ea eb).

(** Modelled from the spec: [DisjointIntIntervals::Insert] is not among
    the sources.  Section 4.1: [insert((rank, begin, end))] returns [true]
    and records the interval iff it is disjoint from all existing
    intervals under that rank; otherwise it returns [false] without
    mutation. *)
Definition Insert (g : interval) (s : DisjointIntIntervals)
  : bool * DisjointIntIntervals :=
  if existsb (interval_overlaps g) s then (false, s) else (true, s ++ [g]).

Section Queue.

(** The tree's bound type and the metric are template parameters of the
    source; the distance primitive is an external collaborator.
    [RangeDistanceSq_mid metric qb rb] stands for
    [qb.RangeDistanceSq(metric, rb).mid()].  The source computes it in
    double precision; only the order of priorities matters to the queue,
    and the model takes the score as an integer. *)
Context {Bound MetricType : Type}.
Variable RangeDistanceSq_mid : MetricType -> Bound -> Bound -> Z.

(** [table_exchange_.process_rank(world, rank)]. *)
Variable process_rank : communicator -> Z -> Z.

(** ** Trees and subtables *)

(** Modelled from the spec: the tree class is not among the sources.  A
    node carries what the queue reads of it: [begin()], [count()],
    [bound()], [is_leaf()], and the children [left()] and [right()] of an
    inner node. *)
Inductive TreeType : Type :=
| TreeLeaf (node_begin node_count : Z) (node_bound : Bound)
| TreeNode (node_begin node_count : Z) (node_bound : Bound)
           (node_left node_right : TreeType).

Definition is_leaf (n : TreeType) : bool :=
  match n with
  | TreeLeaf _ _ _ => true
  | TreeNode _ _ _ _ _ => false
  end.

Definition begin (n : TreeType) : Z :=
  match n with
  | TreeLeaf b _ _ => b
  | TreeNode b _ _ _ _ => b
  end.

Definition count (n : TreeType) : Z :=
  match n with
  | TreeLeaf _ c _ => c
  | TreeNode _ c _ _ _ => c
  end.

Definition bound (n : TreeType) : Bound :=
  match n with
  | TreeLeaf _ _ b => b
  | TreeNode _ _ b _ _ => b
  end.

(** [left()] and [right()] are null on a leaf. *)
Definition left (n : TreeType) : option TreeType :=
  match n with
  | TreeLeaf _ _ _ => None
  | TreeNode _ _ _ l _ => Some l
  end.

Definition right (n : TreeType) : option TreeType :=
  match n with
  | TreeLeaf _ _ _ => None
  | TreeNode _ _ _ _ r => Some r
  end.

(** Modelled from the spec: [core::table::SubTable] is not among the
    sources.  Glossary: a subtree is a contiguous index range of a
    process's local point table, identified by (origin rank, begin,
    count).  The fields are the ones the queue reads or writes:
    [table()->rank()], [originating_rank()], [start_node()] and
    [cache_block_id()]. *)
Record SubTableType : Type := {
  table_rank : Z;
  originating_rank : Z;
  start_node : TreeType;
  cache_block_id : Z;
}.

Abbreviation SubTableIDType := (Z * Z * Z)%type.

(** Modelled from the spec: glossary, a subtree is identified by (origin
    rank, begin, count). *)
Definition subtable_id (q : SubTableType) : SubTableIDType :=
  (table_rank q, begin (start_node q), count (start_node q)).

(** Modelled from the spec: the setters of the subtable class, each
    writing one of the fields above. *)
Definition set_start_node (q : SubTableType) (n : TreeType) : SubTableType :=
  {| table_rank := table_rank q; originating_rank := originating_rank q;
     start_node := n; cache_block_id := cache_block_id q |}.

Definition set_originating_rank (q : SubTableType) (r : Z) : SubTableType :=
  {| table_rank := table_rank q; originating_rank := r;
     start_node := start_node q; cache_block_id := cache_block_id q |}.

Definition set_cache_block_id (q : SubTableType) (c : Z) : SubTableType :=
  {| table_rank := table_rank q; originating_rank := originating_rank q;
     start_node := start_node q; cache_block_id := c |}.

(** Modelled from the spec: section 4.4, an active slot aliasing the query
    subtree.  After [dst.Alias(src)], [dst] is a non-owning view of
    [src]. *)
Definition Alias (src : SubTableType) : SubTableType := src.

(** Modelled from the spec: section 4.4, synchronize: the stored query
    subtree includes the received one when its begin/count range covers
    the received range. *)
Definition includes (q r : SubTableType) : bool :=
  (table_rank q =? table_rank r)
  && (begin (start_node q) <=? begin (start_node r))
  && (begin (start_node r) + count (start_node r)
      <=? begin (start_node q) + count (start_node q)).

(** [dst.Copy(received)] overwrites the mutable data of [dst]; the
    subtable class is absent, the operation is taken as given. *)
Variable Copy : SubTableType -> SubTableType -> SubTableType.

(** [table_exchange_.FindSubTable(cache_id)] (null when the subtable is
    not resident) and the local view
    [alias.Init(local_table(), FindByBeginCount(begin, count), false)]. *)
Variable FindSubTable : Z -> option SubTableType.
Variable local_alias : Z -> Z -> SubTableType.

(** A default-constructed subtable, [SubTableType()]. *)
Variable new_SubTableType : SubTableType.

(** ** Tasks and task heaps *)

(** Modelled from the spec: the task class is not among the sources.
    Section 3: a task pairs a query subtree with a reference subtree and
    a priority; [work] = count of query x count of reference. *)
Record TaskType : Type := {
  query_subtable : SubTableType;
  reference_subtable : SubTableType;
  priority : Z;
}.

(** Modelled from the spec: section 3, [work] = count of query x count of
    reference. *)
Definition work (t : TaskType) : Z :=
  count (start_node (query_subtable t))
  * count (start_node (reference_subtable t)).

(** Modelled from the spec: section 6, the cache block id of the task's
    reference subtree. *)
Definition reference_subtable_cache_block_id (t : TaskType) : Z :=
  cache_block_id (reference_subtable t).

(** The storage of a task heap. *)
Abbreviation TaskPriorityQueueType := (list TaskType).

(** Modelled from the spec: [TaskPriorityQueueType] is a template
    parameter.  Section 4.2: a max-heap of tasks keyed by priority
    (higher first) with [push], [top], [pop], [size]; ties are broken
    deterministically.  The storage is kept in decreasing priority, a
    task pushed later standing after the equal ones; [top] and [pop] of
    an empty heap are undefined. *)
Fixpoint heap_push (t : TaskType) (h : TaskPriorityQueueType)
  : TaskPriorityQueueType :=
  match h with
  | [] => [t]
  | u :: h' =>
      if priority u <? priority t then t :: u :: h' else u :: heap_push t h'
  end.

Definition heap_top (h : TaskPriorityQueueType) : outcome TaskType :=
  match h with
  | [] => Faults EmptyTop
  | t :: _ => Returns t
  end.

Definition heap_pop (h : TaskPriorityQueueType)
  : outcome TaskPriorityQueueType :=
  match h with
  | [] => Faults EmptyTop
  | _ :: h' => Returns h'
  end.

Definition heap_size (h : TaskPriorityQueueType) : Z := Z.of_nat (length h).

(** ** Checked-out entries and the queue *)

(** Modelled from the spec: [core/parallel/query_subtable_lock.h] is not
    among the sources.  Section 4.3: the entry holds the subtree, its task
    heap, its assigned-work set, its remaining-work counter, and the peer
    rank that holds the lock; the fields bear the names the queue uses. *)
Record QuerySubTableLock : Type := {
  lock_assigned_work_ : option DisjointIntIntervals;
  locked_mpi_rank_ : Z;
  lock_query_subtable_ : SubTableType;
  lock_remaining_work_for_query_subtable_ : Z;
  lock_task_ : TaskPriorityQueueType;
}.

(** The calls the queue makes on the table exchange that change it. *)
Inductive ExchangeCall : Type :=
| LockCache (cache_id : Z) (num_times : Z)
| QueueFlushRequest (q : SubTableType)
| PushCompletedComputation (quantity : Z).

Record Queue : Type := {
  assigned_work_ : list (option DisjointIntIntervals);
  checked_out_query_subtables_ : list QuerySubTableLock;
  num_exported_query_subtables_ : Z;
  num_imported_query_subtables_ : Z;
  num_remaining_tasks_ : Z;
  num_threads_ : Z;
  query_subtables_ : list SubTableType;
  remaining_work_for_query_subtables_ : list Z;
  table_exchange_ : list ExchangeCall;
  tasks_ : list TaskPriorityQueueType;
  remaining_global_computation_ : Z;
  remaining_local_computation_ : Z;
}.

(** Field updates. *)

Definition set_assigned_work_ (v : list (option DisjointIntIntervals))
    (st : Queue) : Queue :=
  {| assigned_work_ := v;
     checked_out_query_subtables_ := checked_out_query_subtables_ st;
     num_exported_query_subtables_ := num_exported_query_subtables_ st;
     num_imported_query_subtables_ := num_imported_query_subtables_ st;
     num_remaining_tasks_ := num_remaining_tasks_ st;
     num_threads_ := num_threads_ st;
     query_subtables_ := query_subtables_ st;
     remaining_work_for_query_subtables_ :=
       remaining_work_for_query_subtables_ st;
     table_exchange_ := table_exchange_ st; tasks_ := tasks_ st;
     remaining_global_computation_ := remaining_global_computation_ st;
     remaining_local_computation_ := remaining_local_computation_ st |}.

Definition set_checked_out_query_subtables_ (v : list QuerySubTableLock)
    (st : Queue) : Queue :=
  {| assigned_work_ := assigned_work_ st;
     checked_out_query_subtables_ := v;
     num_exported_query_subtables_ := num_exported_query_subtables_ st;
     num_imported_query_subtables_ := num_imported_query_subtables_ st;
     num_remaining_tasks_ := num_remaining_tasks_ st;
     num_threads_ := num_threads_ st;
     query_subtables_ := query_subtables_ st;
     remaining_work_for_query_subtables_ :=
       remaining_work_for_query_subtables_ st;
     table_exchange_ := table_exchange_ st; tasks_ := tasks_ st;
     remaining_global_computation_ := remaining_global_computation_ st;
     remaining_local_computation_ := remaining_local_computation_ st |}.

Definition set_num_exported_query_subtables_ (v : Z) (st : Queue) : Queue :=
  {| assigned_work_ := assigned_work_ st;
     checked_out_query_subtables_ := checked_out_query_subtables_ st;
     num_exported_query_subtables_ := v;
     num_imported_query_subtables_ := num_imported_query_subtables_ st;
     num_remaining_tasks_ := num_remaining_tasks_ st;
     num_threads_ := num_threads_ st;
     query_subtables_ := query_subtables_ st;
     remaining_work_for_query_subtables_ :=
       remaining_work_for_query_subtables_ st;
     table_exchange_ := table_exchange_ st; tasks_ := tasks_ st;
     remaining_global_computation_ := remaining_global_computation_ st;
     remaining_local_computation_ := remaining_local_computation_ st |}.

Definition set_num_imported_query_subtables_ (v : Z) (st : Queue) : Queue :=
  {| assigned_work_ := assigned_work_ st;
     checked_out_query_subtables_ := checked_out_query_subtables_ st;
     num_exported_query_subtables_ := num_exported_query_subtables_ st;
     num_imported_query_subtables_ := v;
     num_remaining_tasks_ := num_remaining_tasks_ st;
     num_threads_ := num_threads_ st;
     query_subtables_ := query_subtables_ st;
     remaining_work_for_query_subtables_ :=
       remaining_work_for_query_subtables_ st;
     table_exchange_ := table_exchange_ st; tasks_ := tasks_ st;
     remaining_global_computation_ := remaining_global_computation_ st;
     remaining_local_computation_ := remaining_local_computation_ st |}.

Definition set_num_remaining_tasks_ (v : Z) (st : Queue) : Queue :=
  {| assigned_work_ := assigned_work_ st;
     checked_out_query_subtables_ := checked_out_query_subtables_ st;
     num_exported_query_subtables_ := num_exported_query_subtables_ st;
     num_imported_query_subtables_ := num_imported_query_subtables_ st;
     num_remaining_tasks_ := v; num_threads_ := num_threads_ st;
     query_subtables_ := query_subtables_ st;
     remaining_work_for_query_subtables_ :=
       remaining_work_for_query_subtables_ st;
     table_exchange_ := table_exchange_ st; tasks_ := tasks_ st;
     remaining_global_computation_ := remaining_global_computation_ st;
     remaining_local_computation_ := remaining_local_computation_ st |}.

Definition set_num_threads_ (v : Z) (st : Queue) : Queue :=
  {| assigned_work_ := assigned_work_ st;
     checked_out_query_subtables_ := checked_out_query_subtables_ st;
     num_exported_query_subtables_ := num_exported_query_subtables_ st;
     num_imported_query_subtables_ := num_imported_query_subtables_ st;
     num_remaining_tasks_ := num_remaining_tasks_ st; num_threads_ := v;
     query_subtables_ := query_subtables_ st;
     remaining_work_for_query_subtables_ :=
       remaining_work_for_query_subtables_ st;
     table_exchange_ := table_exchange_ st; tasks_ := tasks_ st;
     remaining_global_computation_ := remaining_global_computation_ st;
     remaining_local_computation_ := remaining_local_computation_ st |}.

Definition set_query_subtables_ (v : list SubTableType) (st : Queue) : Queue :=
  {| assigned_work_ := assigned_work_ st;
     checked_out_query_subtables_ := checked_out_query_subtables_ st;
     num_exported_query_subtables_ := num_exported_query_subtables_ st;
     num_imported_query_subtables_ := num_imported_query_subtables_ st;
     num_remaining_tasks_ := num_remaining_tasks_ st;
     num_threads_ := num_threads_ st; query_subtables_ := v;
     remaining_work_for_query_subtables_ :=
       remaining_work_for_query_subtables_ st;
     table_exchange_ := table_exchange_ st; tasks_ := tasks_ st;
     remaining_global_computation_ := remaining_global_computation_ st;
     remaining_local_computation_ := remaining_local_computation_ st |}.

Definition set_remaining_work_for_query_subtables_ (v : list Z)
    (st : Queue) : Queue :=
  {| assigned_work_ := assigned_work_ st;
     checked_out_query_subtables_ := checked_out_query_subtables_ st;
     num_exported_query_subtables_ := num_exported_query_subtables_ st;
     num_imported_query_subtables_ := num_imported_query_subtables_ st;
     num_remaining_tasks_ := num_remaining_tasks_ st;
     num_threads_ := num_threads_ st;
     query_subtables_ := query_subtables_ st;
     remaining_work_for_query_subtables_ := v;
     table_exchange_ := table_exchange_ st; tasks_ := tasks_ st;
     remaining_global_computation_ := remaining_global_computation_ st;
     remaining_local_computation_ := remaining_local_computation_ st |}.

Definition set_table_exchange_ (v : list ExchangeCall) (st : Queue) : Queue :=
  {| assigned_work_ := assigned_work_ st;
     checked_out_query_subtables_ := checked_out_query_subtables_ st;
     num_exported_query_subtables_ := num_exported_query_subtables_ st;
     num_imported_query_subtables_ := num_imported_query_subtables_ st;
     num_remaining_tasks_ := num_remaining_tasks_ st;
     num_threads_ := num_threads_ st;
     query_subtables_ := query_subtables_ st;
     remaining_work_for_query_subtables_ :=
       remaining_work_for_query_subtables_ st;
     table_exchange_ := v; tasks_ := tasks_ st;
     remaining_global_computation_ := remaining_global_computation_ st;
     remaining_local_computation_ := remaining_local_computation_ st |}.

Definition set_tasks_ (v : list TaskPriorityQueueType) (st : Queue) : Queue :=
  {| assigned_work_ := assigned_work_ st;
     checked_out_query_subtables_ := checked_out_query_subtables_ st;
     num_exported_query_subtables_ := num_exported_query_subtables_ st;
     num_imported_query_subtables_ := num_imported_query_subtables_ st;
     num_remaining_tasks_ := num_remaining_tasks_ st;
     num_threads_ := num_threads_ st;
     query_subtables_ := query_subtables_ st;
     remaining_work_for_query_subtables_ :=
       remaining_work_for_query_subtables_ st;
     table_exchange_ := table_exchange_ st; tasks_ := v;
     remaining_global_computation_ := remaining_global_computation_ st;
     remaining_local_computation_ := remaining_local_computation_ st |}.

Definition set_remaining_global_computation_ (v : Z) (st : Queue) : Queue :=
  {| assigned_work_ := assigned_work_ st;
     checked_out_query_subtables_ := checked_out_query_subtables_ st;
     num_exported_query_subtables_ := num_exported_query_subtables_ st;
     num_imported_query_subtables_ := num_imported_query_subtables_ st;
     num_remaining_tasks_ := num_remaining_tasks_ st;
     num_threads_ := num_threads_ st;
     query_subtables_ := query_subtables_ st;
     remaining_work_for_query_subtables_ :=
       remaining_work_for_query_subtables_ st;
     table_exchange_ := table_exchange_ st; tasks_ := tasks_ st;
     remaining_global_computation_ := v;
     remaining_local_computation_ := remaining_local_computation_ st |}.

Definition set_remaining_local_computation_ (v : Z) (st : Queue) : Queue :=
  {| assigned_work_ := assigned_work_ st;
     checked_out_query_subtables_ := checked_out_query_subtables_ st;
     num_exported_query_subtables_ := num_exported_query_subtables_ st;
     num_imported_query_subtables_ := num_imported_query_subtables_ st;
     num_remaining_tasks_ := num_remaining_tasks_ st;
     num_threads_ := num_threads_ st;
     query_subtables_ := query_subtables_ st;
     remaining_work_for_query_subtables_ :=
       remaining_work_for_query_subtables_ st;
     table_exchange_ := table_exchange_ st; tasks_ := tasks_ st;
     remaining_global_computation_ := remaining_global_computation_ st;
     remaining_local_computation_ := v |}.

(** A call on the table exchange, appended to the record of calls. *)
Definition exchange_call (c : ExchangeCall) (st : Queue) : Queue :=
  set_table_exchange_ (table_exchange_ st ++ [c]) st.

(** ** The operations of the queue *)

Definition process_rank_favor_factor_ : Z := 0.

(** The constructor. *)
Definition DistributedDualtreeTaskQueue : Queue :=
  {| assigned_work_ := [];
     checked_out_query_subtables_ := [];
     num_exported_query_subtables_ := 0;
     num_imported_query_subtables_ := 0;
     num_remaining_tasks_ := 0;
     num_threads_ := 1;
     query_subtables_ := [];
     remaining_work_for_query_subtables_ := [];
     table_exchange_ := [];
     tasks_ := [];
     remaining_global_computation_ := 0;
     remaining_local_computation_ := 0 |}.

(** [GrowSlots_]: [resize(size() + 1)] value-initialises the new element,
    a null pointer in [assigned_work_] and [0] in the remaining work. *)
Definition GrowSlots_ (st : Queue) : outcome Queue :=
  let st := set_assigned_work_ (assigned_work_ st ++ [None]) st in
  let st := set_query_subtables_
              (query_subtables_ st ++ [new_SubTableType]) st in
  let st := set_remaining_work_for_query_subtables_
              (remaining_work_for_query_subtables_ st ++ [0]) st in
  Returns (set_tasks_ (tasks_ st ++ [[]]) st).

Definition Evict_ (probe_index : nat) (st : Queue) : outcome Queue :=
  let* a := vec_evict (assigned_work_ st) probe_index in
  let* q := vec_evict (query_subtables_ st) probe_index in
  let* r := vec_evict (remaining_work_for_query_subtables_ st) probe_index in
  let* t := vec_evict (tasks_ st) probe_index in
  Returns (set_tasks_ t
             (set_remaining_work_for_query_subtables_ r
                (set_query_subtables_ q (set_assigned_work_ a st)))).

Definition Flush_ (probe_index : nat) (st : Queue) : outcome Queue :=
  let* q := vec_get (query_subtables_ st) probe_index in
  let st := exchange_call (QueueFlushRequest q) st in
  let st := set_num_imported_query_subtables_
              (num_imported_query_subtables_ st - 1) st in
  Evict_ probe_index st.

(** The priority of a task, as [PushTask] computes it. *)
Definition task_priority (world : communicator) (metric_in : MetricType)
    (q reference_subtable : SubTableType) : Z :=
  - RangeDistanceSq_mid metric_in (bound (start_node q))
      (bound (start_node reference_subtable))
  - process_rank_favor_factor_
    * process_rank world (table_rank reference_subtable).

Definition PushTask (world : communicator) (metric_in : MetricType)
    (push_index : nat) (reference_subtable : SubTableType) (st : Queue)
  : outcome Queue :=
  let* q := vec_get (query_subtables_ st) push_index in
  let new_task :=
    {| query_subtable := q;
       reference_subtable := reference_subtable;
       priority := task_priority world metric_in q reference_subtable |} in
  let* h := vec_get (tasks_ st) push_index in
  let* ts := vec_set (tasks_ st) push_index (heap_push new_task h) in
  let st := set_tasks_ ts st in
  let st := set_num_remaining_tasks_ (num_remaining_tasks_ st + 1) st in
  Returns (set_remaining_local_computation_
             (wrap64 (remaining_local_computation_ st + work new_task)) st).

(** Modelled from the spec: [core/parallel/query_subtable_lock.h] is not
    among the sources.  Section 4.4, lock_query_subtable: move the slot's
    state out of the active vectors into a fresh CheckedOutEntry tagged
    with [remote_rank]; dequeue: moving the slot's state into a new
    CheckedOutEntry and incrementing [num_exported].  The slot leaves the
    vectors by eviction. *)
Definition CheckOut_ (probe_index : nat) (locked_mpi_rank_in : Z) (st : Queue)
  : outcome (QuerySubTableLock * Queue) :=
  let* a := vec_get (assigned_work_ st) probe_index in
  let* q := vec_get (query_subtables_ st) probe_index in
  let* r := vec_get (remaining_work_for_query_subtables_ st) probe_index in
  let* t := vec_get (tasks_ st) probe_index in
  let* st := Evict_ probe_index st in
  Returns ({| lock_assigned_work_ := a;
              locked_mpi_rank_ := locked_mpi_rank_in;
              lock_query_subtable_ := q;
              lock_remaining_work_for_query_subtable_ := r;
              lock_task_ := t |},
           set_num_exported_query_subtables_
             (num_exported_query_subtables_ st + 1) st).

(** Modelled from the spec: section 4.3, [return_to(queue)]: moves state
    back into a new active slot; decrements [num_exported]. *)
Definition Return_ (e : QuerySubTableLock) (st : Queue) : Queue :=
  let st := set_assigned_work_
              (assigned_work_ st ++ [lock_assigned_work_ e]) st in
  let st := set_query_subtables_
              (query_subtables_ st ++ [lock_query_subtable_ e]) st in
  let st := set_remaining_work_for_query_subtables_
              (remaining_work_for_query_subtables_ st
               ++ [lock_remaining_work_for_query_subtable_ e]) st in
  let st := set_tasks_ (tasks_ st ++ [lock_task_ e]) st in
  set_num_exported_query_subtables_ (num_exported_query_subtables_ st - 1) st.

(** Modelled from the spec: section 4.3, [insert(reference_interval)]
    delegates to the entry's assigned set. *)
Definition Insert_ (g : interval) (e : QuerySubTableLock)
  : outcome (bool * QuerySubTableLock) :=
  match lock_assigned_work_ e with
  | None => Faults NullPointer
  | Some a =>
      let '(ok, a') := Insert g a in
      Returns (ok,
               {| lock_assigned_work_ := Some a';
                  locked_mpi_rank_ := locked_mpi_rank_ e;
                  lock_query_subtable_ := lock_query_subtable_ e;
                  lock_remaining_work_for_query_subtable_ :=
                    lock_remaining_work_for_query_subtable_ e;
                  lock_task_ := lock_task_ e |})
  end.

(** Modelled from the spec: section 4.3, [push_task(reference_subtable)]
    pushes into the entry's own heap using the same priority formula and
    increments the queue's [remaining_local] and [num_remaining_tasks]. *)
Definition PushTask_ (world : communicator) (metric_in : MetricType)
    (reference_subtable : SubTableType) (e : QuerySubTableLock) (st : Queue)
  : QuerySubTableLock * Queue :=
  let q := lock_query_subtable_ e in
  let new_task :=
    {| query_subtable := q;
       reference_subtable := reference_subtable;
       priority := task_priority world metric_in q reference_subtable |} in
  ({| lock_assigned_work_ := lock_assigned_work_ e;
      locked_mpi_rank_ := locked_mpi_rank_ e;
      lock_query_subtable_ := q;
      lock_remaining_work_for_query_subtable_ :=
        lock_remaining_work_for_query_subtable_ e;
      lock_task_ := heap_push new_task (lock_task_ e) |},
   set_remaining_local_computation_
     (wrap64 (remaining_local_computation_ st + work new_task))
     (set_num_remaining_tasks_ (num_remaining_tasks_ st + 1) st)).

(** [LockQuerySubTable]: the new entry goes to the front of the list and
    the returned iterator is [begin()], position [0]. *)
Definition LockQuerySubTable (probe_index : nat) (remote_mpi_rank_in : Z)
    (st : Queue) : outcome (Queue * nat) :=
  let* r := CheckOut_ probe_index remote_mpi_rank_in st in
  let '(e, st) := r in
  Returns (set_checked_out_query_subtables_
             (e :: checked_out_query_subtables_ st) st, 0%nat).

(** [ReturnQuerySubTable]: a list iterator is the position of its node. *)
Definition ReturnQuerySubTable (query_subtable_lock : nat) (st : Queue)
  : outcome Queue :=
  match checked_out_query_subtables_ st !! query_subtable_lock with
  | None => Faults EndIterator
  | Some e =>
      let st := Return_ e st in
      Returns (set_checked_out_query_subtables_
                 (delete query_subtable_lock (checked_out_query_subtables_ st))
                 st)
  end.

(** A default-constructed task, [TaskType()]. *)
Definition new_TaskType : TaskType :=
  {| query_subtable := new_SubTableType;
     reference_subtable := new_SubTableType;
     priority := 0 |}.

(** [DequeueTask(world, probe_index, task_out, checked_out_query_subtable)].
    [task_out] is the pair the caller passes; [want_checkout] tells whether
    the pointer [checked_out_query_subtable] is non-null.  The result holds
    the state, the pair, the iterator written through the pointer (if any)
    and the returned flag. *)
Definition DequeueTask_slot (world : communicator) (probe_index : nat)
    (task_out : TaskType * Z) (want_checkout : bool) (st : Queue)
  : outcome (Queue * (TaskType * Z) * option nat * bool) :=
  let* h := vec_get (tasks_ st) probe_index in
  if 0 <? heap_size h then
    let* t := heap_top h in
    let* h' := heap_pop h in
    let* ts := vec_set (tasks_ st) probe_index h' in
    let st := set_tasks_ ts st in
    let st := set_num_remaining_tasks_ (num_remaining_tasks_ st - 1) st in
    let st := set_remaining_local_computation_
                (wrap64 (remaining_local_computation_ st - work t)) st in
    if want_checkout then
      let* r := LockQuerySubTable probe_index (rank world) st in
      let '(st, it) := r in
      Returns (st, (t, Z.of_nat probe_index), Some it, false)
    else Returns (st, (t, Z.of_nat probe_index), None, false)
  else
    let* q := vec_get (query_subtables_ st) probe_index in
    if table_rank q =? rank world then
      let* r := vec_get (remaining_work_for_query_subtables_ st) probe_index in
      if r =? 0 then
        let* st := Evict_ probe_index st in
        Returns (st, task_out, None, true)
      else Returns (st, task_out, None, false)
    else if heap_size h =? 0 then
      let* st := Flush_ probe_index st in
      Returns (st, task_out, None, true)
    else Returns (st, task_out, None, false).

(** The draining loop of [split_subtree_]:
    [while(tasks_[subtree_index]->size() > 0)], one [DequeueTask] and one
    [prev_tasks.push_back] per turn. *)
Fixpoint split_drain (fuel : nat) (world : communicator) (subtree_index : nat)
    (prev_tasks : list TaskType) (st : Queue)
  : outcome (Queue * list TaskType) :=
  let* h := vec_get (tasks_ st) subtree_index in
  if 0 <? heap_size h then
    match fuel with
    | O => Faults OutOfFuel
    | S fuel' =>
        let* r := DequeueTask_slot world subtree_index (new_TaskType, 0)
                    false st in
        let '(st, task_pair, _, _) := r in
        split_drain fuel' world subtree_index
          (prev_tasks ++ [fst task_pair]) st
    end
  else Returns (st, prev_tasks).

(** The last loop of [split_subtree_]: each drained task goes to the slot
    and to the last slot, and the cache is locked once. *)
Fixpoint split_repush (world : communicator) (metric_in : MetricType)
    (subtree_index : nat) (prev_tasks : list TaskType) (st : Queue)
  : outcome Queue :=
  match prev_tasks with
  | [] => Returns st
  | t :: rest =>
      let* st := PushTask world metric_in subtree_index
                   (reference_subtable t) st in
      let* st := PushTask world metric_in
                   (Nat.pred (length (query_subtables_ st)))
                   (reference_subtable t) st in
      let st := exchange_call
                  (LockCache (reference_subtable_cache_block_id t) 1) st in
      split_repush world metric_in subtree_index rest st
  end.

(** [split_subtree_].  The children of a leaf are null; the only caller
    never passes a leaf, and the model faults at once on one. *)
Definition split_subtree_ (world : communicator) (metric_in : MetricType)
    (subtree_index : nat) (st : Queue) : outcome Queue :=
  let* q := vec_get (query_subtables_ st) subtree_index in
  let prev_qnode := start_node q in
  match left prev_qnode, right prev_qnode with
  | Some l, Some r =>
      let ql := set_start_node q l in
      let* qs := vec_set (query_subtables_ st) subtree_index ql in
      let st := set_query_subtables_
                  (qs ++ [set_start_node (Alias ql) r]) st in
      let* h := vec_get (tasks_ st) subtree_index in
      let* d := split_drain (length h) world subtree_index [] st in
      let '(st, prev_tasks) := d in
      let st := set_tasks_ (tasks_ st ++ [[]]) st in
      let* a := vec_get (assigned_work_ st) subtree_index in
      match a with
      | None => Faults NullPointer
      | Some a =>
          let st := set_assigned_work_ (assigned_work_ st ++ [Some a]) st in
          let* w := vec_get (remaining_work_for_query_subtables_ st)
                      subtree_index in
          let st := set_remaining_work_for_query_subtables_
                      (remaining_work_for_query_subtables_ st ++ [w]) st in
          split_repush world metric_in subtree_index prev_tasks st
      end
  | _, _ => Faults NullPointer
  end.

(** The search loop of [RedistributeAmongCores_], from position [i] for
    [n] positions. *)
Fixpoint find_split (st : Queue) (n i : nat) (split_index_query_size : Z)
    (split_index : option nat) : outcome (option nat) :=
  match n with
  | O => Returns split_index
  | S n' =>
      let* q := vec_get (query_subtables_ st) i in
      if is_leaf (start_node q) then
        find_split st n' (S i) split_index_query_size split_index
      else
        let* h := vec_get (tasks_ st) i in
        if (0 <? heap_size h)
           && (split_index_query_size <? count (start_node q)) then
          find_split st n' (S i) (count (start_node q)) (Some i)
        else find_split st n' (S i) split_index_query_size split_index
  end.

Definition RedistributeAmongCores_ (world : communicator)
    (metric_in : MetricType) (st : Queue) : outcome Queue :=
  let* s := find_split st (length (query_subtables_ st)) 0 0 None in
  match s with
  | Some split_index => split_subtree_ world metric_in split_index st
  | None => Returns st
  end.

(** The scanning loop of [DequeueTask(world, thread_id, metric_in, task_out,
    checked_out_query_subtable)]; [probe_index--] followed by
    [probe_index++] keeps the position. *)
Fixpoint DequeueTask_scan (fuel : nat) (world : communicator)
    (probe_index : nat) (task_out : TaskType * Z) (want_checkout : bool)
    (it : option nat) (st : Queue)
  : outcome (Queue * (TaskType * Z) * option nat) :=
  if (snd task_out <? 0) && (probe_index <? length (tasks_ st))%nat then
    match fuel with
    | O => Faults OutOfFuel
    | S fuel' =>
        let* r := DequeueTask_slot world probe_index task_out
                    want_checkout st in
        let '(st, task_out, it', cleaned) := r in
        let it := match it' with Some _ => it' | None => it end in
        DequeueTask_scan fuel' world
          (if cleaned then probe_index else S probe_index)
          task_out want_checkout it st
    end
  else Returns (st, task_out, it).

Definition DequeueTask (world : communicator) (thread_id : Z)
    (metric_in : MetricType) (task_out : TaskType * Z)
    (want_checkout : bool) (st : Queue)
  : outcome (Queue * (TaskType * Z) * option nat) :=
  let* st :=
    if Z.of_nat (length (tasks_ st)) <? num_threads_ st
    then RedistributeAmongCores_ world metric_in st
    else Returns st in
  DequeueTask_scan (length (tasks_ st)) world 0 task_out want_checkout None st.

Definition top (probe_index : nat) (st : Queue) : outcome TaskType :=
  let* h := vec_get (tasks_ st) probe_index in
  heap_top h.

Definition pop (probe_index : nat) (st : Queue) : outcome Queue :=
  let* h := vec_get (tasks_ st) probe_index in
  let* t := heap_top h in
  let st := set_remaining_local_computation_
              (wrap64 (remaining_local_computation_ st - work t)) st in
  let* h' := heap_pop h in
  let* ts := vec_set (tasks_ st) probe_index h' in
  let st := set_tasks_ ts st in
  Returns (set_num_remaining_tasks_ (num_remaining_tasks_ st - 1) st).

Definition queue_size (probe_index : nat) (st : Queue) : outcome Z :=
  let* h := vec_get (tasks_ st) probe_index in
  Returns (heap_size h).

(** The search of [Synchronize]: the position of the first checked-out
    entry whose query subtable includes the received one. *)
Fixpoint find_including (received : SubTableType)
    (l : list QuerySubTableLock) (i : nat) : option (nat * QuerySubTableLock) :=
  match l with
  | [] => None
  | e :: l' =>
      if includes (lock_query_subtable_ e) received then Some (i, e)
      else find_including received l' (S i)
  end.

Definition subtable_id_eqb (a b : SubTableIDType) : bool :=
  let '(a0, a1, a2) := a in
  let '(b0, b1, b2) := b in
  (a0 =? b0) && (a1 =? b1) && (a2 =? b2).

Definition set_lock_query_subtable_ (q : SubTableType) (e : QuerySubTableLock)
  : QuerySubTableLock :=
  {| lock_assigned_work_ := lock_assigned_work_ e;
     locked_mpi_rank_ := locked_mpi_rank_ e;
     lock_query_subtable_ := q;
     lock_remaining_work_for_query_subtable_ :=
       lock_remaining_work_for_query_subtable_ e;
     lock_task_ := lock_task_ e |}.

Definition set_lock_remaining_work_ (w : Z) (e : QuerySubTableLock)
  : QuerySubTableLock :=
  {| lock_assigned_work_ := lock_assigned_work_ e;
     locked_mpi_rank_ := locked_mpi_rank_ e;
     lock_query_subtable_ := lock_query_subtable_ e;
     lock_remaining_work_for_query_subtable_ := w;
     lock_task_ := lock_task_ e |}.

Definition Synchronize (received_query_subtable_in : SubTableType)
    (st : Queue) : outcome Queue :=
  let received_query_subtable_id := subtable_id received_query_subtable_in in
  match find_including received_query_subtable_in
          (checked_out_query_subtables_ st) 0 with
  | None => Returns st
  | Some (i, e) =>
      let q := Copy (lock_query_subtable_ e) received_query_subtable_in in
      let e := set_lock_query_subtable_ q e in
      let comp_query_subtable_id := subtable_id q in
      if subtable_id_eqb received_query_subtable_id comp_query_subtable_id
      then
        let st := set_assigned_work_
                    (assigned_work_ st ++ [lock_assigned_work_ e]) st in
        let st := set_query_subtables_
                    (query_subtables_ st ++ [lock_query_subtable_ e]) st in
        let st := set_remaining_work_for_query_subtables_
                    (remaining_work_for_query_subtables_ st
                     ++ [lock_remaining_work_for_query_subtable_ e]) st in
        let st := set_tasks_ (tasks_ st ++ [lock_task_ e]) st in
        let st := set_checked_out_query_subtables_
                    (delete i (checked_out_query_subtables_ st)) st in
        Returns (set_num_exported_query_subtables_
                   (num_exported_query_subtables_ st - 1) st)
      else
        Returns (set_checked_out_query_subtables_
                   (<[i := e]> (checked_out_query_subtables_ st)) st)
  end.

(** ** Integrity check and printing *)

Definition references (destruct_id : SubTableIDType) (t : TaskType) : bool :=
  subtable_id_eqb (subtable_id (reference_subtable t)) destruct_id.

(** The inner loops of [CheckIntegrity] walk the heap's storage from the
    address of [top()], for [size()] elements, until the flag is set. *)
Definition scan_storage (destruct_id : SubTableIDType)
    (h : TaskPriorityQueueType) : bool :=
  existsb (references destruct_id) h.

(** First loop of [CheckIntegrity], from position [i] for [n] positions. *)
Fixpoint CheckIntegrity_active (destruct_id : SubTableIDType)
    (tasks : list TaskPriorityQueueType) (n i : nat) (flag : bool)
  : outcome bool :=
  match n with
  | O => Returns flag
  | S n' =>
      if flag then Returns flag
      else
        let* h := vec_get tasks i in
        let* _ := heap_top h in
        CheckIntegrity_active destruct_id tasks n' (S i)
          (scan_storage destruct_id h)
  end.

(** Second loop of [CheckIntegrity], over the checked-out entries. *)
Fixpoint CheckIntegrity_checked_out (destruct_id : SubTableIDType)
    (l : list QuerySubTableLock) (flag : bool) : outcome bool :=
  match l with
  | [] => Returns flag
  | e :: l' =>
      if flag then Returns flag
      else
        let* _ := heap_top (lock_task_ e) in
        CheckIntegrity_checked_out destruct_id l'
          (scan_storage destruct_id (lock_task_ e))
  end.

Definition CheckIntegrity (destruct_id : SubTableIDType) (st : Queue)
  : outcome bool :=
  let* flag := CheckIntegrity_active destruct_id (tasks_ st)
                 (length (query_subtables_ st)) 0 false in
  CheckIntegrity_checked_out destruct_id (checked_out_query_subtables_ st) flag.

(** What [Print] writes, line by line. *)
Inductive PrintLine : Type :=
| ActiveLine (id : SubTableIDType) (num_tasks : Z) (remaining_work : Z)
             (origin : Z) (reference_set : list (SubTableIDType * Z))
| CheckedOutLine (id : SubTableIDType) (num_tasks : Z) (locked_rank : Z)
                 (reference_set : list (SubTableIDType * Z)).

Definition reference_set_of (h : TaskPriorityQueueType)
  : list (SubTableIDType * Z) :=
  map (fun t => (subtable_id (reference_subtable t),
                 cache_block_id (reference_subtable t))) h.

Fixpoint Print_active (st : Queue) (n i : nat) : outcome (list PrintLine) :=
  match n with
  | O => Returns []
  | S n' =>
      let* q := vec_get (query_subtables_ st) i in
      let* h := vec_get (tasks_ st) i in
      let* w := vec_get (remaining_work_for_query_subtables_ st) i in
      let* _ := heap_top h in
      let* rest := Print_active st n' (S i) in
      Returns (ActiveLine (subtable_id q) (heap_size h) w
                 (originating_rank q) (reference_set_of h) :: rest)
  end.

Fixpoint Print_checked_out (l : list QuerySubTableLock)
  : outcome (list PrintLine) :=
  match l with
  | [] => Returns []
  | e :: l' =>
      let* _ := heap_top (lock_task_ e) in
      let* rest := Print_checked_out l' in
      Returns (CheckedOutLine (subtable_id (lock_query_subtable_ e))
                 (heap_size (lock_task_ e)) (locked_mpi_rank_ e)
                 (reference_set_of (lock_task_ e)) :: rest)
  end.

Definition Print (st : Queue) : outcome (list PrintLine) :=
  let* a := Print_active st (length (query_subtables_ st)) 0 in
  let* c := Print_checked_out (checked_out_query_subtables_ st) in
  Returns (a ++ c).

(** ** Work intake *)

Definition PushNewQueue (originating_rank_in : Z)
    (query_subtable_in : SubTableType) (st : Queue) : outcome (Queue * nat) :=
  let* st := GrowSlots_ st in
  let* _ := vec_back (query_subtables_ st) in
  let* qs := vec_set (query_subtables_ st)
               (Nat.pred (length (query_subtables_ st)))
               (set_originating_rank (Alias query_subtable_in)
                  originating_rank_in) in
  let st := set_query_subtables_ qs st in
  let* ws := vec_set (remaining_work_for_query_subtables_ st)
               (Nat.pred (length (remaining_work_for_query_subtables_ st)))
               0 in
  let st := set_remaining_work_for_query_subtables_ ws st in
  let st := set_num_imported_query_subtables_
              (num_imported_query_subtables_ st + 1) st in
  Returns (st, Nat.pred (length (tasks_ st))).

(** The reference subtable a received id resolves to, and its grid
    [(rank of its table, begin, begin + count)]. *)
Definition frontier_reference_subtable (received : Z * Z * Z * Z)
  : SubTableType :=
  let '(_, reference_begin, reference_count, cache_id) := received in
  match FindSubTable cache_id with
  | Some sub => sub
  | None =>
      set_cache_block_id (local_alias reference_begin reference_count)
        cache_id
  end.

Definition reference_grid (received : Z * Z * Z * Z) : interval :=
  let '(_, reference_begin, reference_count, _) := received in
  (table_rank (frontier_reference_subtable received),
   reference_begin, reference_begin + reference_count).

(** The loop of [GenerateTasks] over the active query subtables, from
    position [j] for [n] positions. *)
Fixpoint GenerateTasks_active (world : communicator) (metric_in : MetricType)
    (grid : interval) (reference : SubTableType) (cache_id : Z)
    (n j : nat) (st : Queue) : outcome Queue :=
  match n with
  | O => Returns st
  | S n' =>
      let* q := vec_get (query_subtables_ st) j in
      let* st :=
        if table_rank q =? rank world then
          let* a := vec_get (assigned_work_ st) j in
          match a with
          | None => Faults NullPointer
          | Some a =>
              let '(ok, a') := Insert grid a in
              if ok then
                let* aw := vec_set (assigned_work_ st) j (Some a') in
                let st := set_assigned_work_ aw st in
                let* st := PushTask world metric_in j reference st in
                Returns (exchange_call (LockCache cache_id 1) st)
              else Returns st
          end
        else Returns st in
      GenerateTasks_active world metric_in grid reference cache_id
        n' (S j) st
  end.

(** The loop of [GenerateTasks] over the checked-out entries, from
    position [k] for [n] positions. *)
Fixpoint GenerateTasks_checked_out (world : communicator)
    (metric_in : MetricType) (grid : interval) (reference : SubTableType)
    (cache_id : Z) (n k : nat) (st : Queue) : outcome Queue :=
  match n with
  | O => Returns st
  | S n' =>
      let* e := vec_get (checked_out_query_subtables_ st) k in
      let* r := Insert_ grid e in
      let '(ok, e) := r in
      let st :=
        if ok then
          let '(e, st) := PushTask_ world metric_in reference e st in
          exchange_call (LockCache cache_id 1)
            (set_checked_out_query_subtables_
               (<[k := e]> (checked_out_query_subtables_ st)) st)
        else st in
      GenerateTasks_checked_out world metric_in grid reference cache_id
        n' (S k) st
  end.

Definition GenerateTasks_one (world : communicator) (metric_in : MetricType)
    (received : Z * Z * Z * Z) (st : Queue) : outcome Queue :=
  let cache_id := snd received in
  let reference := frontier_reference_subtable received in
  let grid := reference_grid received in
  let* st := GenerateTasks_active world metric_in grid reference cache_id
               (length (query_subtables_ st)) 0 st in
  GenerateTasks_checked_out world metric_in grid reference cache_id
    (length (checked_out_query_subtables_ st)) 0 st.

Fixpoint GenerateTasks (world : communicator) (metric_in : MetricType)
    (received_subtable_ids : list (Z * Z * Z * Z)) (st : Queue)
  : outcome Queue :=
  match received_subtable_ids with
  | [] => Returns st
  | received :: rest =>
      let* st := GenerateTasks_one world metric_in received st in
      GenerateTasks world metric_in rest st
  end.

(** ** Completed work and counters *)

(** The per-checkout form of [push_completed_computation]. *)
Definition push_completed_computation_lock (reference_count_in quantity_in : Z)
    (query_subtable_lock : nat) (st : Queue) : outcome Queue :=
  let st := set_remaining_global_computation_
              (wrap64 (remaining_global_computation_ st - quantity_in)) st in
  let st := exchange_call (PushCompletedComputation quantity_in) st in
  match checked_out_query_subtables_ st !! query_subtable_lock with
  | None => Faults EndIterator
  | Some e =>
      let e := set_lock_remaining_work_
                 (wrap64 (lock_remaining_work_for_query_subtable_ e
                          - reference_count_in)) e in
      Returns (set_checked_out_query_subtables_
                 (<[query_subtable_lock := e]>
                    (checked_out_query_subtables_ st)) st)
  end.

(** The loop of the form for all query subtables, from position [i] for
    [n] positions. *)
Fixpoint subtract_remaining_work (reference_count_in : Z) (n i : nat)
    (ws : list Z) : outcome (list Z) :=
  match n with
  | O => Returns ws
  | S n' =>
      let* w := vec_get ws i in
      let* ws := vec_set ws i (wrap64 (w - reference_count_in)) in
      subtract_remaining_work reference_count_in n' (S i) ws
  end.

(** The form of [push_completed_computation] for all query subtables. *)
Definition push_completed_computation (reference_count_in quantity_in : Z)
    (st : Queue) : outcome Queue :=
  let st := set_remaining_global_computation_
              (wrap64 (remaining_global_computation_ st - quantity_in)) st in
  let st := exchange_call (PushCompletedComputation quantity_in) st in
  let* ws := subtract_remaining_work reference_count_in
               (length (query_subtables_ st)) 0
               (remaining_work_for_query_subtables_ st) in
  Returns (set_remaining_work_for_query_subtables_ ws st).

Definition decrement_remaining_local_computation (decrement : Z) (st : Queue)
  : outcome Queue :=
  Returns (set_remaining_local_computation_
             (wrap64 (remaining_local_computation_ st - decrement)) st).

Definition decrement_remaining_global_computation (decrement : Z) (st : Queue)
  : outcome Queue :=
  Returns (set_remaining_global_computation_
             (wrap64 (remaining_global_computation_ st - decrement)) st).

(** [Init] on a constructed queue.  [frontier] is what the tree's
    [get_frontier_nodes_bounded_by_number(4 * num_threads_in, ...)] stores
    into [query_subtables_]; the two lists give [local_n_entries(i)] of the
    query and of the reference table for the ranks [i] of the world. *)
Definition Init (frontier : list SubTableType)
    (query_n_entries reference_n_entries : list Z) (num_threads_in : Z)
    (st : Queue) : outcome Queue :=
  let st := set_num_threads_ num_threads_in st in
  let st := set_query_subtables_
              (map (fun q => set_cache_block_id q (-1)) frontier) st in
  let st := set_tasks_ (map (fun _ => []) frontier) st in
  let total_num_query_points :=
    fold_left (fun acc n => wrap64 (acc + n)) query_n_entries 0 in
  let total_num_reference_points :=
    fold_left (fun acc n => wrap64 (acc + n)) reference_n_entries 0 in
  let st := set_remaining_global_computation_
              (wrap64 (total_num_query_points * total_num_reference_points))
              st in
  let st := set_remaining_local_computation_ 0 st in
  let st := set_num_remaining_tasks_ 0 st in
  let st := set_assigned_work_ (map (fun _ => Some []) frontier) st in
  Returns (set_remaining_work_for_query_subtables_
             (map (fun _ => total_num_reference_points) frontier) st).

(** ** Well-formed states *)

(** The four parallel vectors have one length. *)
Definition lengths_ok (st : Queue) : Prop :=
  length (tasks_ st) = length (query_subtables_ st)
  /\ length (assigned_work_ st) = length (query_subtables_ st)
  /\ length (remaining_work_for_query_subtables_ st)
     = length (query_subtables_ st).

(** Swap-with-last removal on one vector. *)
Definition swap_remove {A : Type} (v : list A) (i : nat) : list A :=
  match last v with
  | Some b => take (Nat.pred (length v)) (<[i := b]> v)
  | None => v
  end.

(** The state after the slot at [probe_index] left the four vectors. *)
Definition evicted (probe_index : nat) (st : Queue) : Queue :=
  set_tasks_ (swap_remove (tasks_ st) probe_index)
    (set_remaining_work_for_query_subtables_
       (swap_remove (remaining_work_for_query_subtables_ st) probe_index)
       (set_query_subtables_ (swap_remove (query_subtables_ st) probe_index)
          (set_assigned_work_ (swap_remove (assigned_work_ st) probe_index)
             st))).

(** One slot seen as a record, and the vectors seen as one vector of
    records (section 9 of the specification). *)
Record Slot : Type := {
  slot_subtree : SubTableType;
  slot_tasks : TaskPriorityQueueType;
  slot_assigned : option DisjointIntIntervals;
  slot_remaining_work : Z;
}.

Fixpoint zip_slots (qs : list SubTableType) (ts : list TaskPriorityQueueType)
    (aw : list (option DisjointIntIntervals)) (ws : list Z) : list Slot :=
  match qs, ts, aw, ws with
  | q :: qs', t :: ts', a :: aw', w :: ws' =>
      {| slot_subtree := q; slot_tasks := t; slot_assigned := a;
         slot_remaining_work := w |} :: zip_slots qs' ts' aw' ws'
  | _, _, _, _ => []
  end.

Definition slots (st : Queue) : list Slot :=
  zip_slots (query_subtables_ st) (tasks_ st) (assigned_work_ st)
    (remaining_work_for_query_subtables_ st).

Definition slot_of_lock (e : QuerySubTableLock) : Slot :=
  {| slot_subtree := lock_query_subtable_ e;
     slot_tasks := lock_task_ e;
     slot_assigned := lock_assigned_work_ e;
     slot_remaining_work := lock_remaining_work_for_query_subtable_ e |}.

(** ** Accounting *)

Definition heap_work (h : TaskPriorityQueueType) : Z :=
  fold_right (fun t acc => work t + acc) 0 h.

(** The heaps the queue holds: of the active slots, then of the
    checked-out entries. *)
Definition all_heaps (st : Queue) : list TaskPriorityQueueType :=
  tasks_ st ++ map lock_task_ (checked_out_query_subtables_ st).

Definition total_tasks (hs : list TaskPriorityQueueType) : Z :=
  fold_right (fun h acc => heap_size h + acc) 0 hs.

Definition total_work (hs : list TaskPriorityQueueType) : Z :=
  fold_right (fun h acc => heap_work h + acc) 0 hs.

Definition accounting (st : Queue) : Prop :=
  num_remaining_tasks_ st = total_tasks (all_heaps st)
  /\ remaining_local_computation_ st = wrap64 (total_work (all_heaps st)).

(** The heap keeps its storage in decreasing priority. *)
Fixpoint heap_ordered (h : TaskPriorityQueueType) : Prop :=
  match h with
  | [] => True
  | t :: h' => Forall (fun u => priority u <= priority t) h' /\ heap_ordered h'
  end.

(** ** Reachable states *)

(** One call of an operation that returns: the public operations, and
    the splitting that [DequeueTask] runs. *)
Inductive step (world : communicator) (metric_in : MetricType)
  : Queue -> Queue -> Prop :=
| step_PushTask i reference st st' :
    PushTask world metric_in i reference st = Returns st' ->
    step world metric_in st st'
| step_DequeueTask_slot i task_out want st st' task it b :
    DequeueTask_slot world i task_out want st = Returns (st', task, it, b) ->
    step world metric_in st st'
| step_DequeueTask thread_id task_out want st st' task it :
    DequeueTask world thread_id metric_in task_out want st
    = Returns (st', task, it) ->
    step world metric_in st st'
| step_pop i st st' :
    pop i st = Returns st' ->
    step world metric_in st st'
| step_GenerateTasks ids st st' :
    GenerateTasks world metric_in ids st = Returns st' ->
    step world metric_in st st'
| step_LockQuerySubTable i r st st' it :
    LockQuerySubTable i r st = Returns (st', it) ->
    step world metric_in st st'
| step_ReturnQuerySubTable it st st' :
    ReturnQuerySubTable it st = Returns st' ->
    step world metric_in st st'
| step_Synchronize received st st' :
    Synchronize received st = Returns st' ->
    step world metric_in st st'
| step_PushNewQueue r q st st' i :
    PushNewQueue r q st = Returns (st', i) ->
    step world metric_in st st'
| step_push_completed_computation rc qty st st' :
    push_completed_computation rc qty st = Returns st' ->
    step world metric_in st st'
| step_push_completed_computation_lock rc qty it st st' :
    push_completed_computation_lock rc qty it st = Returns st' ->
    step world metric_in st st'
| step_RedistributeAmongCores_ st st' :
    RedistributeAmongCores_ world metric_in st = Returns st' ->
    step world metric_in st st'
| step_split_subtree_ i st st' :
    split_subtree_ world metric_in i st = Returns st' ->
    step world metric_in st st'.

(** The states a process reaches from an initialised queue. *)
Inductive reachable (world : communicator) (metric_in : MetricType)
  : Queue -> Prop :=
| reachable_Init frontier query_n_entries reference_n_entries
    num_threads_in st :
    Init frontier query_n_entries reference_n_entries num_threads_in
      DistributedDualtreeTaskQueue = Returns st ->
    reachable world metric_in st
| reachable_step st st' :
    reachable world metric_in st ->
    step world metric_in st st' ->
    reachable world metric_in st'.

(** ** States the operations leave, and what the properties speak of *)

(** The state [Flush_] evicts from. *)
Definition flush_queued (q : SubTableType) (st : Queue) : Queue :=
  set_num_imported_query_subtables_ (num_imported_query_subtables_ st - 1)
    (exchange_call (QueueFlushRequest q) st).

(** The state after the top task [t] left the heap of slot [s], [h] being
    what the heap keeps. *)
Definition popped (s : nat) (t : TaskType) (h : list TaskType) (st : Queue)
  : Queue :=
  set_remaining_local_computation_
    (wrap64 (remaining_local_computation_ st - work t))
    (set_num_remaining_tasks_ (num_remaining_tasks_ st - 1)
       (set_tasks_ (<[s := h]> (tasks_ st)) st)).

(** The state after slot [s] went to a new checked-out entry [e]. *)
Definition checked_out_to (s : nat) (e : QuerySubTableLock) (st : Queue)
  : Queue :=
  set_checked_out_query_subtables_ (e :: checked_out_query_subtables_ st)
    (set_num_exported_query_subtables_ (num_exported_query_subtables_ st + 1)
       (evicted s st)).

(** The state after [PushNewQueue]. *)
Definition with_new_queue (originating_rank_in : Z)
    (query_subtable_in : SubTableType) (st : Queue) : Queue :=
  {| assigned_work_ := assigned_work_ st ++ [None];
     checked_out_query_subtables_ := checked_out_query_subtables_ st;
     num_exported_query_subtables_ := num_exported_query_subtables_ st;
     num_imported_query_subtables_ := num_imported_query_subtables_ st + 1;
     num_remaining_tasks_ := num_remaining_tasks_ st;
     num_threads_ := num_threads_ st;
     query_subtables_ :=
       query_subtables_ st
       ++ [set_originating_rank (Alias query_subtable_in)
             originating_rank_in];
     remaining_work_for_query_subtables_ :=
       remaining_work_for_query_subtables_ st ++ [0];
     table_exchange_ := table_exchange_ st;
     tasks_ := tasks_ st ++ [[]];
     remaining_global_computation_ := remaining_global_computation_ st;
     remaining_local_computation_ := remaining_local_computation_ st |}.

(** The reading of the specification: the slot [PushNewQueue] appends has
    an empty set of assigned intervals. *)
Definition new_queue_has_empty_assigned_set : Prop :=
  forall (r : Z) (q : SubTableType) (st st' : Queue) (i : nat),
    PushNewQueue r q st = Returns (st', i) ->
    assigned_work_ st' !! i = Some (Some []).

(** The reading of the specification: a [Synchronize] that finds no
    checked-out entry including the received subtable does not return, and
    neither does a decrement larger than the counter. *)
Definition invariant_violations_are_fatal : Prop :=
  (forall (received : SubTableType) (st : Queue),
     Forall (fun e => includes (lock_query_subtable_ e) received = false)
       (checked_out_query_subtables_ st) ->
     ~ returns (Synchronize received st))
  /\ (forall (d : Z) (st : Queue),
        remaining_local_computation_ st < d ->
        ~ returns (decrement_remaining_local_computation d st))
  /\ (forall (d : Z) (st : Queue),
        remaining_global_computation_ st < d ->
        ~ returns (decrement_remaining_global_computation d st)).

(** The two loops of [CheckIntegrity] as one scan of a list of heaps. *)
Fixpoint scan_heaps (destruct_id : SubTableIDType)
    (hs : list (list TaskType)) (flag : bool) : outcome bool :=
  match hs with
  | [] => Returns flag
  | h :: hs' =>
      if flag then Returns flag
      else
        let* _ := heap_top h in
        scan_heaps destruct_id hs' (scan_storage destruct_id h)
  end.

(** The reading of the specification: in a state that holds an empty heap,
    [CheckIntegrity] and [Print] take the top of an empty heap. *)
Definition empty_heap_is_always_reached : Prop :=
  forall (destruct_id : SubTableIDType) (st : Queue),
    lengths_ok st ->
    In [] (all_heaps st) ->
    CheckIntegrity destruct_id st = Faults EmptyTop
    /\ Print st = Faults EmptyTop.

(** The lines [Print] writes for a list of slots and of entries. *)
Definition active_line (sl : Slot) : PrintLine :=
  ActiveLine (subtable_id (slot_subtree sl)) (heap_size (slot_tasks sl))
    (slot_remaining_work sl) (originating_rank (slot_subtree sl))
    (reference_set_of (slot_tasks sl)).

Definition checked_out_line (e : QuerySubTableLock) : PrintLine :=
  CheckedOutLine (subtable_id (lock_query_subtable_ e))
    (heap_size (lock_task_ e)) (locked_mpi_rank_ e)
    (reference_set_of (lock_task_ e)).

(** The task [PushTask] builds. *)
Definition make_task (world : communicator) (metric_in : MetricType)
    (q reference : SubTableType) : TaskType :=
  {| query_subtable := q;
     reference_subtable := reference;
     priority := task_priority world metric_in q reference |}.

(** The state after the task [t] went onto the heap [h] of slot [i]. *)
Definition pushed (i : nat) (t : TaskType) (h : list TaskType) (st : Queue)
  : Queue :=
  set_remaining_local_computation_
    (wrap64 (remaining_local_computation_ st + work t))
    (set_num_remaining_tasks_ (num_remaining_tasks_ st + 1)
       (set_tasks_ (<[i := heap_push t h]> (tasks_ st)) st)).

(** Both invariants at once. *)
Definition well_formed (st : Queue) : Prop := lengths_ok st /\ accounting st.

(** The state after the checked-out entry [e] at position [it] returned
    to the active slots. *)
Definition returned (it : nat) (e : QuerySubTableLock) (st : Queue) : Queue :=
  set_checked_out_query_subtables_
    (delete it (checked_out_query_subtables_ st)) (Return_ e st).

(** The remaining local computation after the tasks of [h] were taken
    one by one. *)
Definition drain_local (loc : Z) (h : list TaskType) : Z :=
  fold_left (fun acc t => wrap64 (acc - work t)) h loc.

(** The state after the heap [h] of slot [i] was drained. *)
Definition drained (i : nat) (h : list TaskType) (st : Queue) : Queue :=
  set_remaining_local_computation_
    (drain_local (remaining_local_computation_ st) h)
    (set_num_remaining_tasks_ (num_remaining_tasks_ st - heap_size h)
       (set_tasks_ (<[i := []]> (tasks_ st)) st)).

(** The heap after the tasks of [prev] were pushed again for the query
    subtable [q]. *)
Definition repush_heap (world : communicator) (metric_in : MetricType)
    (q : SubTableType) (prev : list TaskType) (h : list TaskType)
  : list TaskType :=
  fold_left
    (fun acc t =>
       heap_push (make_task world metric_in q (reference_subtable t)) acc)
    prev h.

(** The remaining local computation after they were pushed for [ql] and
    for [qr]. *)
Definition repush_local (world : communicator) (metric_in : MetricType)
    (ql qr : SubTableType) (prev : list TaskType) (loc : Z) : Z :=
  fold_left
    (fun acc t =>
       wrap64
         (wrap64
            (acc + work (make_task world metric_in ql (reference_subtable t)))
          + work (make_task world metric_in qr (reference_subtable t))))
    prev loc.

Definition cache_locks (prev : list TaskType) : list ExchangeCall :=
  map (fun t => LockCache (reference_subtable_cache_block_id t) 1) prev.

(** The work of the tasks of [prev] pushed again for [q]. *)
Definition repush_work (world : communicator) (metric_in : MetricType)
    (q : SubTableType) (prev : list TaskType) : Z :=
  fold_right
    (fun t acc =>
       work (make_task world metric_in q (reference_subtable t)) + acc)
    0 prev.

(** The interval [g] meets an interval of the set [a]. *)
Definition covered (g : interval) (a : list interval) : Prop :=
  existsb (interval_overlaps g) a = true.

(** The active slots of this process before position [j] have an assigned
    set that [g] meets. *)
Definition active_blocked_upto (world : communicator) (g : interval)
    (st : Queue) (j : nat) : Prop :=
  forall i q,
    (i < j)%nat ->
    query_subtables_ st !! i = Some q ->
    table_rank q = rank world ->
    exists a, assigned_work_ st !! i = Some (Some a) /\ covered g a.

(** The same of the checked-out entries before position [k]. *)
Definition locks_blocked_upto (g : interval) (st : Queue) (k : nat) : Prop :=
  forall i e,
    (i < k)%nat ->
    checked_out_query_subtables_ st !! i = Some e ->
    exists a, lock_assigned_work_ e = Some a /\ covered g a.

(** The interval [g] was enqueued against every slot of this process and
    against every checked-out entry. *)
Definition blocked (world : communicator) (g : interval) (st : Queue)
  : Prop :=
  active_blocked_upto world g st (length (query_subtables_ st))
  /\ locks_blocked_upto g st (length (checked_out_query_subtables_ st)).

(** The assigned sets of [st'] are those of [st], each with intervals
    added, for the same query subtables. *)
Definition extends (st st' : Queue) : Prop :=
  query_subtables_ st' = query_subtables_ st
  /\ (forall j a,
        assigned_work_ st !! j = Some (Some a) ->
        exists a', assigned_work_ st' !! j = Some (Some (a ++ a')))
  /\ length (checked_out_query_subtables_ st')
     = length (checked_out_query_subtables_ st)
  /\ (forall k e a,
        checked_out_query_subtables_ st !! k = Some e ->
        lock_assigned_work_ e = Some a ->
        exists e' a',
          checked_out_query_subtables_ st' !! k = Some e'
          /\ lock_assigned_work_ e' = Some (a ++ a')).

(** ** Further operations and what the further properties speak of *)

(** [is_empty]. *)
Definition is_empty (st : Queue) : bool := num_remaining_tasks_ st =? 0.

(** The slot at position [i] can be split: its subtable is no leaf and its
    heap holds a task; [c] is the count of its subtable. *)
Definition splittable (st : Queue) (i : nat) (c : Z) : Prop :=
  exists q h,
    query_subtables_ st !! i = Some q
    /\ tasks_ st !! i = Some h
    /\ is_leaf (start_node q) = false
    /\ h <> []
    /\ count (start_node q) = c.

(** No active slot before position [i] holds a task. *)
Definition empty_before (i : nat) (st : Queue) : Prop :=
  forall j h, (j < i)%nat -> tasks_ st !! j = Some h -> h = [].

(** The cache locks taken for the received ids: as many locks on the cache
    block of an id as [ks] tells at the position of the id. *)
Definition received_locks (received_subtable_ids : list (Z * Z * Z * Z))
    (ks : list nat) : list ExchangeCall :=
  concat (zip_with (fun id k => replicate k (LockCache (snd id) 1))
            received_subtable_ids ks).

(** Every active slot of this process has an assigned set, and so has every
    checked-out entry. *)
Definition own_allocated (world : communicator) (st : Queue) : Prop :=
  forall j q,
    query_subtables_ st !! j = Some q ->
    table_rank q = rank world ->
    exists a, assigned_work_ st !! j = Some (Some a).

Definition entries_allocated (st : Queue) : Prop :=
  Forall (fun e => exists a, lock_assigned_work_ e = Some a)
    (checked_out_query_subtables_ st).

(** What [GenerateTasks] leaves as it is in the slot at position [i]. *)
Definition same_slot (i : nat) (st st' : Queue) : Prop :=
  tasks_ st' !! i = tasks_ st !! i
  /\ assigned_work_ st' !! i = assigned_work_ st !! i.

(** A slot that waits: its heap is empty, its query subtable is of this
    process, and some of its work is not yet reported as done. *)
Definition idle (world : communicator) (s : Slot) : Prop :=
  slot_tasks s = []
  /\ table_rank (slot_subtree s) = rank world
  /\ slot_remaining_work s <> 0.

(** A slot that is done: its heap is empty and, if its query subtable is of
    this process, no work remains for it. *)
Definition finished (world : communicator) (s : Slot) : Prop :=
  slot_tasks s = []
  /\ (table_rank (slot_subtree s) = rank world -> slot_remaining_work s = 0).

(** The query subtables of other processes. *)
Definition imported (world : communicator) (qs : list SubTableType)
  : list SubTableType :=
  filter (fun q => table_rank q <> rank world) qs.

(** The sum of the entries the processes hold. *)
Definition sum_entries (n_entries : list Z) : Z := fold_right Z.add 0 n_entries.

(** * Properties *)

(** ** Vectors *)

Lemma vec_get_Returns {A : Type} (v : list A) (i : nat) (x : A) :
  vec_get v i = Returns x <-> v !! i = Some x.
Proof.
  unfold vec_get. destruct (v !! i); split; intros H; congruence.
Qed.

Lemma vec_set_Returns {A : Type} (v v' : list A) (i : nat) (x : A) :
  vec_set v i x = Returns v' <-> (i < length v)%nat /\ v' = <[i := x]> v.
Proof.
  unfold vec_set. destruct (v !! i) eqn:E.
  - apply lookup_lt_Some in E. split.
    + intros H. injection H as <-. auto.
    + intros [_ ->]. reflexivity.
  - apply lookup_ge_None in E. split; [discriminate | lia].
Qed.

Lemma vec_set_in_range {A : Type} (v : list A) (i : nat) (x : A) :
  (i < length v)%nat -> vec_set v i x = Returns (<[i := x]> v).
Proof. intros H. apply vec_set_Returns. auto. Qed.

Lemma last_is_Some_nonempty {A : Type} (v : list A) :
  (0 < length v)%nat -> is_Some (last v).
Proof.
  intros H. rewrite last_lookup. apply lookup_lt_is_Some. lia.
Qed.

Lemma vec_evict_in_range {A : Type} (v : list A) (i : nat) :
  (i < length v)%nat -> vec_evict v i = Returns (swap_remove v i).
Proof.
  intros H. unfold vec_evict, swap_remove, vec_back.
  destruct (last_is_Some_nonempty v) as [b Hb]; [lia |].
  rewrite Hb. simpl. rewrite vec_set_in_range by assumption. simpl.
  unfold vec_pop_back.
  destruct (last_is_Some_nonempty (<[i := b]> v)) as [c Hc].
  { rewrite length_insert. lia. }
  rewrite Hc, length_insert. reflexivity.
Qed.

Lemma vec_evict_Returns {A : Type} (v v' : list A) (i : nat) :
  vec_evict v i = Returns v' -> (i < length v)%nat /\ v' = swap_remove v i.
Proof.
  intros H. destruct (decide (i < length v)%nat) as [Hlt | Hge].
  - rewrite vec_evict_in_range in H by assumption. injection H as <-. auto.
  - unfold vec_evict, vec_back in H. destruct (last v); simpl in H.
    + unfold vec_set in H. rewrite lookup_ge_None_2 in H by lia.
      discriminate.
    + discriminate.
Qed.

Lemma length_swap_remove {A : Type} (v : list A) (i : nat) :
  (0 < length v)%nat -> length (swap_remove v i) = Nat.pred (length v).
Proof.
  intros H. unfold swap_remove.
  destruct (last_is_Some_nonempty v H) as [b ->].
  rewrite length_take, length_insert. lia.
Qed.

Lemma swap_remove_last {A : Type} (l : list A) (x : A) :
  swap_remove (l ++ [x]) (length l) = l.
Proof.
  unfold swap_remove. rewrite last_snoc, length_app. simpl.
  replace (Nat.pred (length l + 1)) with (length l) by lia.
  rewrite insert_app_r_alt by lia. rewrite Nat.sub_diag. simpl.
  apply take_app_length.
Qed.

Lemma swap_remove_inner {A : Type} (l m : list A) (x b : A) :
  swap_remove (l ++ x :: m ++ [b]) (length l) = l ++ b :: m.
Proof.
  unfold swap_remove.
  replace (l ++ x :: m ++ [b]) with ((l ++ x :: m) ++ [b])
    by (rewrite <- app_assoc; reflexivity).
  rewrite last_snoc, length_app. simpl.
  replace (Nat.pred (length (l ++ x :: m) + 1)) with (length (l ++ b :: m))
    by (rewrite !length_app; simpl; lia).
  rewrite <- app_assoc. simpl.
  rewrite insert_app_r_alt by lia. rewrite Nat.sub_diag. simpl.
  replace (l ++ b :: m ++ [b]) with ((l ++ b :: m) ++ [b])
    by (rewrite <- app_assoc; reflexivity).
  apply take_app_length.
Qed.

(** Removing the last position drops it; removing another one moves the
    last element into it. *)
Lemma swap_remove_cases {A : Type} (v : list A) (i : nat) (x : A) :
  v !! i = Some x ->
  (v = take i v ++ [x] /\ swap_remove v i = take i v)
  \/ (exists l b, v = take i v ++ x :: l ++ [b]
               /\ swap_remove v i = take i v ++ b :: l).
Proof.
  intros Hx. pose proof (lookup_lt_Some _ _ _ Hx) as Hlt.
  pose proof (take_drop_middle v i x Hx) as Hsplit.
  assert (Hlen : length (take i v) = i) by (rewrite length_take; lia).
  destruct (drop (S i) v) as [| y l _] using rev_ind.
  - left. split; [congruence |].
    rewrite <- Hsplit at 1. rewrite <- Hlen at 2. apply swap_remove_last.
  - right. exists l, y. split; [congruence |].
    rewrite <- Hsplit at 1. rewrite <- Hlen at 2. apply swap_remove_inner.
Qed.

Lemma swap_remove_Permutation {A : Type} (v : list A) (i : nat) (x : A) :
  v !! i = Some x -> x :: swap_remove v i ≡ₚ v.
Proof.
  intros Hx. destruct (swap_remove_cases v i x Hx) as [[Hv Hs] | (l & b & Hv & Hs)].
  - rewrite Hs. rewrite Hv at 2. rewrite Permutation_app_comm. reflexivity.
  - rewrite Hs. rewrite Hv at 2.
    rewrite Permutation_middle. apply Permutation_app_head.
    apply perm_skip. apply Permutation_cons_append.
Qed.

(** ** Eviction and flushing *)

Lemma Evict_in_range (i : nat) (st : Queue) :
  lengths_ok st -> (i < length (query_subtables_ st))%nat ->
  Evict_ i st = Returns (evicted i st).
Proof.
  intros (Ht & Ha & Hw) Hi. unfold Evict_, evicted.
  rewrite !vec_evict_in_range by lia. reflexivity.
Qed.

Lemma Evict_Returns (i : nat) (st st' : Queue) :
  Evict_ i st = Returns st' ->
  st' = evicted i st
  /\ (i < length (assigned_work_ st))%nat
  /\ (i < length (query_subtables_ st))%nat
  /\ (i < length (remaining_work_for_query_subtables_ st))%nat
  /\ (i < length (tasks_ st))%nat.
Proof.
  unfold Evict_. intros H.
  destruct (vec_evict (assigned_work_ st) i) as [a |] eqn:Ea; [| discriminate].
  destruct (vec_evict (query_subtables_ st) i) as [q |] eqn:Eq;
    [| discriminate].
  destruct (vec_evict (remaining_work_for_query_subtables_ st) i)
    as [w |] eqn:Ew; [| discriminate].
  destruct (vec_evict (tasks_ st) i) as [t |] eqn:Et; [| discriminate].
  simpl in H. injection H as <-.
  apply vec_evict_Returns in Ea as [? ->], Eq as [? ->], Ew as [? ->],
    Et as [? ->].
  unfold evicted. auto.
Qed.

Lemma lengths_ok_evicted (i : nat) (st : Queue) :
  lengths_ok st -> (0 < length (query_subtables_ st))%nat ->
  lengths_ok (evicted i st).
Proof.
  intros (Ht & Ha & Hw) Hpos. unfold lengths_ok, evicted. simpl.
  rewrite !length_swap_remove by lia. lia.
Qed.

Lemma lookup_swap_remove {A : Type} (v : list A) (s i : nat) :
  (s < length v)%nat ->
  swap_remove v s !! i
  = if decide (i < Nat.pred (length v))%nat
    then (if decide (s = i) then last v else v !! i)
    else None.
Proof.
  intros Hs. unfold swap_remove.
  destruct (last_is_Some_nonempty v) as [b Hb]; [lia |]. rewrite Hb.
  destruct (decide (i < Nat.pred (length v))%nat) as [Hi | Hi].
  - rewrite lookup_take_lt by assumption.
    destruct (decide (s = i)) as [-> | Hne].
    + apply list_lookup_insert_eq. assumption.
    + apply list_lookup_insert_ne. assumption.
  - apply lookup_take_ge. lia.
Qed.

Lemma lookup_zip_slots (qs : list SubTableType) (ts : list (list TaskType))
    (aw : list (option DisjointIntIntervals)) (ws : list Z) (i : nat) :
  zip_slots qs ts aw ws !! i
  = match qs !! i, ts !! i, aw !! i, ws !! i with
    | Some q, Some t, Some a, Some w =>
        Some {| slot_subtree := q; slot_tasks := t; slot_assigned := a;
                slot_remaining_work := w |}
    | _, _, _, _ => None
    end.
Proof.
  revert ts aw ws i.
  induction qs as [| q qs IH]; intros ts aw ws i; [reflexivity |].
  destruct ts as [| t ts].
  { simpl. destruct ((q :: qs) !! i); reflexivity. }
  destruct aw as [| a aw].
  { simpl. destruct ((q :: qs) !! i), ((t :: ts) !! i); reflexivity. }
  destruct ws as [| w ws].
  { simpl.
    destruct ((q :: qs) !! i), ((t :: ts) !! i), ((a :: aw) !! i);
      reflexivity. }
  destruct i as [| i]; [reflexivity |]. simpl. apply IH.
Qed.

Lemma length_zip_slots (qs : list SubTableType) (ts : list (list TaskType))
    (aw : list (option DisjointIntIntervals)) (ws : list Z) :
  length ts = length qs -> length aw = length qs -> length ws = length qs ->
  length (zip_slots qs ts aw ws) = length qs.
Proof.
  revert ts aw ws.
  induction qs as [| q qs IH]; intros ts aw ws Ht Ha Hw; [reflexivity |].
  destruct ts as [| t ts]; [discriminate |].
  destruct aw as [| a aw]; [discriminate |].
  destruct ws as [| w ws]; [discriminate |].
  simpl in *. f_equal. apply IH; lia.
Qed.

Lemma length_slots (st : Queue) :
  lengths_ok st -> length (slots st) = length (query_subtables_ st).
Proof.
  intros (Ht & Ha & Hw). unfold slots. apply length_zip_slots; assumption.
Qed.

(** The four vectors lose a position in step: the records of the state
    after an eviction are the records before it, one removed by
    swap-with-last. *)
Lemma zip_slots_swap_remove (qs : list SubTableType)
    (ts : list (list TaskType)) (aw : list (option DisjointIntIntervals))
    (ws : list Z) (s : nat) :
  length ts = length qs -> length aw = length qs -> length ws = length qs ->
  (s < length qs)%nat ->
  zip_slots (swap_remove qs s) (swap_remove ts s) (swap_remove aw s)
    (swap_remove ws s)
  = swap_remove (zip_slots qs ts aw ws) s.
Proof.
  intros Ht Ha Hw Hs. apply list_eq. intros i.
  rewrite lookup_zip_slots.
  rewrite !lookup_swap_remove
    by (rewrite ?length_zip_slots by assumption; lia).
  rewrite (length_zip_slots qs ts aw ws Ht Ha Hw), Ht, Ha, Hw.
  destruct (decide (i < Nat.pred (length qs))%nat) as [Hi | Hi];
    [| reflexivity].
  destruct (decide (s = i)) as [_ | _].
  - rewrite !last_lookup, lookup_zip_slots.
    rewrite (length_zip_slots qs ts aw ws Ht Ha Hw), Ht, Ha, Hw.
    reflexivity.
  - rewrite lookup_zip_slots. reflexivity.
Qed.

Lemma zip_slots_app (qs : list SubTableType) (ts : list (list TaskType))
    (aw : list (option DisjointIntIntervals)) (ws : list Z)
    (q : SubTableType) (t : list TaskType)
    (a : option DisjointIntIntervals) (w : Z) :
  length ts = length qs -> length aw = length qs -> length ws = length qs ->
  zip_slots (qs ++ [q]) (ts ++ [t]) (aw ++ [a]) (ws ++ [w])
  = zip_slots qs ts aw ws
    ++ [{| slot_subtree := q; slot_tasks := t; slot_assigned := a;
           slot_remaining_work := w |}].
Proof.
  revert ts aw ws.
  induction qs as [| q0 qs IH]; intros ts aw ws Ht Ha Hw.
  - destruct ts; [| discriminate]. destruct aw; [| discriminate].
    destruct ws; [| discriminate]. reflexivity.
  - destruct ts as [| t0 ts]; [discriminate |].
    destruct aw as [| a0 aw]; [discriminate |].
    destruct ws as [| w0 ws]; [discriminate |].
    simpl in *. f_equal. apply IH; lia.
Qed.

Lemma slots_evicted (s : nat) (st : Queue) :
  lengths_ok st -> (s < length (query_subtables_ st))%nat ->
  slots (evicted s st) = swap_remove (slots st) s.
Proof.
  intros (Ht & Ha & Hw) Hs. unfold slots, evicted. simpl.
  apply zip_slots_swap_remove; assumption.
Qed.

Lemma Flush_in_range (i : nat) (q : SubTableType) (st : Queue) :
  lengths_ok st -> query_subtables_ st !! i = Some q ->
  Flush_ i st = Returns (evicted i (flush_queued q st)).
Proof.
  intros Hok Hq. unfold Flush_.
  rewrite (proj2 (vec_get_Returns _ _ _) Hq). simpl.
  apply Evict_in_range.
  - exact Hok.
  - simpl. eapply lookup_lt_Some, Hq.
Qed.

Lemma DequeueTask_slot_on_empty_heap
    (world : communicator) (s : nat) (task_out : TaskType * Z)
    (want_checkout : bool) (st : Queue) (q : SubTableType) (w : Z) :
  lengths_ok st ->
  tasks_ st !! s = Some [] ->
  query_subtables_ st !! s = Some q ->
  remaining_work_for_query_subtables_ st !! s = Some w ->
  DequeueTask_slot world s task_out want_checkout st
  = if table_rank q =? rank world then
      if w =? 0 then Returns (evicted s st, task_out, None, true)
      else Returns (st, task_out, None, false)
    else Returns (evicted s (flush_queued q st), task_out, None, true).
Proof.
  intros Hok Ht Hq Hw. unfold DequeueTask_slot.
  rewrite (proj2 (vec_get_Returns _ _ _) Ht). simpl.
  rewrite (proj2 (vec_get_Returns _ _ _) Hq). simpl.
  destruct (table_rank q =? rank world).
  - rewrite (proj2 (vec_get_Returns _ _ _) Hw). simpl.
    destruct (w =? 0); [| reflexivity].
    rewrite Evict_in_range; [reflexivity | exact Hok |].
    eapply lookup_lt_Some, Hq.
  - rewrite (Flush_in_range s q st Hok Hq). reflexivity.
Qed.

(** ** Dequeue from a non-empty heap *)

Lemma lengths_ok_popped (s : nat) (t : TaskType) (h : list TaskType)
    (st : Queue) :
  lengths_ok st -> lengths_ok (popped s t h st).
Proof.
  unfold lengths_ok, popped. simpl. rewrite length_insert. auto.
Qed.

Lemma LockQuerySubTable_in_range (s : nat) (r : Z) (st : Queue)
    (a : option DisjointIntIntervals) (q : SubTableType) (w : Z)
    (h : list TaskType) :
  lengths_ok st ->
  assigned_work_ st !! s = Some a ->
  query_subtables_ st !! s = Some q ->
  remaining_work_for_query_subtables_ st !! s = Some w ->
  tasks_ st !! s = Some h ->
  LockQuerySubTable s r st
  = Returns (checked_out_to s
               {| lock_assigned_work_ := a; locked_mpi_rank_ := r;
                  lock_query_subtable_ := q;
                  lock_remaining_work_for_query_subtable_ := w;
                  lock_task_ := h |} st, 0%nat).
Proof.
  intros Hok Ha Hq Hw Hh. unfold LockQuerySubTable, CheckOut_.
  rewrite (proj2 (vec_get_Returns _ _ _) Ha). simpl.
  rewrite (proj2 (vec_get_Returns _ _ _) Hq). simpl.
  rewrite (proj2 (vec_get_Returns _ _ _) Hw). simpl.
  rewrite (proj2 (vec_get_Returns _ _ _) Hh). simpl.
  rewrite Evict_in_range; [reflexivity | exact Hok |].
  eapply lookup_lt_Some, Hq.
Qed.

Lemma DequeueTask_slot_pop (world : communicator) (s : nat)
    (task_out : TaskType * Z) (st : Queue) (t : TaskType)
    (h : list TaskType) :
  tasks_ st !! s = Some (t :: h) ->
  DequeueTask_slot world s task_out false st
  = Returns (popped s t h st, (t, Z.of_nat s), None, false).
Proof.
  intros Ht. unfold DequeueTask_slot.
  rewrite (proj2 (vec_get_Returns _ _ _) Ht). simpl.
  rewrite vec_set_in_range by (eapply lookup_lt_Some, Ht). reflexivity.
Qed.

Lemma DequeueTask_slot_checkout (world : communicator) (s : nat)
    (task_out : TaskType * Z) (st : Queue) (t : TaskType)
    (h : list TaskType) (a : option DisjointIntIntervals)
    (q : SubTableType) (w : Z) :
  lengths_ok st ->
  tasks_ st !! s = Some (t :: h) ->
  assigned_work_ st !! s = Some a ->
  query_subtables_ st !! s = Some q ->
  remaining_work_for_query_subtables_ st !! s = Some w ->
  DequeueTask_slot world s task_out true st
  = Returns (checked_out_to s
               {| lock_assigned_work_ := a; locked_mpi_rank_ := rank world;
                  lock_query_subtable_ := q;
                  lock_remaining_work_for_query_subtable_ := w;
                  lock_task_ := h |} (popped s t h st),
             (t, Z.of_nat s), Some 0%nat, false).
Proof.
  intros Hok Ht Ha Hq Hw.
  pose proof (lookup_lt_Some _ _ _ Ht) as Hlt.
  unfold DequeueTask_slot.
  rewrite (proj2 (vec_get_Returns _ _ _) Ht). simpl.
  rewrite vec_set_in_range by assumption. simpl.
  erewrite (LockQuerySubTable_in_range s (rank world) _ a q w h).
  - reflexivity.
  - apply (lengths_ok_popped s t h st Hok).
  - exact Ha.
  - exact Hq.
  - exact Hw.
  - simpl. apply list_lookup_insert_eq. exact Hlt.
Qed.

(** ** Completed computation *)

Lemma wrap64_exact (z : Z) : 0 <= z < two64 -> wrap64 z = z.
Proof. intros H. unfold wrap64. apply Z.mod_small. exact H. Qed.

Lemma subtract_remaining_work_range (rc : Z) (n i : nat) (ws : list Z) :
  (i + n <= length ws)%nat ->
  exists ws',
    subtract_remaining_work rc n i ws = Returns ws'
    /\ length ws' = length ws
    /\ forall k,
         ws' !! k
         = if decide (i <= k < i + n)%nat
           then (fun w => wrap64 (w - rc)) <$> ws !! k
           else ws !! k.
Proof.
  revert i ws. induction n as [| n IH]; intros i ws Hle.
  - exists ws. split; [reflexivity |]. split; [reflexivity |].
    intros k. destruct (decide (i <= k < i + 0)%nat); [lia | reflexivity].
  - simpl. destruct (ws !! i) as [w |] eqn:Ew.
    2: { apply lookup_ge_None in Ew. lia. }
    rewrite (proj2 (vec_get_Returns _ _ _) Ew). simpl.
    rewrite vec_set_in_range by lia. simpl.
    destruct (IH (S i) (<[i := wrap64 (w - rc)]> ws)) as (ws' & Hrun & Hlen & Hk).
    { rewrite length_insert. lia. }
    exists ws'. split; [exact Hrun |]. split.
    { rewrite Hlen. apply length_insert. }
    intros k. rewrite Hk.
    destruct (decide (S i <= k < S i + n)%nat) as [Hin | Hout].
    + rewrite list_lookup_insert_ne by lia.
      destruct (decide (i <= k < i + S n)%nat); [reflexivity | lia].
    + destruct (decide (i = k)) as [<- | Hne].
      * rewrite list_lookup_insert_eq by lia.
        destruct (decide (i <= i < i + S n)%nat); [| lia].
        rewrite Ew. reflexivity.
      * rewrite list_lookup_insert_ne by assumption.
        destruct (decide (i <= k < i + S n)%nat); [lia | reflexivity].
Qed.

Lemma subtract_remaining_work_all (rc : Z) (ws : list Z) :
  subtract_remaining_work rc (length ws) 0 ws
  = Returns (map (fun w => wrap64 (w - rc)) ws).
Proof.
  destruct (subtract_remaining_work_range rc (length ws) 0 ws)
    as (ws' & Hrun & Hlen & Hk); [lia |].
  rewrite Hrun. f_equal. apply list_eq. intros k. rewrite Hk.
  change (map (fun w => wrap64 (w - rc)) ws)
    with ((fun w => wrap64 (w - rc)) <$> ws).
  rewrite list_lookup_fmap.
  destruct (decide (0 <= k < 0 + length ws)%nat) as [_ | Hout];
    [reflexivity |].
  rewrite lookup_ge_None_2 by lia. reflexivity.
Qed.

(** ** A new queue for an imported query subtable *)

Lemma insert_last_snoc {A : Type} (l : list A) (x y : A) :
  <[Nat.pred (length (l ++ [x])) := y]> (l ++ [x]) = l ++ [y].
Proof.
  rewrite length_app. simpl.
  replace (Nat.pred (length l + 1)) with (length l + 0)%nat by lia.
  rewrite insert_app_r. reflexivity.
Qed.

Lemma PushNewQueue_Returns (r : Z) (q : SubTableType) (st : Queue) :
  PushNewQueue r q st
  = Returns (with_new_queue r q st, length (tasks_ st)).
Proof.
  unfold PushNewQueue, GrowSlots_. simpl.
  unfold vec_back. rewrite last_snoc. simpl.
  rewrite vec_set_in_range by (rewrite length_app; simpl; lia). simpl.
  rewrite vec_set_in_range by (rewrite length_app; simpl; lia). simpl.
  rewrite !insert_last_snoc.
  rewrite length_app. simpl.
  replace (Nat.pred (length (tasks_ st) + 1)) with (length (tasks_ st)) by lia.
  reflexivity.
Qed.

(** ** Violated invariants *)

Lemma find_including_None (received : SubTableType)
    (l : list QuerySubTableLock) (i : nat) :
  Forall (fun e => includes (lock_query_subtable_ e) received = false) l ->
  find_including received l i = None.
Proof.
  intros H. revert i. induction H as [| e l He _ IH]; intros i.
  - reflexivity.
  - simpl. rewrite He. apply IH.
Qed.

(** ** Integrity check and printing on empty heaps *)

Lemma scan_heaps_flag (destruct_id : SubTableIDType)
    (hs : list (list TaskType)) :
  scan_heaps destruct_id hs true = Returns true.
Proof. destruct hs; reflexivity. Qed.

Lemma CheckIntegrity_active_scan (destruct_id : SubTableIDType)
    (tasks : list (list TaskType)) (n i : nat) (flag : bool) :
  (i + n = length tasks)%nat ->
  CheckIntegrity_active destruct_id tasks n i flag
  = scan_heaps destruct_id (drop i tasks) flag.
Proof.
  revert i flag. induction n as [| n IH]; intros i flag Hlen.
  - rewrite drop_ge by lia. reflexivity.
  - destruct (tasks !! i) as [h |] eqn:Eh.
    2: { apply lookup_ge_None in Eh. lia. }
    rewrite (drop_S _ _ _ Eh). simpl.
    destruct flag; [reflexivity |].
    rewrite (proj2 (vec_get_Returns _ _ _) Eh). simpl.
    destruct (heap_top h); [| reflexivity]. simpl.
    apply IH. lia.
Qed.

Lemma CheckIntegrity_checked_out_scan (destruct_id : SubTableIDType)
    (l : list QuerySubTableLock) (flag : bool) :
  CheckIntegrity_checked_out destruct_id l flag
  = scan_heaps destruct_id (map lock_task_ l) flag.
Proof.
  revert flag. induction l as [| e l IH]; intros flag; [reflexivity |].
  simpl. destruct flag; [reflexivity |].
  destruct (heap_top (lock_task_ e)); [| reflexivity]. simpl. apply IH.
Qed.

Lemma scan_heaps_app (destruct_id : SubTableIDType)
    (hs1 hs2 : list (list TaskType)) (flag : bool) :
  scan_heaps destruct_id (hs1 ++ hs2) flag
  = let* f := scan_heaps destruct_id hs1 flag in
    scan_heaps destruct_id hs2 f.
Proof.
  revert flag. induction hs1 as [| h hs1 IH]; intros flag; [reflexivity |].
  simpl. destruct flag.
  - simpl. symmetry. apply scan_heaps_flag.
  - destruct (heap_top h); [| reflexivity]. simpl. apply IH.
Qed.

Lemma CheckIntegrity_scan (destruct_id : SubTableIDType) (st : Queue) :
  lengths_ok st ->
  CheckIntegrity destruct_id st
  = scan_heaps destruct_id (all_heaps st) false.
Proof.
  intros (Ht & _). unfold CheckIntegrity, all_heaps.
  rewrite scan_heaps_app, CheckIntegrity_active_scan by lia.
  rewrite drop_0. destruct (scan_heaps destruct_id (tasks_ st) false);
    [| reflexivity].
  simpl. apply CheckIntegrity_checked_out_scan.
Qed.

(** Without a match before it, an empty heap is reached. *)
Lemma scan_heaps_reaches_empty (destruct_id : SubTableIDType)
    (pre post : list (list TaskType)) :
  Forall (fun h => scan_storage destruct_id h = false) pre ->
  scan_heaps destruct_id (pre ++ [] :: post) false = Faults EmptyTop.
Proof.
  induction 1 as [| h pre Hh _ IH]; [reflexivity |].
  simpl. destruct h as [| t h]; [reflexivity |]. simpl heap_top.
  cbn [outcome_bind]. rewrite Hh. exact IH.
Qed.

(** After a match, no heap is looked at. *)
Lemma scan_heaps_stops_at_match (destruct_id : SubTableIDType)
    (pre post : list (list TaskType)) (h : list TaskType) :
  Forall (fun h => h <> []) pre ->
  scan_storage destruct_id h = true ->
  scan_heaps destruct_id (pre ++ h :: post) false = Returns true.
Proof.
  intros Hpre Hh. induction Hpre as [| h0 pre Hne _ IH].
  - simpl. destruct h as [| t h]; [discriminate |]. simpl heap_top.
    cbn [outcome_bind]. rewrite Hh. apply scan_heaps_flag.
  - simpl. destruct h0 as [| t0 h0]; [congruence |]. simpl heap_top.
    cbn [outcome_bind].
    destruct (scan_storage destruct_id (t0 :: h0)); [| exact IH].
    apply scan_heaps_flag.
Qed.

Lemma scan_heaps_nonempty (destruct_id : SubTableIDType)
    (hs : list (list TaskType)) (flag : bool) :
  Forall (fun h => h <> []) hs ->
  scan_heaps destruct_id hs flag
  = Returns (flag || existsb (scan_storage destruct_id) hs).
Proof.
  intros H. revert flag. induction H as [| h hs Hne _ IH]; intros flag.
  - simpl. rewrite orb_false_r. reflexivity.
  - simpl. destruct flag; [reflexivity |].
    destruct h as [| t h]; [congruence |]. simpl heap_top.
    cbn [outcome_bind]. rewrite IH. reflexivity.
Qed.

Lemma Print_active_nonempty (st : Queue) (n i : nat) :
  lengths_ok st ->
  (i + n = length (query_subtables_ st))%nat ->
  Forall (fun h => h <> []) (drop i (tasks_ st)) ->
  Print_active st n i = Returns (map active_line (drop i (slots st))).
Proof.
  intros Hok. pose proof Hok as (Ht & Ha & Hw).
  revert i. induction n as [| n IH]; intros i Hlen Hne.
  - rewrite drop_ge by (rewrite length_slots by assumption; lia). reflexivity.
  - destruct (query_subtables_ st !! i) as [q |] eqn:Eq.
    2: { apply lookup_ge_None in Eq. lia. }
    destruct (tasks_ st !! i) as [h |] eqn:Eh.
    2: { apply lookup_ge_None in Eh. lia. }
    destruct (assigned_work_ st !! i) as [a |] eqn:Ea.
    2: { apply lookup_ge_None in Ea. lia. }
    destruct (remaining_work_for_query_subtables_ st !! i) as [w |] eqn:Ew.
    2: { apply lookup_ge_None in Ew. lia. }
    rewrite (drop_S _ _ _ Eh) in Hne. apply Forall_cons in Hne as [Hh Hne].
    assert (Hs : slots st !! i
                 = Some {| slot_subtree := q; slot_tasks := h;
                           slot_assigned := a; slot_remaining_work := w |}).
    { unfold slots. rewrite lookup_zip_slots, Eq, Eh, Ea, Ew. reflexivity. }
    rewrite (drop_S _ _ _ Hs). simpl.
    rewrite (proj2 (vec_get_Returns _ _ _) Eq). simpl.
    rewrite (proj2 (vec_get_Returns _ _ _) Eh). simpl.
    rewrite (proj2 (vec_get_Returns _ _ _) Ew). simpl.
    destruct h as [| t h]; [congruence |]. simpl heap_top.
    cbn [outcome_bind]. rewrite IH by (assumption || lia). reflexivity.
Qed.

Lemma Print_checked_out_nonempty (l : list QuerySubTableLock) :
  Forall (fun h => h <> []) (map lock_task_ l) ->
  Print_checked_out l = Returns (map checked_out_line l).
Proof.
  induction l as [| e l IH]; intros H; [reflexivity |].
  simpl in H. apply Forall_cons in H as [He H].
  simpl. destruct (lock_task_ e) as [| t h] eqn:Et; [congruence |].
  simpl heap_top. cbn [outcome_bind]. rewrite IH by assumption.
  unfold checked_out_line. rewrite Et. reflexivity.
Qed.

Lemma Print_active_empty (st : Queue) (n i : nat) :
  lengths_ok st ->
  (i + n = length (query_subtables_ st))%nat ->
  In [] (drop i (tasks_ st)) ->
  Print_active st n i = Faults EmptyTop.
Proof.
  intros (Ht & Ha & Hw).
  revert i. induction n as [| n IH]; intros i Hlen Hin.
  - rewrite drop_ge in Hin by lia. destruct Hin.
  - destruct (query_subtables_ st !! i) as [q |] eqn:Eq.
    2: { apply lookup_ge_None in Eq. lia. }
    destruct (tasks_ st !! i) as [h |] eqn:Eh.
    2: { apply lookup_ge_None in Eh. lia. }
    destruct (remaining_work_for_query_subtables_ st !! i) as [w |] eqn:Ew.
    2: { apply lookup_ge_None in Ew. lia. }
    rewrite (drop_S _ _ _ Eh) in Hin. simpl.
    rewrite (proj2 (vec_get_Returns _ _ _) Eq). simpl.
    rewrite (proj2 (vec_get_Returns _ _ _) Eh). simpl.
    rewrite (proj2 (vec_get_Returns _ _ _) Ew). simpl.
    destruct h as [| t h]; [reflexivity |]. simpl heap_top.
    cbn [outcome_bind].
    destruct Hin as [Habs | Hin]; [discriminate |].
    rewrite IH by (assumption || lia). reflexivity.
Qed.

Lemma Print_checked_out_empty (l : list QuerySubTableLock) :
  In [] (map lock_task_ l) -> Print_checked_out l = Faults EmptyTop.
Proof.
  induction l as [| e l IH]; intros H; [destruct H |].
  simpl. destruct (lock_task_ e) as [| t h] eqn:Et; [reflexivity |].
  simpl heap_top. cbn [outcome_bind].
  destruct H as [H | H]; [simpl in H; congruence |].
  rewrite IH by assumption. reflexivity.
Qed.

Lemma nonempty_or_has_empty {A : Type} (l : list (list A)) :
  Forall (fun h => h <> []) l \/ In [] l.
Proof.
  induction l as [| h l [IH | IH]].
  - left. constructor.
  - destruct h as [| x h].
    + right. left. reflexivity.
    + left. constructor; [discriminate | exact IH].
  - right. right. exact IH.
Qed.

Lemma Print_empty (st : Queue) :
  lengths_ok st -> In [] (all_heaps st) -> Print st = Faults EmptyTop.
Proof.
  intros Hok Hin. unfold Print.
  destruct (nonempty_or_has_empty (tasks_ st)) as [Hne | He].
  - rewrite (Print_active_nonempty st _ 0 Hok) by (rewrite ?drop_0; auto).
    cbn [outcome_bind].
    rewrite Print_checked_out_empty; [reflexivity |].
    unfold all_heaps in Hin. apply in_app_or in Hin as [Hin | Hin];
      [| exact Hin].
    exfalso. rewrite Forall_forall in Hne.
    apply (Hne [] ); [apply list_elem_of_In; exact Hin | reflexivity].
  - rewrite (Print_active_empty st _ 0 Hok) by (rewrite ?drop_0; auto).
    reflexivity.
Qed.

Lemma Print_nonempty (st : Queue) :
  lengths_ok st -> Forall (fun h => h <> []) (all_heaps st) ->
  Print st
  = Returns (map active_line (slots st)
             ++ map checked_out_line (checked_out_query_subtables_ st)).
Proof.
  intros Hok Hne. unfold all_heaps in Hne.
  apply Forall_app in Hne as [Ha Hc]. unfold Print.
  rewrite (Print_active_nonempty st _ 0 Hok) by (rewrite ?drop_0; auto).
  cbn [outcome_bind]. rewrite Print_checked_out_nonempty by exact Hc.
  rewrite drop_0. reflexivity.
Qed.

(** ** Sums over heaps *)

Lemma wrap64_add_l (a b : Z) : wrap64 (wrap64 a + b) = wrap64 (a + b).
Proof. unfold wrap64. apply Zplus_mod_idemp_l. Qed.

Lemma wrap64_sub_l (a b : Z) : wrap64 (wrap64 a - b) = wrap64 (a - b).
Proof. unfold wrap64. apply Zminus_mod_idemp_l. Qed.

Lemma total_tasks_app (hs1 hs2 : list (list TaskType)) :
  total_tasks (hs1 ++ hs2) = total_tasks hs1 + total_tasks hs2.
Proof. induction hs1 as [| h hs1 IH]; simpl; [reflexivity | lia]. Qed.

Lemma total_work_app (hs1 hs2 : list (list TaskType)) :
  total_work (hs1 ++ hs2) = total_work hs1 + total_work hs2.
Proof. induction hs1 as [| h hs1 IH]; simpl; [reflexivity | lia]. Qed.

Lemma total_tasks_Permutation (hs1 hs2 : list (list TaskType)) :
  hs1 ≡ₚ hs2 -> total_tasks hs1 = total_tasks hs2.
Proof. induction 1; simpl; lia. Qed.

Lemma total_work_Permutation (hs1 hs2 : list (list TaskType)) :
  hs1 ≡ₚ hs2 -> total_work hs1 = total_work hs2.
Proof. induction 1; simpl; lia. Qed.

Lemma total_tasks_insert (hs : list (list TaskType)) (i : nat)
    (h h' : list TaskType) :
  hs !! i = Some h ->
  total_tasks (<[i := h']> hs) = total_tasks hs - heap_size h + heap_size h'.
Proof.
  intros Hi. pose proof (lookup_lt_Some _ _ _ Hi) as Hlt.
  assert (Hs : total_tasks hs = total_tasks (take i hs ++ h :: drop (S i) hs))
    by (rewrite take_drop_middle by exact Hi; reflexivity).
  rewrite insert_take_drop by exact Hlt.
  rewrite Hs, !total_tasks_app. simpl. lia.
Qed.

Lemma total_work_insert (hs : list (list TaskType)) (i : nat)
    (h h' : list TaskType) :
  hs !! i = Some h ->
  total_work (<[i := h']> hs) = total_work hs - heap_work h + heap_work h'.
Proof.
  intros Hi. pose proof (lookup_lt_Some _ _ _ Hi) as Hlt.
  assert (Hs : total_work hs = total_work (take i hs ++ h :: drop (S i) hs))
    by (rewrite take_drop_middle by exact Hi; reflexivity).
  rewrite insert_take_drop by exact Hlt.
  rewrite Hs, !total_work_app. simpl. lia.
Qed.

Lemma length_heap_push (t : TaskType) (h : list TaskType) :
  length (heap_push t h) = S (length h).
Proof.
  induction h as [| u h IH]; simpl; [reflexivity |].
  destruct (priority u <? priority t); simpl; [reflexivity | lia].
Qed.

Lemma heap_size_push (t : TaskType) (h : list TaskType) :
  heap_size (heap_push t h) = heap_size h + 1.
Proof. unfold heap_size. rewrite length_heap_push. lia. Qed.

Lemma heap_work_push (t : TaskType) (h : list TaskType) :
  heap_work (heap_push t h) = work t + heap_work h.
Proof.
  induction h as [| u h IH]; simpl; [reflexivity |].
  destruct (priority u <? priority t); simpl; [reflexivity | lia].
Qed.

Lemma heap_push_Permutation (t : TaskType) (h : list TaskType) :
  heap_push t h ≡ₚ t :: h.
Proof.
  induction h as [| u h IH]; simpl; [reflexivity |].
  destruct (priority u <? priority t); [reflexivity |].
  rewrite IH. apply perm_swap.
Qed.

Lemma heap_ordered_push (t : TaskType) (h : list TaskType) :
  heap_ordered h -> heap_ordered (heap_push t h).
Proof.
  induction h as [| u h IH]; intros Hord.
  - simpl. split; [constructor | exact I].
  - simpl. destruct (priority u <? priority t) eqn:E.
    + apply Z.ltb_lt in E. destruct Hord as [Hall Hord].
      split; [| split; assumption].
      constructor; [lia |].
      eapply Forall_impl; [exact Hall |]. simpl. intros v Hv. lia.
    + apply Z.ltb_ge in E. destruct Hord as [Hall Hord].
      split; [| apply IH; exact Hord].
      rewrite heap_push_Permutation. constructor; assumption.
Qed.

(** The accounting follows the heaps: a change of the heaps by [dn] tasks
    and [dw] work, and of the counters by as much, keeps it. *)
Lemma accounting_shift (st st' : Queue) (dn dw : Z) :
  accounting st ->
  total_tasks (all_heaps st') = total_tasks (all_heaps st) + dn ->
  total_work (all_heaps st') = total_work (all_heaps st) + dw ->
  num_remaining_tasks_ st' = num_remaining_tasks_ st + dn ->
  remaining_local_computation_ st'
  = wrap64 (remaining_local_computation_ st + dw) ->
  accounting st'.
Proof.
  intros [Hn Hl] Htn Htw Hn' Hl'. split.
  - lia.
  - rewrite Hl', Hl, Htw. apply wrap64_add_l.
Qed.

Lemma accounting_same (st st' : Queue) :
  accounting st ->
  total_tasks (all_heaps st') = total_tasks (all_heaps st) ->
  total_work (all_heaps st') = total_work (all_heaps st) ->
  num_remaining_tasks_ st' = num_remaining_tasks_ st ->
  remaining_local_computation_ st' = remaining_local_computation_ st ->
  accounting st'.
Proof.
  intros [Hn Hl] Htn Htw Hn' Hl'. split; congruence.
Qed.

(** ** The operations keep the vectors aligned and the accounting *)

Lemma PushTask_in_range (world : communicator) (metric_in : MetricType)
    (i : nat) (reference q : SubTableType) (h : list TaskType) (st : Queue) :
  query_subtables_ st !! i = Some q ->
  tasks_ st !! i = Some h ->
  PushTask world metric_in i reference st
  = Returns (pushed i (make_task world metric_in q reference) h st).
Proof.
  intros Hq Hh. unfold PushTask.
  rewrite (proj2 (vec_get_Returns _ _ _) Hq). cbn [outcome_bind].
  rewrite (proj2 (vec_get_Returns _ _ _) Hh). cbn [outcome_bind].
  rewrite vec_set_in_range by (eapply lookup_lt_Some, Hh). reflexivity.
Qed.

Lemma PushTask_Returns (world : communicator) (metric_in : MetricType)
    (i : nat) (reference : SubTableType) (st st' : Queue) :
  PushTask world metric_in i reference st = Returns st' ->
  exists q h,
    query_subtables_ st !! i = Some q
    /\ tasks_ st !! i = Some h
    /\ st' = pushed i (make_task world metric_in q reference) h st.
Proof.
  intros H. unfold PushTask in H.
  destruct (vec_get (query_subtables_ st) i) as [q |] eqn:Eq;
    [| discriminate].
  cbn [outcome_bind] in H.
  destruct (vec_get (tasks_ st) i) as [h |] eqn:Eh; [| discriminate].
  apply vec_get_Returns in Eq, Eh.
  exists q, h. split; [exact Eq |]. split; [exact Eh |].
  cbn [outcome_bind] in H.
  rewrite vec_set_in_range in H by (eapply lookup_lt_Some, Eh).
  cbn [outcome_bind] in H. injection H as <-. reflexivity.
Qed.

Lemma lengths_ok_pushed (i : nat) (t : TaskType) (h : list TaskType)
    (st : Queue) :
  lengths_ok st -> lengths_ok (pushed i t h st).
Proof.
  unfold lengths_ok, pushed. simpl. rewrite length_insert. auto.
Qed.

Lemma accounting_pushed (i : nat) (t : TaskType) (h : list TaskType)
    (st : Queue) :
  tasks_ st !! i = Some h -> accounting st -> accounting (pushed i t h st).
Proof.
  intros Hh Hacc. apply (accounting_shift st _ 1 (work t) Hacc).
  - unfold all_heaps. simpl. rewrite !total_tasks_app.
    rewrite (total_tasks_insert _ _ h) by exact Hh.
    rewrite heap_size_push. lia.
  - unfold all_heaps. simpl. rewrite !total_work_app.
    rewrite (total_work_insert _ _ h) by exact Hh.
    rewrite heap_work_push. lia.
  - reflexivity.
  - reflexivity.
Qed.

Lemma accounting_popped (s : nat) (t : TaskType) (h : list TaskType)
    (st : Queue) :
  tasks_ st !! s = Some (t :: h) -> accounting st ->
  accounting (popped s t h st).
Proof.
  intros Hh Hacc. apply (accounting_shift st _ (-1) (- work t) Hacc).
  - unfold all_heaps. simpl. rewrite !total_tasks_app.
    rewrite (total_tasks_insert _ _ (t :: h)) by exact Hh.
    unfold heap_size. simpl length. lia.
  - unfold all_heaps. simpl. rewrite !total_work_app.
    rewrite (total_work_insert _ _ (t :: h)) by exact Hh.
    simpl. lia.
  - simpl. lia.
  - reflexivity.
Qed.

Lemma accounting_evicted (s : nat) (st : Queue) :
  tasks_ st !! s = Some [] -> accounting st -> accounting (evicted s st).
Proof.
  intros Hh Hacc. apply (accounting_same st _ Hacc).
  - unfold all_heaps. simpl. rewrite !total_tasks_app. f_equal.
    rewrite <- (total_tasks_Permutation _ _
                  (swap_remove_Permutation _ _ _ Hh)).
    reflexivity.
  - unfold all_heaps. simpl. rewrite !total_work_app. f_equal.
    rewrite <- (total_work_Permutation _ _
                  (swap_remove_Permutation _ _ _ Hh)).
    reflexivity.
  - reflexivity.
  - reflexivity.
Qed.

Lemma accounting_checked_out_to (s : nat) (e : QuerySubTableLock)
    (st : Queue) :
  tasks_ st !! s = Some (lock_task_ e) -> accounting st ->
  accounting (checked_out_to s e st).
Proof.
  intros Hh Hacc. apply (accounting_same st _ Hacc).
  - unfold all_heaps. simpl. rewrite !total_tasks_app. simpl.
    rewrite <- (total_tasks_Permutation _ _
                  (swap_remove_Permutation _ _ _ Hh)).
    simpl. lia.
  - unfold all_heaps. simpl. rewrite !total_work_app. simpl.
    rewrite <- (total_work_Permutation _ _
                  (swap_remove_Permutation _ _ _ Hh)).
    simpl. lia.
  - reflexivity.
  - reflexivity.
Qed.

Lemma lengths_ok_checked_out_to (s : nat) (e : QuerySubTableLock)
    (st : Queue) :
  lengths_ok st -> (0 < length (query_subtables_ st))%nat ->
  lengths_ok (checked_out_to s e st).
Proof.
  intros Hok Hpos. apply (lengths_ok_evicted s st Hok Hpos).
Qed.

Lemma LockQuerySubTable_Returns (s : nat) (r : Z) (st st' : Queue)
    (it : nat) :
  lengths_ok st ->
  LockQuerySubTable s r st = Returns (st', it) ->
  exists a q w h,
    assigned_work_ st !! s = Some a
    /\ query_subtables_ st !! s = Some q
    /\ remaining_work_for_query_subtables_ st !! s = Some w
    /\ tasks_ st !! s = Some h
    /\ it = 0%nat
    /\ st' = checked_out_to s
               {| lock_assigned_work_ := a; locked_mpi_rank_ := r;
                  lock_query_subtable_ := q;
                  lock_remaining_work_for_query_subtable_ := w;
                  lock_task_ := h |} st.
Proof.
  intros Hok H. unfold LockQuerySubTable, CheckOut_ in H.
  destruct (vec_get (assigned_work_ st) s) as [a |] eqn:Ea; [| discriminate].
  cbn [outcome_bind] in H.
  destruct (vec_get (query_subtables_ st) s) as [q |] eqn:Eq;
    [| discriminate].
  cbn [outcome_bind] in H.
  destruct (vec_get (remaining_work_for_query_subtables_ st) s)
    as [w |] eqn:Ew; [| discriminate].
  cbn [outcome_bind] in H.
  destruct (vec_get (tasks_ st) s) as [h |] eqn:Eh; [| discriminate].
  cbn [outcome_bind] in H.
  apply vec_get_Returns in Ea, Eq, Ew, Eh.
  rewrite Evict_in_range in H
    by (try exact Hok; eapply lookup_lt_Some, Eq).
  cbn [outcome_bind] in H. injection H as <- <-.
  exists a, q, w, h. repeat (split; [assumption |]). split; reflexivity.
Qed.

Lemma LockQuerySubTable_well_formed (s : nat) (r : Z) (st st' : Queue)
    (it : nat) :
  well_formed st ->
  LockQuerySubTable s r st = Returns (st', it) ->
  well_formed st'.
Proof.
  intros [Hok Hacc] H.
  apply LockQuerySubTable_Returns in H
    as (a & q & w & h & Ha & Hq & Hw & Hh & _ & ->); [| exact Hok].
  split.
  - apply lengths_ok_checked_out_to; [exact Hok |].
    apply lookup_lt_Some in Hq. lia.
  - apply accounting_checked_out_to; [exact Hh | exact Hacc].
Qed.

Lemma lookups_of_slot (s : nat) (st : Queue) :
  lengths_ok st -> (s < length (tasks_ st))%nat ->
  exists a q w,
    assigned_work_ st !! s = Some a
    /\ query_subtables_ st !! s = Some q
    /\ remaining_work_for_query_subtables_ st !! s = Some w.
Proof.
  intros (Ht & Ha & Hw) Hs.
  destruct (lookup_lt_is_Some_2 (assigned_work_ st) s) as [a Ea]; [lia |].
  destruct (lookup_lt_is_Some_2 (query_subtables_ st) s) as [q Eq]; [lia |].
  destruct (lookup_lt_is_Some_2 (remaining_work_for_query_subtables_ st) s)
    as [w Ew]; [lia |].
  exists a, q, w. auto.
Qed.

Lemma flush_queued_well_formed (q : SubTableType) (st : Queue) :
  well_formed st -> well_formed (flush_queued q st).
Proof. intros [Hok Hacc]. split; [exact Hok | exact Hacc]. Qed.

Lemma evicted_well_formed (s : nat) (st : Queue) :
  well_formed st -> tasks_ st !! s = Some [] -> well_formed (evicted s st).
Proof.
  intros [Hok Hacc] Hh. split.
  - apply lengths_ok_evicted; [exact Hok |].
    destruct Hok as (Ht & _). apply lookup_lt_Some in Hh. lia.
  - apply accounting_evicted; assumption.
Qed.

Lemma popped_well_formed (s : nat) (t : TaskType) (h : list TaskType)
    (st : Queue) :
  well_formed st -> tasks_ st !! s = Some (t :: h) ->
  well_formed (popped s t h st).
Proof.
  intros [Hok Hacc] Hh. split.
  - apply lengths_ok_popped. exact Hok.
  - apply accounting_popped; assumption.
Qed.

Lemma DequeueTask_slot_well_formed (world : communicator) (s : nat)
    (task_out task : TaskType * Z) (want : bool) (st st' : Queue)
    (it : option nat) (b : bool) :
  well_formed st ->
  DequeueTask_slot world s task_out want st = Returns (st', task, it, b) ->
  well_formed st'.
Proof.
  intros Hwf H. pose proof Hwf as [Hok Hacc].
  destruct (tasks_ st !! s) as [h |] eqn:Eh.
  2: { unfold DequeueTask_slot, vec_get in H. rewrite Eh in H. discriminate. }
  destruct (lookups_of_slot s st Hok) as (a & q & w & Ha & Hq & Hw).
  { eapply lookup_lt_Some, Eh. }
  destruct h as [| t h].
  - rewrite (DequeueTask_slot_on_empty_heap world s task_out want st q w)
      in H by assumption.
    destruct (table_rank q =? rank world).
    + destruct (w =? 0); injection H as <- _ _ _.
      * apply evicted_well_formed; assumption.
      * exact Hwf.
    + injection H as <- _ _ _.
      apply evicted_well_formed.
      * apply flush_queued_well_formed. exact Hwf.
      * exact Eh.
  - pose proof (popped_well_formed s t h st Hwf Eh) as Hwf1.
    destruct want.
    + rewrite (DequeueTask_slot_checkout world s task_out st t h a q w)
        in H by assumption.
      injection H as <- _ _ _.
      destruct Hwf1 as [Hok1 Hacc1]. split.
      * apply lengths_ok_checked_out_to; [exact Hok1 |].
        simpl. apply lookup_lt_Some in Hq. lia.
      * apply accounting_checked_out_to; [| exact Hacc1].
        simpl. apply list_lookup_insert_eq. eapply lookup_lt_Some, Eh.
    + rewrite (DequeueTask_slot_pop world s task_out st t h Eh) in H.
      injection H as <- _ _ _. exact Hwf1.
Qed.

Lemma PushTask_well_formed (world : communicator) (metric_in : MetricType)
    (i : nat) (reference : SubTableType) (st st' : Queue) :
  well_formed st ->
  PushTask world metric_in i reference st = Returns st' ->
  well_formed st'.
Proof.
  intros [Hok Hacc] H.
  apply PushTask_Returns in H as (q & h & Hq & Hh & ->). split.
  - apply lengths_ok_pushed. exact Hok.
  - apply accounting_pushed; assumption.
Qed.

Lemma pop_well_formed (i : nat) (st st' : Queue) :
  well_formed st -> pop i st = Returns st' -> well_formed st'.
Proof.
  intros Hwf H. unfold pop in H.
  destruct (vec_get (tasks_ st) i) as [h |] eqn:Eh; [| discriminate].
  apply vec_get_Returns in Eh. cbn [outcome_bind] in H.
  destruct h as [| t h]; [discriminate |]. simpl in H.
  rewrite vec_set_in_range in H by (eapply lookup_lt_Some, Eh).
  cbn [outcome_bind] in H. injection H as <-.
  destruct (popped_well_formed i t h st Hwf Eh) as [Hok1 Hacc1].
  split; [exact Hok1 | exact Hacc1].
Qed.

Lemma total_tasks_snoc_empty (hs : list (list TaskType)) :
  total_tasks (hs ++ [[]]) = total_tasks hs.
Proof. rewrite total_tasks_app. simpl. unfold heap_size. simpl. lia. Qed.

Lemma total_work_snoc_empty (hs : list (list TaskType)) :
  total_work (hs ++ [[]]) = total_work hs.
Proof. rewrite total_work_app. simpl. lia. Qed.

Lemma PushNewQueue_well_formed (r : Z) (q : SubTableType) (st st' : Queue)
    (i : nat) :
  well_formed st -> PushNewQueue r q st = Returns (st', i) ->
  well_formed st'.
Proof.
  intros [(Ht & Ha & Hw) Hacc] H. rewrite PushNewQueue_Returns in H.
  injection H as <- _. split.
  - unfold lengths_ok. simpl. rewrite !length_app. simpl. lia.
  - apply (accounting_same st _ Hacc); try reflexivity.
    + unfold all_heaps. simpl.
      rewrite (total_tasks_app (tasks_ st ++ [[]])), total_tasks_snoc_empty.
      symmetry. apply total_tasks_app.
    + unfold all_heaps. simpl.
      rewrite (total_work_app (tasks_ st ++ [[]])), total_work_snoc_empty.
      symmetry. apply total_work_app.
Qed.

Lemma delete_Permutation {A : Type} (l : list A) (i : nat) (x : A) :
  l !! i = Some x -> x :: delete i l ≡ₚ l.
Proof.
  intros H. rewrite <- (take_drop_middle l i x H) at 2.
  rewrite delete_take_drop. apply Permutation_middle.
Qed.

Lemma returned_lengths_ok (it : nat) (e : QuerySubTableLock) (st : Queue) :
  lengths_ok st -> lengths_ok (returned it e st).
Proof.
  intros (Ht & Ha & Hw). unfold lengths_ok, returned, Return_. simpl.
  rewrite !length_app. simpl. lia.
Qed.

Lemma returned_accounting (it : nat) (e e0 : QuerySubTableLock)
    (st : Queue) :
  checked_out_query_subtables_ st !! it = Some e0 ->
  lock_task_ e = lock_task_ e0 ->
  accounting st -> accounting (returned it e st).
Proof.
  intros He Heq Hacc.
  assert (Hperm : lock_task_ e :: map lock_task_
                    (delete it (checked_out_query_subtables_ st))
                  ≡ₚ map lock_task_ (checked_out_query_subtables_ st)).
  { rewrite Heq.
    change (map lock_task_ (e0 :: delete it (checked_out_query_subtables_ st))
            ≡ₚ map lock_task_ (checked_out_query_subtables_ st)).
    apply Permutation_map, delete_Permutation, He. }
  apply (accounting_same st _ Hacc); try reflexivity.
  - unfold all_heaps, returned, Return_. simpl.
    rewrite !total_tasks_app.
    rewrite <- (total_tasks_Permutation _ _ Hperm). simpl. lia.
  - unfold all_heaps, returned, Return_. simpl.
    rewrite !total_work_app.
    rewrite <- (total_work_Permutation _ _ Hperm). simpl. lia.
Qed.

Lemma ReturnQuerySubTable_well_formed (it : nat) (st st' : Queue) :
  well_formed st -> ReturnQuerySubTable it st = Returns st' ->
  well_formed st'.
Proof.
  intros [Hok Hacc] H. unfold ReturnQuerySubTable in H.
  destruct (checked_out_query_subtables_ st !! it) as [e |] eqn:Ee;
    [| discriminate].
  injection H as <-. split.
  - apply (returned_lengths_ok it e st Hok).
  - apply (returned_accounting it e e st Ee eq_refl Hacc).
Qed.

Lemma find_including_Some (received : SubTableType)
    (l : list QuerySubTableLock) (k i : nat) (e : QuerySubTableLock) :
  find_including received l k = Some (i, e) ->
  (k <= i)%nat /\ l !! (i - k)%nat = Some e
  /\ includes (lock_query_subtable_ e) received = true.
Proof.
  revert k. induction l as [| e0 l IH]; intros k H; [discriminate |].
  simpl in H. destruct (includes (lock_query_subtable_ e0) received) eqn:E.
  - injection H as <- <-. rewrite Nat.sub_diag. auto.
  - apply IH in H as (Hle & Hl & Hin). split; [lia |].
    replace (i - k)%nat with (S (i - S k)) by lia. auto.
Qed.

Lemma map_lock_task_insert (l : list QuerySubTableLock) (i : nat)
    (e e0 : QuerySubTableLock) :
  l !! i = Some e0 -> lock_task_ e = lock_task_ e0 ->
  map lock_task_ (<[i := e]> l) = map lock_task_ l.
Proof.
  intros Hi Heq.
  change (lock_task_ <$> <[i := e]> l = lock_task_ <$> l).
  rewrite list_fmap_insert. apply list_insert_id.
  rewrite list_lookup_fmap, Hi, Heq. reflexivity.
Qed.

Lemma Synchronize_cases (received : SubTableType) (st : Queue) :
  Synchronize received st = Returns st
  \/ exists i e,
       checked_out_query_subtables_ st !! i = Some e
       /\ includes (lock_query_subtable_ e) received = true
       /\ let e' := set_lock_query_subtable_
                      (Copy (lock_query_subtable_ e) received) e in
          (subtable_id received = subtable_id (lock_query_subtable_ e')
           /\ Synchronize received st = Returns (returned i e' st))
          \/ Synchronize received st
             = Returns (set_checked_out_query_subtables_
                          (<[i := e']> (checked_out_query_subtables_ st)) st).
Proof.
  unfold Synchronize.
  destruct (find_including received (checked_out_query_subtables_ st) 0)
    as [[i e] |] eqn:Ef; [| left; reflexivity].
  right. exists i, e.
  apply find_including_Some in Ef as (_ & He & Hin).
  rewrite Nat.sub_0_r in He. split; [exact He |]. split; [exact Hin |].
  cbv zeta.
  destruct (subtable_id_eqb (subtable_id received)
              (subtable_id (Copy (lock_query_subtable_ e) received))) eqn:Eid.
  - left. split; [| reflexivity].
    unfold subtable_id_eqb in Eid. simpl.
    destruct (subtable_id received) as [[a0 a1] a2].
    destruct (subtable_id (Copy (lock_query_subtable_ e) received))
      as [[b0 b1] b2].
    apply andb_prop in Eid as [Eid E2]. apply andb_prop in Eid as [E0 E1].
    apply Z.eqb_eq in E0, E1, E2. congruence.
  - right. reflexivity.
Qed.

Lemma Synchronize_well_formed (received : SubTableType) (st st' : Queue) :
  well_formed st -> Synchronize received st = Returns st' ->
  well_formed st'.
Proof.
  intros [Hok Hacc] H.
  destruct (Synchronize_cases received st)
    as [Hs | (i & e & He & _ & [[_ Hs] | Hs])];
    rewrite Hs in H; injection H as <-.
  - split; assumption.
  - split.
    + apply returned_lengths_ok. exact Hok.
    + apply (returned_accounting i _ e st He eq_refl Hacc).
  - split; [exact Hok |].
    apply (accounting_same st _ Hacc); try reflexivity.
    + unfold all_heaps. simpl.
      erewrite map_lock_task_insert; [reflexivity | exact He | reflexivity].
    + unfold all_heaps. simpl.
      erewrite map_lock_task_insert; [reflexivity | exact He | reflexivity].
Qed.

Lemma push_completed_computation_Returns (rc qty : Z) (st : Queue) :
  lengths_ok st ->
  push_completed_computation rc qty st
  = Returns (set_remaining_work_for_query_subtables_
               (map (fun w => wrap64 (w - rc))
                  (remaining_work_for_query_subtables_ st))
               (exchange_call (PushCompletedComputation qty)
                  (set_remaining_global_computation_
                     (wrap64 (remaining_global_computation_ st - qty)) st))).
Proof.
  intros (Ht & Ha & Hw). unfold push_completed_computation. simpl.
  rewrite <- Hw, subtract_remaining_work_all. reflexivity.
Qed.

Lemma push_completed_computation_well_formed (rc qty : Z)
    (st st' : Queue) :
  well_formed st -> push_completed_computation rc qty st = Returns st' ->
  well_formed st'.
Proof.
  intros [Hok Hacc] H.
  rewrite push_completed_computation_Returns in H by exact Hok.
  injection H as <-. split.
  - destruct Hok as (Ht & Ha & Hw). unfold lengths_ok. simpl.
    rewrite length_map. auto.
  - apply (accounting_same st _ Hacc); reflexivity.
Qed.

Lemma push_completed_computation_lock_well_formed (rc qty : Z) (it : nat)
    (st st' : Queue) :
  well_formed st ->
  push_completed_computation_lock rc qty it st = Returns st' ->
  well_formed st'.
Proof.
  intros [Hok Hacc] H. unfold push_completed_computation_lock in H.
  simpl in H.
  destruct (checked_out_query_subtables_ st !! it) as [e |] eqn:Ee;
    [| discriminate].
  injection H as <-. split; [exact Hok |].
  apply (accounting_same st _ Hacc); try reflexivity.
  - unfold all_heaps. simpl.
    erewrite map_lock_task_insert; [reflexivity | exact Ee | reflexivity].
  - unfold all_heaps. simpl.
    erewrite map_lock_task_insert; [reflexivity | exact Ee | reflexivity].
Qed.

Lemma total_tasks_empty_heaps {A : Type} (l : list A) :
  total_tasks (map (fun _ => []) l) = 0.
Proof. induction l as [| x l IH]; simpl; [reflexivity |]. rewrite IH. reflexivity. Qed.

Lemma total_work_empty_heaps {A : Type} (l : list A) :
  total_work (map (fun _ => []) l) = 0.
Proof. induction l as [| x l IH]; simpl; [reflexivity |]. rewrite IH. reflexivity. Qed.

Lemma Init_well_formed (frontier : list SubTableType)
    (query_n_entries reference_n_entries : list Z) (num_threads_in : Z)
    (st : Queue) :
  Init frontier query_n_entries reference_n_entries num_threads_in
    DistributedDualtreeTaskQueue = Returns st ->
  well_formed st.
Proof.
  intros H. injection H as <-. split.
  - unfold lengths_ok. simpl. rewrite !length_map. auto.
  - split.
    + unfold all_heaps. simpl. rewrite app_nil_r.
      rewrite total_tasks_empty_heaps. reflexivity.
    + unfold all_heaps. simpl. rewrite app_nil_r.
      rewrite total_work_empty_heaps. reflexivity.
Qed.

Lemma exchange_call_well_formed (c : ExchangeCall) (st : Queue) :
  well_formed st -> well_formed (exchange_call c st).
Proof. intros [Hok Hacc]. split; [exact Hok | exact Hacc]. Qed.

Lemma set_assigned_work_well_formed
    (aw : list (option DisjointIntIntervals)) (st : Queue) :
  length aw = length (assigned_work_ st) ->
  well_formed st -> well_formed (set_assigned_work_ aw st).
Proof.
  intros Hlen [(Ht & Ha & Hw) Hacc]. split.
  - unfold lengths_ok. simpl. repeat split; congruence.
  - exact Hacc.
Qed.

Lemma Insert_false (g : interval) (a : list interval) :
  existsb (interval_overlaps g) a = true -> Insert g a = (false, a).
Proof. intros H. unfold Insert. rewrite H. reflexivity. Qed.

Lemma Insert_true (g : interval) (a : list interval) :
  existsb (interval_overlaps g) a = false -> Insert g a = (true, a ++ [g]).
Proof. intros H. unfold Insert. rewrite H. reflexivity. Qed.

Lemma GenerateTasks_active_well_formed (world : communicator)
    (metric_in : MetricType) (grid : interval) (reference : SubTableType)
    (cache_id : Z) (n j : nat) (st st' : Queue) :
  well_formed st ->
  GenerateTasks_active world metric_in grid reference cache_id n j st
  = Returns st' ->
  well_formed st'.
Proof.
  revert j st. induction n as [| n IH]; intros j st Hwf H.
  - injection H as <-. exact Hwf.
  - simpl in H.
    destruct (vec_get (query_subtables_ st) j) as [q |] eqn:Eq;
      [| discriminate].
    cbn [outcome_bind] in H.
    destruct (table_rank q =? rank world).
    2: { cbn [outcome_bind] in H. eapply IH; eassumption. }
    destruct (vec_get (assigned_work_ st) j) as [[a |] |] eqn:Ea;
      try discriminate.
    apply vec_get_Returns in Ea. cbn [outcome_bind] in H.
    destruct (Insert grid a) as [[|] a'].
    2: { cbn [outcome_bind] in H. eapply IH; eassumption. }
    rewrite vec_set_in_range in H by (eapply lookup_lt_Some, Ea).
    cbn [outcome_bind] in H.
    destruct (PushTask world metric_in j reference
                (set_assigned_work_ (<[j := Some a']> (assigned_work_ st)) st))
      as [st1 |] eqn:Ep; [| discriminate].
    cbn [outcome_bind] in H.
    eapply IH; [| exact H].
    apply exchange_call_well_formed.
    eapply PushTask_well_formed; [| exact Ep].
    apply set_assigned_work_well_formed; [apply length_insert | exact Hwf].
Qed.

Lemma lock_pushed_well_formed (world : communicator)
    (metric_in : MetricType) (reference : SubTableType) (cache_id : Z)
    (k : nat) (e e0 : QuerySubTableLock) (st : Queue) :
  checked_out_query_subtables_ st !! k = Some e0 ->
  lock_task_ e = lock_task_ e0 ->
  well_formed st ->
  well_formed
    (let '(e1, st1) := PushTask_ world metric_in reference e st in
     exchange_call (LockCache cache_id 1)
       (set_checked_out_query_subtables_
          (<[k := e1]> (checked_out_query_subtables_ st1)) st1)).
Proof.
  intros He Heq [Hok Hacc]. unfold PushTask_. split; [exact Hok |].
  set (t := {| query_subtable := lock_query_subtable_ e;
               reference_subtable := reference;
               priority := task_priority world metric_in
                             (lock_query_subtable_ e) reference |}).
  assert (Hl : map lock_task_ (checked_out_query_subtables_ st) !! k
               = Some (lock_task_ e0)).
  { change (map lock_task_ (checked_out_query_subtables_ st))
      with (lock_task_ <$> checked_out_query_subtables_ st).
    rewrite list_lookup_fmap, He. reflexivity. }
  apply (accounting_shift st _ 1 (work t) Hacc).
  - unfold all_heaps. simpl. rewrite !total_tasks_app.
    change (map lock_task_ (<[k := ?x]> ?l))
      with (lock_task_ <$> <[k := x]> l).
    rewrite list_fmap_insert. simpl.
    rewrite (total_tasks_insert _ _ (lock_task_ e0)) by exact Hl.
    rewrite heap_size_push, Heq. fold t.
    change (lock_task_ <$> checked_out_query_subtables_ st)
      with (map lock_task_ (checked_out_query_subtables_ st)).
    lia.
  - unfold all_heaps. simpl. rewrite !total_work_app.
    change (map lock_task_ (<[k := ?x]> ?l))
      with (lock_task_ <$> <[k := x]> l).
    rewrite list_fmap_insert. simpl.
    rewrite (total_work_insert _ _ (lock_task_ e0)) by exact Hl.
    rewrite heap_work_push, Heq. fold t.
    change (lock_task_ <$> checked_out_query_subtables_ st)
      with (map lock_task_ (checked_out_query_subtables_ st)).
    lia.
  - reflexivity.
  - reflexivity.
Qed.

Lemma Insert__Returns (g : interval) (e e' : QuerySubTableLock) (ok : bool) :
  Insert_ g e = Returns (ok, e') ->
  exists a,
    lock_assigned_work_ e = Some a
    /\ ok = fst (Insert g a)
    /\ lock_assigned_work_ e' = Some (snd (Insert g a))
    /\ locked_mpi_rank_ e' = locked_mpi_rank_ e
    /\ lock_query_subtable_ e' = lock_query_subtable_ e
    /\ lock_remaining_work_for_query_subtable_ e'
       = lock_remaining_work_for_query_subtable_ e
    /\ lock_task_ e' = lock_task_ e.
Proof.
  unfold Insert_. destruct (lock_assigned_work_ e) as [a |]; [| discriminate].
  destruct (Insert g a) as [ok' a'] eqn:Ei. intros H. injection H as <- <-.
  exists a. rewrite Ei. simpl. repeat split; reflexivity.
Qed.

Lemma GenerateTasks_checked_out_well_formed (world : communicator)
    (metric_in : MetricType) (grid : interval) (reference : SubTableType)
    (cache_id : Z) (n k : nat) (st st' : Queue) :
  well_formed st ->
  GenerateTasks_checked_out world metric_in grid reference cache_id n k st
  = Returns st' ->
  well_formed st'.
Proof.
  revert k st. induction n as [| n IH]; intros k st Hwf H.
  - injection H as <-. exact Hwf.
  - simpl in H.
    destruct (vec_get (checked_out_query_subtables_ st) k) as [e |] eqn:Ee;
      [| discriminate].
    apply vec_get_Returns in Ee. cbn [outcome_bind] in H.
    destruct (Insert_ grid e) as [[ok e'] |] eqn:Ei; [| discriminate].
    cbn [outcome_bind] in H.
    apply Insert__Returns in Ei as (a & _ & _ & _ & _ & _ & _ & Ht).
    destruct ok.
    + eapply IH; [| exact H].
      apply (lock_pushed_well_formed world metric_in reference cache_id
               k e' e st Ee Ht Hwf).
    + eapply IH; eassumption.
Qed.

Lemma GenerateTasks_well_formed (world : communicator)
    (metric_in : MetricType) (ids : list (Z * Z * Z * Z)) (st st' : Queue) :
  well_formed st ->
  GenerateTasks world metric_in ids st = Returns st' ->
  well_formed st'.
Proof.
  revert st. induction ids as [| received ids IH]; intros st Hwf H.
  - injection H as <-. exact Hwf.
  - simpl in H. unfold GenerateTasks_one in H.
    destruct (GenerateTasks_active world metric_in (reference_grid received)
                (frontier_reference_subtable received) (snd received)
                (length (query_subtables_ st)) 0 st) as [st1 |] eqn:E1;
      [| discriminate].
    cbn [outcome_bind] in H.
    destruct (GenerateTasks_checked_out world metric_in
                (reference_grid received)
                (frontier_reference_subtable received) (snd received)
                (length (checked_out_query_subtables_ st1)) 0 st1)
      as [st2 |] eqn:E2; [| discriminate].
    cbn [outcome_bind] in H.
    eapply IH; [| exact H].
    eapply GenerateTasks_checked_out_well_formed; [| exact E2].
    eapply GenerateTasks_active_well_formed; [| exact E1]. exact Hwf.
Qed.

(** ** Splitting a query subtable *)

Lemma Queue_eq (st1 st2 : Queue) :
  assigned_work_ st1 = assigned_work_ st2 ->
  checked_out_query_subtables_ st1 = checked_out_query_subtables_ st2 ->
  num_exported_query_subtables_ st1 = num_exported_query_subtables_ st2 ->
  num_imported_query_subtables_ st1 = num_imported_query_subtables_ st2 ->
  num_remaining_tasks_ st1 = num_remaining_tasks_ st2 ->
  num_threads_ st1 = num_threads_ st2 ->
  query_subtables_ st1 = query_subtables_ st2 ->
  remaining_work_for_query_subtables_ st1
  = remaining_work_for_query_subtables_ st2 ->
  table_exchange_ st1 = table_exchange_ st2 ->
  tasks_ st1 = tasks_ st2 ->
  remaining_global_computation_ st1 = remaining_global_computation_ st2 ->
  remaining_local_computation_ st1 = remaining_local_computation_ st2 ->
  st1 = st2.
Proof.
  destruct st1, st2. simpl. intros. subst. reflexivity.
Qed.

Lemma split_drain_Returns (world : communicator) (i : nat)
    (h : list TaskType) (fuel : nat) (prev : list TaskType) (st : Queue) :
  tasks_ st !! i = Some h ->
  (length h <= fuel)%nat ->
  split_drain fuel world i prev st = Returns (drained i h st, prev ++ h).
Proof.
  revert fuel prev st. induction h as [| t h IH]; intros fuel prev st Hh Hfuel.
  - destruct fuel; simpl; rewrite (proj2 (vec_get_Returns _ _ _) Hh);
      cbn [outcome_bind]; simpl; rewrite app_nil_r; do 2 f_equal;
      apply Queue_eq; simpl; try reflexivity;
      try (symmetry; apply list_insert_id; exact Hh);
      unfold heap_size; simpl; lia.
  - destruct fuel as [| fuel]; [simpl in Hfuel; lia |].
    simpl. rewrite (proj2 (vec_get_Returns _ _ _) Hh). cbn [outcome_bind].
    change (0 <? heap_size (t :: h)) with true. cbv iota.
    rewrite (DequeueTask_slot_pop world i (new_TaskType, 0) st t h Hh).
    cbn [outcome_bind fst].
    rewrite (IH fuel (prev ++ [t]) (popped i t h st)).
    + rewrite <- app_assoc. simpl. do 2 f_equal.
      apply Queue_eq; simpl; try reflexivity.
      * unfold heap_size. simpl length. lia.
      * apply list_insert_insert_eq.
    + simpl. apply list_lookup_insert_eq. eapply lookup_lt_Some, Hh.
    + simpl in Hfuel. lia.
Qed.

Lemma split_repush_Returns (world : communicator) (metric_in : MetricType)
    (i : nat) (ql qr : SubTableType) (prev : list TaskType)
    (hl hr : list TaskType) (st : Queue) :
  let last := Nat.pred (length (query_subtables_ st)) in
  query_subtables_ st !! i = Some ql ->
  query_subtables_ st !! last = Some qr ->
  tasks_ st !! i = Some hl ->
  tasks_ st !! last = Some hr ->
  i <> last ->
  exists st',
    split_repush world metric_in i prev st = Returns st'
    /\ tasks_ st'
       = <[last := repush_heap world metric_in qr prev hr]>
           (<[i := repush_heap world metric_in ql prev hl]> (tasks_ st))
    /\ num_remaining_tasks_ st'
       = num_remaining_tasks_ st + 2 * Z.of_nat (length prev)
    /\ remaining_local_computation_ st'
       = repush_local world metric_in ql qr prev
           (remaining_local_computation_ st)
    /\ table_exchange_ st' = table_exchange_ st ++ cache_locks prev
    /\ assigned_work_ st' = assigned_work_ st
    /\ checked_out_query_subtables_ st' = checked_out_query_subtables_ st
    /\ num_exported_query_subtables_ st' = num_exported_query_subtables_ st
    /\ num_imported_query_subtables_ st' = num_imported_query_subtables_ st
    /\ num_threads_ st' = num_threads_ st
    /\ query_subtables_ st' = query_subtables_ st
    /\ remaining_work_for_query_subtables_ st'
       = remaining_work_for_query_subtables_ st
    /\ remaining_global_computation_ st' = remaining_global_computation_ st.
Proof.
  cbv zeta. revert hl hr st.
  induction prev as [| t prev IH]; intros hl hr st Hql Hqr Hhl Hhr Hne.
  - exists st. split; [reflexivity |].
    unfold repush_heap, repush_local, cache_locks.
    cbn [fold_left map length].
    rewrite (list_insert_id _ i hl Hhl), (list_insert_id _ _ hr Hhr).
    rewrite app_nil_r, Z.add_0_r. repeat split; reflexivity.
  - pose proof (lookup_lt_Some _ _ _ Hhl) as Hil.
    pose proof (lookup_lt_Some _ _ _ Hhr) as Hlastl.
    simpl.
    rewrite (PushTask_in_range world metric_in i (reference_subtable t)
               ql hl st Hql Hhl).
    cbn [outcome_bind].
    set (tl := make_task world metric_in ql (reference_subtable t)).
    set (st1 := pushed i tl hl st).
    assert (Hq1 : query_subtables_ st1 = query_subtables_ st) by reflexivity.
    rewrite Hq1.
    rewrite (PushTask_in_range world metric_in _ (reference_subtable t)
               qr hr st1).
    2: { exact Hqr. }
    2: { simpl. rewrite list_lookup_insert_ne by exact Hne. exact Hhr. }
    cbn [outcome_bind].
    set (tr := make_task world metric_in qr (reference_subtable t)).
    set (st2 := exchange_call
                  (LockCache (reference_subtable_cache_block_id t) 1)
                  (pushed (Nat.pred (length (query_subtables_ st))) tr hr
                     st1)).
    destruct (IH (heap_push tl hl) (heap_push tr hr) st2)
      as (st' & Hrun & Htasks & Hnum & Hloc & Hex & Hrest).
    { exact Hql. }
    { exact Hqr. }
    { simpl. rewrite list_lookup_insert_ne by (intros E; apply Hne; auto).
      apply list_lookup_insert_eq. exact Hil. }
    { simpl. apply list_lookup_insert_eq. rewrite length_insert.
      exact Hlastl. }
    { exact Hne. }
    exists st'. split; [exact Hrun |].
    split.
    { rewrite Htasks. simpl tasks_.
      rewrite (list_insert_insert_ne _ i) by exact Hne.
      rewrite !list_insert_insert_eq. reflexivity. }
    split.
    { rewrite Hnum. simpl num_remaining_tasks_. lia. }
    split.
    { rewrite Hloc. reflexivity. }
    split.
    { rewrite Hex. simpl. rewrite <- app_assoc. reflexivity. }
    exact Hrest.
Qed.

Lemma split_subtree__Returns (world : communicator) (metric_in : MetricType)
    (s : nat) (st : Queue) (q : SubTableType) (l r : TreeType)
    (a : list interval) (w : Z) (h : list TaskType) :
  lengths_ok st ->
  query_subtables_ st !! s = Some q ->
  left (start_node q) = Some l ->
  right (start_node q) = Some r ->
  assigned_work_ st !! s = Some (Some a) ->
  remaining_work_for_query_subtables_ st !! s = Some w ->
  tasks_ st !! s = Some h ->
  let ql := set_start_node q l in
  let qr := set_start_node q r in
  exists st',
    split_subtree_ world metric_in s st = Returns st'
    /\ query_subtables_ st' = <[s := ql]> (query_subtables_ st) ++ [qr]
    /\ assigned_work_ st' = assigned_work_ st ++ [Some a]
    /\ remaining_work_for_query_subtables_ st'
       = remaining_work_for_query_subtables_ st ++ [w]
    /\ tasks_ st'
       = <[s := repush_heap world metric_in ql h []]> (tasks_ st)
         ++ [repush_heap world metric_in qr h []]
    /\ num_remaining_tasks_ st'
       = num_remaining_tasks_ st - heap_size h + 2 * heap_size h
    /\ remaining_local_computation_ st'
       = repush_local world metric_in ql qr h
           (drain_local (remaining_local_computation_ st) h)
    /\ table_exchange_ st' = table_exchange_ st ++ cache_locks h
    /\ checked_out_query_subtables_ st' = checked_out_query_subtables_ st
    /\ num_exported_query_subtables_ st' = num_exported_query_subtables_ st
    /\ num_imported_query_subtables_ st' = num_imported_query_subtables_ st
    /\ num_threads_ st' = num_threads_ st
    /\ remaining_global_computation_ st' = remaining_global_computation_ st.
Proof.
  intros (Ht & Ha & Hw) Hq Hl Hr Has Hws Hh ql qr.
  pose proof (lookup_lt_Some _ _ _ Hq) as Hs.
  unfold split_subtree_.
  rewrite (proj2 (vec_get_Returns _ _ _) Hq). cbn [outcome_bind].
  rewrite Hl, Hr.
  rewrite vec_set_in_range by exact Hs. cbn [outcome_bind].
  fold ql. change (set_start_node (Alias ql) r) with qr.
  set (st1 := set_query_subtables_
                (<[s := ql]> (query_subtables_ st) ++ [qr]) st).
  change (tasks_ st1) with (tasks_ st).
  rewrite (proj2 (vec_get_Returns _ _ _) Hh). cbn [outcome_bind].
  rewrite (split_drain_Returns world s h (length h) [] st1 Hh (le_n _)).
  cbn [outcome_bind app].
  set (st2 := set_tasks_ (tasks_ (drained s h st1) ++ [[]])
                (drained s h st1)).
  change (assigned_work_ st2) with (assigned_work_ st).
  rewrite (proj2 (vec_get_Returns _ _ _) Has). cbn [outcome_bind].
  set (st3 := set_assigned_work_ (assigned_work_ st ++ [Some a]) st2).
  change (remaining_work_for_query_subtables_ st3)
    with (remaining_work_for_query_subtables_ st).
  rewrite (proj2 (vec_get_Returns _ _ _) Hws). cbn [outcome_bind].
  set (st4 := set_remaining_work_for_query_subtables_
                (remaining_work_for_query_subtables_ st ++ [w]) st3).
  assert (Hlast : Nat.pred (length (query_subtables_ st4))
                  = length (query_subtables_ st)).
  { simpl. rewrite length_app, length_insert. simpl. lia. }
  destruct (split_repush_Returns world metric_in s ql qr h [] [] st4)
    as (st' & Hrun & Htasks & Hnum & Hloc & Hex & Hass & Hco & Hne & Hni
        & Hnt & Hqs & Hrw & Hg).
  { simpl. rewrite lookup_app_l by (rewrite length_insert; exact Hs).
    apply list_lookup_insert_eq. exact Hs. }
  { rewrite Hlast. simpl.
    rewrite lookup_app_r by (rewrite length_insert; lia).
    rewrite length_insert, Nat.sub_diag. reflexivity. }
  { simpl. rewrite lookup_app_l by (rewrite length_insert; lia).
    apply list_lookup_insert_eq. lia. }
  { rewrite Hlast. simpl.
    rewrite lookup_app_r by (rewrite length_insert; lia).
    rewrite length_insert, Ht, Nat.sub_diag. reflexivity. }
  { rewrite Hlast. lia. }
  exists st'. split; [exact Hrun |].
  split; [rewrite Hqs; reflexivity |].
  split; [rewrite Hass; reflexivity |].
  split; [rewrite Hrw; reflexivity |].
  split.
  { rewrite Htasks, Hlast. simpl tasks_.
    rewrite insert_app_l by (rewrite length_insert; lia).
    rewrite list_insert_insert_eq.
    replace (length (query_subtables_ st))
      with (length (<[s := repush_heap world metric_in ql h []]> (tasks_ st))
            + 0)%nat
      by (rewrite length_insert; lia).
    rewrite insert_app_r. reflexivity. }
  split.
  { rewrite Hnum. simpl. unfold heap_size. lia. }
  split; [rewrite Hloc; reflexivity |].
  split; [rewrite Hex; reflexivity |].
  split; [rewrite Hco; reflexivity |].
  split; [rewrite Hne; reflexivity |].
  split; [rewrite Hni; reflexivity |].
  split; [rewrite Hnt; reflexivity |].
  rewrite Hg. reflexivity.
Qed.

Lemma split_subtree__null (world : communicator) (metric_in : MetricType)
    (s : nat) (st : Queue) (q : SubTableType) (h : list TaskType) :
  query_subtables_ st !! s = Some q ->
  assigned_work_ st !! s = Some None ->
  tasks_ st !! s = Some h ->
  split_subtree_ world metric_in s st = Faults NullPointer.
Proof.
  intros Hq Has Hh.
  pose proof (lookup_lt_Some _ _ _ Hq) as Hs.
  unfold split_subtree_.
  rewrite (proj2 (vec_get_Returns _ _ _) Hq). cbn [outcome_bind].
  destruct (left (start_node q)) as [l |]; [| reflexivity].
  destruct (right (start_node q)) as [r |]; [| reflexivity].
  rewrite vec_set_in_range by exact Hs. cbn [outcome_bind].
  set (st1 := set_query_subtables_ _ st).
  change (tasks_ st1) with (tasks_ st).
  rewrite (proj2 (vec_get_Returns _ _ _) Hh). cbn [outcome_bind].
  rewrite (split_drain_Returns world s h (length h) [] st1 Hh (le_n _)).
  cbn [outcome_bind app].
  set (st2 := set_tasks_ _ (drained s h st1)).
  change (assigned_work_ st2) with (assigned_work_ st).
  rewrite (proj2 (vec_get_Returns _ _ _) Has). reflexivity.
Qed.

Lemma repush_heap_Permutation (world : communicator)
    (metric_in : MetricType) (q : SubTableType) (prev h : list TaskType) :
  repush_heap world metric_in q prev h
  ≡ₚ map (fun t => make_task world metric_in q (reference_subtable t)) prev
     ++ h.
Proof.
  revert h. induction prev as [| t prev IH]; intros h; [reflexivity |].
  simpl. unfold repush_heap in *. simpl. rewrite IH.
  rewrite heap_push_Permutation. symmetry. apply Permutation_middle.
Qed.

Lemma length_repush_heap (world : communicator) (metric_in : MetricType)
    (q : SubTableType) (prev h : list TaskType) :
  length (repush_heap world metric_in q prev h)
  = (length prev + length h)%nat.
Proof.
  rewrite repush_heap_Permutation, length_app, length_map. reflexivity.
Qed.

Lemma heap_work_repush_heap (world : communicator) (metric_in : MetricType)
    (q : SubTableType) (prev h : list TaskType) :
  heap_work (repush_heap world metric_in q prev h)
  = repush_work world metric_in q prev + heap_work h.
Proof.
  revert h. induction prev as [| t prev IH]; intros h; [reflexivity |].
  unfold repush_heap in *. simpl. rewrite IH, heap_work_push. lia.
Qed.

Lemma drain_local_sum (loc A : Z) (h : list TaskType) :
  loc = wrap64 A -> drain_local loc h = wrap64 (A - heap_work h).
Proof.
  revert loc A. induction h as [| t h IH]; intros loc A Hloc.
  - simpl. rewrite Hloc. f_equal. lia.
  - simpl. rewrite (IH _ (A - work t)).
    + f_equal. lia.
    + rewrite Hloc. apply wrap64_sub_l.
Qed.

Lemma repush_local_sum (world : communicator) (metric_in : MetricType)
    (ql qr : SubTableType) (prev : list TaskType) (loc A : Z) :
  loc = wrap64 A ->
  repush_local world metric_in ql qr prev loc
  = wrap64 (A + repush_work world metric_in ql prev
            + repush_work world metric_in qr prev).
Proof.
  revert loc A. induction prev as [| t prev IH]; intros loc A Hloc.
  - simpl. rewrite Hloc. f_equal. lia.
  - unfold repush_local in *. simpl.
    rewrite (IH _ (A + work (make_task world metric_in ql
                               (reference_subtable t))
                   + work (make_task world metric_in qr
                             (reference_subtable t)))).
    + f_equal. lia.
    + rewrite Hloc, wrap64_add_l, <- Z.add_assoc, wrap64_add_l.
      f_equal. lia.
Qed.

Lemma split_subtree__well_formed (world : communicator)
    (metric_in : MetricType) (s : nat) (st st' : Queue) :
  well_formed st ->
  split_subtree_ world metric_in s st = Returns st' ->
  well_formed st'.
Proof.
  intros [Hok Hacc] H.
  destruct (query_subtables_ st !! s) as [q |] eqn:Hq.
  2: { unfold split_subtree_, vec_get in H. rewrite Hq in H. discriminate. }
  pose proof (lookup_lt_Some _ _ _ Hq) as Hs.
  pose proof Hok as (Ht & Ha & Hw).
  destruct (lookup_lt_is_Some_2 (tasks_ st) s) as [h Hh]; [lia |].
  destruct (lookup_lt_is_Some_2 (assigned_work_ st) s) as [oa Has]; [lia |].
  destruct (lookup_lt_is_Some_2 (remaining_work_for_query_subtables_ st) s)
    as [w Hws]; [lia |].
  destruct oa as [a |].
  2: { rewrite (split_subtree__null world metric_in s st q h Hq Has Hh) in H.
       discriminate. }
  destruct (left (start_node q)) as [l |] eqn:Hl.
  2: { unfold split_subtree_ in H.
       rewrite (proj2 (vec_get_Returns _ _ _) Hq) in H.
       cbn [outcome_bind] in H. rewrite Hl in H. discriminate. }
  destruct (right (start_node q)) as [r |] eqn:Hr.
  2: { unfold split_subtree_ in H.
       rewrite (proj2 (vec_get_Returns _ _ _) Hq) in H.
       cbn [outcome_bind] in H. rewrite Hl, Hr in H. discriminate. }
  destruct (split_subtree__Returns world metric_in s st q l r a w h
              Hok Hq Hl Hr Has Hws Hh)
    as (st1 & Hrun & Hqs & Hass & Hrw & Htasks & Hnum & Hloc & _ & Hco & _).
  rewrite Hrun in H. injection H as <-.
  split.
  - unfold lengths_ok. rewrite Hqs, Hass, Hrw, Htasks.
    rewrite !length_app, !length_insert. simpl. lia.
  - destruct Hacc as [Hn Hlc]. unfold accounting, all_heaps in *.
    rewrite Htasks, Hco, Hnum, Hloc.
    rewrite !total_tasks_app, !total_work_app in *.
    rewrite (total_tasks_insert _ _ h) by exact Hh.
    rewrite (total_work_insert _ _ h) by exact Hh.
    simpl. unfold heap_size. rewrite !length_repush_heap.
    rewrite !heap_work_repush_heap. simpl.
    split.
    + unfold heap_size in *. lia.
    + rewrite (repush_local_sum _ _ _ _ _ _
                 (total_work (tasks_ st)
                  + total_work
                      (map lock_task_ (checked_out_query_subtables_ st))
                  - heap_work h)).
      * f_equal. lia.
      * apply drain_local_sum. exact Hlc.
Qed.

Lemma RedistributeAmongCores__well_formed (world : communicator)
    (metric_in : MetricType) (st st' : Queue) :
  well_formed st ->
  RedistributeAmongCores_ world metric_in st = Returns st' ->
  well_formed st'.
Proof.
  intros Hwf H. unfold RedistributeAmongCores_ in H.
  destruct (find_split st (length (query_subtables_ st)) 0 0 None)
    as [[i |] |]; cbn [outcome_bind] in H.
  - eapply split_subtree__well_formed; eassumption.
  - injection H as <-. exact Hwf.
  - discriminate.
Qed.

Lemma DequeueTask_scan_well_formed (world : communicator) (fuel : nat)
    (probe_index : nat) (task_out task : TaskType * Z) (want : bool)
    (it it' : option nat) (st st' : Queue) :
  well_formed st ->
  DequeueTask_scan fuel world probe_index task_out want it st
  = Returns (st', task, it') ->
  well_formed st'.
Proof.
  revert probe_index task_out it st.
  induction fuel as [| fuel IH]; intros probe_index task_out it st Hwf H.
  - simpl in H.
    destruct ((snd task_out <? 0)
              && (probe_index <? length (tasks_ st))%nat);
      [discriminate |].
    injection H as <- _ _. exact Hwf.
  - simpl in H.
    destruct ((snd task_out <? 0)
              && (probe_index <? length (tasks_ st))%nat).
    2: { injection H as <- _ _. exact Hwf. }
    destruct (DequeueTask_slot world probe_index task_out want st)
      as [[[[st1 task1] it1] cleaned] |] eqn:Es; [| discriminate].
    cbn [outcome_bind] in H.
    eapply IH; [| exact H].
    eapply DequeueTask_slot_well_formed; eassumption.
Qed.

Lemma DequeueTask_well_formed (world : communicator) (thread_id : Z)
    (metric_in : MetricType) (task_out task : TaskType * Z) (want : bool)
    (it : option nat) (st st' : Queue) :
  well_formed st ->
  DequeueTask world thread_id metric_in task_out want st
  = Returns (st', task, it) ->
  well_formed st'.
Proof.
  intros Hwf H. unfold DequeueTask in H.
  destruct (Z.of_nat (length (tasks_ st)) <? num_threads_ st).
  - destruct (RedistributeAmongCores_ world metric_in st) as [st1 |] eqn:Er;
      [| discriminate].
    cbn [outcome_bind] in H.
    eapply DequeueTask_scan_well_formed; [| exact H].
    eapply RedistributeAmongCores__well_formed; eassumption.
  - cbn [outcome_bind] in H.
    eapply DequeueTask_scan_well_formed; eassumption.
Qed.

Lemma step_well_formed (world : communicator) (metric_in : MetricType)
    (st st' : Queue) :
  well_formed st -> step world metric_in st st' -> well_formed st'.
Proof.
  intros Hwf Hstep. destruct Hstep.
  - eapply PushTask_well_formed; eassumption.
  - eapply DequeueTask_slot_well_formed; eassumption.
  - eapply DequeueTask_well_formed; eassumption.
  - eapply pop_well_formed; eassumption.
  - eapply GenerateTasks_well_formed; eassumption.
  - eapply LockQuerySubTable_well_formed; eassumption.
  - eapply ReturnQuerySubTable_well_formed; eassumption.
  - eapply Synchronize_well_formed; eassumption.
  - eapply PushNewQueue_well_formed; eassumption.
  - eapply push_completed_computation_well_formed; eassumption.
  - eapply push_completed_computation_lock_well_formed; eassumption.
  - eapply RedistributeAmongCores__well_formed; eassumption.
  - eapply split_subtree__well_formed; eassumption.
Qed.

Lemma reachable_well_formed (world : communicator) (metric_in : MetricType)
    (st : Queue) :
  reachable world metric_in st -> well_formed st.
Proof.
  induction 1 as [frontier qn rn nt st HInit | st st' _ IH Hstep].
  - eapply Init_well_formed. exact HInit.
  - eapply step_well_formed; eassumption.
Qed.

(** ** Replay of received reference subtables *)

Lemma extends_refl (st : Queue) : extends st st.
Proof.
  split; [reflexivity |]. split.
  { intros j a H. exists []. rewrite app_nil_r. exact H. }
  split; [reflexivity |].
  intros k e a He Ha. exists e, []. rewrite app_nil_r. auto.
Qed.

Lemma extends_trans (st1 st2 st3 : Queue) :
  extends st1 st2 -> extends st2 st3 -> extends st1 st3.
Proof.
  intros (Hq1 & Ha1 & Hl1 & Hc1) (Hq2 & Ha2 & Hl2 & Hc2).
  split; [congruence |]. split.
  { intros j a H. destruct (Ha1 j a H) as (a' & H').
    destruct (Ha2 j _ H') as (a'' & H''). exists (a' ++ a'').
    rewrite app_assoc. exact H''. }
  split; [congruence |].
  intros k e a He Ha. destruct (Hc1 k e a He Ha) as (e' & a' & He' & Ha').
  destruct (Hc2 k e' _ He' Ha') as (e'' & a'' & He'' & Ha'').
  exists e'', (a' ++ a''). rewrite app_assoc. auto.
Qed.

Lemma covered_app (g : interval) (a a' : list interval) :
  covered g a -> covered g (a ++ a').
Proof.
  unfold covered. intros H. rewrite existsb_app, H. reflexivity.
Qed.

Lemma covered_self (r b e : Z) (a : list interval) :
  b < e -> covered (r, b, e) (a ++ [(r, b, e)]).
Proof.
  intros H. unfold covered. rewrite existsb_app. simpl.
  rewrite Z.eqb_refl, Z.max_id, Z.min_id.
  rewrite (proj2 (Z.ltb_lt b e) H). simpl. apply orb_true_r.
Qed.

Lemma active_blocked_extends (world : communicator) (g : interval)
    (st st' : Queue) (j : nat) :
  extends st st' ->
  active_blocked_upto world g st j -> active_blocked_upto world g st' j.
Proof.
  intros (Hq & Ha & _) Hb i q Hi Hqi Hr. rewrite Hq in Hqi.
  destruct (Hb i q Hi Hqi Hr) as (a & Hai & Hc).
  destruct (Ha i a Hai) as (a' & Hai').
  exists (a ++ a'). split; [exact Hai' | apply covered_app; exact Hc].
Qed.

Lemma locks_blocked_extends (g : interval) (st st' : Queue) (k : nat) :
  extends st st' ->
  locks_blocked_upto g st k -> locks_blocked_upto g st' k.
Proof.
  intros (_ & _ & Hl & Hc) Hb i e' Hi He'.
  destruct (lookup_lt_is_Some_2 (checked_out_query_subtables_ st) i)
    as [e He].
  { apply lookup_lt_Some in He'. lia. }
  destruct (Hb i e Hi He) as (a & Ha & Hcov).
  destruct (Hc i e a He Ha) as (e'' & a' & He'' & Ha'').
  assert (e'' = e') by congruence. subst e''.
  exists (a ++ a'). split; [exact Ha'' | apply covered_app; exact Hcov].
Qed.

Lemma blocked_extends (world : communicator) (g : interval)
    (st st' : Queue) :
  extends st st' -> blocked world g st -> blocked world g st'.
Proof.
  intros Hext [Ha Hl]. pose proof Hext as (Hq & _ & Hlen & _). split.
  - rewrite Hq. eapply active_blocked_extends; eassumption.
  - rewrite Hlen. eapply locks_blocked_extends; eassumption.
Qed.

Lemma covered_snoc (g : interval) (a : list interval) :
  covered g [g] -> covered g (a ++ [g]).
Proof.
  unfold covered. intros H. rewrite existsb_app, H. apply orb_true_r.
Qed.

(** A blocked interval generates nothing. *)
Lemma GenerateTasks_active_blocked (world : communicator)
    (metric_in : MetricType) (g : interval) (reference : SubTableType)
    (cache_id : Z) (n j : nat) (st : Queue) :
  active_blocked_upto world g st (j + n) ->
  (j + n <= length (query_subtables_ st))%nat ->
  GenerateTasks_active world metric_in g reference cache_id n j st
  = Returns st.
Proof.
  revert j. induction n as [| n IH]; intros j Hb Hlen; [reflexivity |].
  simpl.
  destruct (lookup_lt_is_Some_2 (query_subtables_ st) j) as [q Hq]; [lia |].
  rewrite (proj2 (vec_get_Returns _ _ _) Hq). cbn [outcome_bind].
  assert (Hnext : GenerateTasks_active world metric_in g reference cache_id
                    n (S j) st = Returns st).
  { apply IH; [| lia]. replace (S j + n)%nat with (j + S n)%nat by lia.
    exact Hb. }
  destruct (table_rank q =? rank world) eqn:Er.
  - apply Z.eqb_eq in Er.
    destruct (Hb j q) as (a & Ha & Hc); [lia | exact Hq | exact Er |].
    rewrite (proj2 (vec_get_Returns _ _ _) Ha). cbn [outcome_bind].
    rewrite (Insert_false g a Hc). cbn [outcome_bind]. exact Hnext.
  - cbn [outcome_bind]. exact Hnext.
Qed.

Lemma GenerateTasks_checked_out_blocked (world : communicator)
    (metric_in : MetricType) (g : interval) (reference : SubTableType)
    (cache_id : Z) (n k : nat) (st : Queue) :
  locks_blocked_upto g st (k + n) ->
  (k + n <= length (checked_out_query_subtables_ st))%nat ->
  GenerateTasks_checked_out world metric_in g reference cache_id n k st
  = Returns st.
Proof.
  revert k. induction n as [| n IH]; intros k Hb Hlen; [reflexivity |].
  simpl.
  destruct (lookup_lt_is_Some_2 (checked_out_query_subtables_ st) k)
    as [e He]; [lia |].
  rewrite (proj2 (vec_get_Returns _ _ _) He). cbn [outcome_bind].
  destruct (Hb k e) as (a & Ha & Hc); [lia | exact He |].
  unfold Insert_. rewrite Ha, (Insert_false g a Hc). cbn [outcome_bind].
  apply IH; [| lia]. replace (S k + n)%nat with (k + S n)%nat by lia.
  exact Hb.
Qed.

Lemma GenerateTasks_one_blocked (world : communicator)
    (metric_in : MetricType) (received : Z * Z * Z * Z) (st : Queue) :
  blocked world (reference_grid received) st ->
  GenerateTasks_one world metric_in received st = Returns st.
Proof.
  intros [Ha Hl]. unfold GenerateTasks_one.
  rewrite GenerateTasks_active_blocked by (simpl; auto).
  cbn [outcome_bind].
  apply GenerateTasks_checked_out_blocked; simpl; auto.
Qed.

Lemma extends_pushed (j : nat) (a : list interval) (g : interval)
    (t : TaskType) (h : list TaskType) (c : ExchangeCall) (st : Queue) :
  assigned_work_ st !! j = Some (Some a) ->
  extends st
    (exchange_call c
       (pushed j t h
          (set_assigned_work_ (<[j := Some (a ++ [g])]> (assigned_work_ st))
             st))).
Proof.
  intros Ha. split; [reflexivity |]. split.
  { intros i b Hb. simpl. destruct (decide (j = i)) as [<- | Hne].
    - exists [g]. rewrite list_lookup_insert_eq
        by (eapply lookup_lt_Some, Ha).
      congruence.
    - exists []. rewrite list_lookup_insert_ne by exact Hne.
      rewrite app_nil_r. exact Hb. }
  split; [reflexivity |].
  intros k e b He Hb. exists e, []. rewrite app_nil_r. simpl. auto.
Qed.

(** After the loop over the active slots, every slot of this process it
    went over has the interval in its assigned set. *)
Lemma GenerateTasks_active_blocks (world : communicator)
    (metric_in : MetricType) (g : interval) (reference : SubTableType)
    (cache_id : Z) (n j : nat) (st st' : Queue) :
  covered g [g] ->
  GenerateTasks_active world metric_in g reference cache_id n j st
  = Returns st' ->
  active_blocked_upto world g st j ->
  active_blocked_upto world g st' (j + n) /\ extends st st'.
Proof.
  intros Hg. revert j st. induction n as [| n IH]; intros j st H Hb.
  - injection H as <-. rewrite Nat.add_0_r. split; [exact Hb |].
    apply extends_refl.
  - simpl in H.
    destruct (vec_get (query_subtables_ st) j) as [q |] eqn:Eq;
      [| discriminate].
    apply vec_get_Returns in Eq. cbn [outcome_bind] in H.
    assert (Hstep : exists st1,
               GenerateTasks_active world metric_in g reference cache_id
                 n (S j) st1 = Returns st'
               /\ extends st st1
               /\ (table_rank q = rank world ->
                   exists a, assigned_work_ st1 !! j = Some (Some a)
                             /\ covered g a)).
    { destruct (table_rank q =? rank world) eqn:Er.
      2: { cbn [outcome_bind] in H. exists st. split; [exact H |].
           split; [apply extends_refl |].
           intros E. apply Z.eqb_neq in Er. contradiction. }
      destruct (vec_get (assigned_work_ st) j) as [[a |] |] eqn:Ea;
        try discriminate.
      apply vec_get_Returns in Ea. cbn [outcome_bind] in H.
      destruct (existsb (interval_overlaps g) a) eqn:Ec.
      - rewrite (Insert_false g a Ec) in H. cbn [outcome_bind] in H.
        exists st. split; [exact H |]. split; [apply extends_refl |].
        intros _. exists a. auto.
      - rewrite (Insert_true g a Ec) in H.
        rewrite vec_set_in_range in H by (eapply lookup_lt_Some, Ea).
        cbn [outcome_bind] in H.
        destruct (PushTask world metric_in j reference
                    (set_assigned_work_
                       (<[j := Some (a ++ [g])]> (assigned_work_ st)) st))
          as [st1 |] eqn:Ep; [| discriminate].
        cbn [outcome_bind] in H.
        apply PushTask_Returns in Ep as (q' & h & _ & _ & ->).
        eexists. split; [exact H |]. split.
        + apply extends_pushed. exact Ea.
        + intros _. exists (a ++ [g]). split.
          * simpl. apply list_lookup_insert_eq. eapply lookup_lt_Some, Ea.
          * apply covered_snoc. exact Hg. }
    destruct Hstep as (st1 & Hrun & Hext & Hj).
    destruct (IH (S j) st1 Hrun) as [Hb' Hext'].
    { intros i qi Hi Hqi Hr.
      destruct (decide (i = j)) as [-> | Hne].
      - apply Hj. destruct Hext as (Hq1 & _). rewrite Hq1 in Hqi.
        congruence.
      - apply (active_blocked_extends world g st st1 j Hext Hb i qi);
          [lia | exact Hqi | exact Hr]. }
    split.
    + replace (j + S n)%nat with (S j + n)%nat by lia. exact Hb'.
    + eapply extends_trans; eassumption.
Qed.

Lemma extends_lock_pushed (world : communicator) (metric_in : MetricType)
    (reference : SubTableType) (c : ExchangeCall) (k : nat)
    (e e' : QuerySubTableLock) (a : list interval) (g : interval)
    (st : Queue) :
  checked_out_query_subtables_ st !! k = Some e ->
  lock_assigned_work_ e = Some a ->
  lock_assigned_work_ e' = Some (a ++ [g]) ->
  extends st
    (let '(e1, st1) := PushTask_ world metric_in reference e' st in
     exchange_call c
       (set_checked_out_query_subtables_
          (<[k := e1]> (checked_out_query_subtables_ st1)) st1)).
Proof.
  intros He Ha Ha'. unfold PushTask_. split; [reflexivity |]. split.
  { intros j b Hb. exists []. rewrite app_nil_r. exact Hb. }
  split; [simpl; apply length_insert |].
  intros i e0 b He0 Hb. simpl.
  destruct (decide (k = i)) as [<- | Hne].
  - rewrite list_lookup_insert_eq by (eapply lookup_lt_Some, He).
    eexists. exists [g]. split; [reflexivity |]. simpl. congruence.
  - rewrite list_lookup_insert_ne by exact Hne.
    exists e0, []. rewrite app_nil_r. auto.
Qed.

(** After the loop over the checked-out entries, every entry it went over
    has the interval in its assigned set. *)
Lemma GenerateTasks_checked_out_blocks (world : communicator)
    (metric_in : MetricType) (g : interval) (reference : SubTableType)
    (cache_id : Z) (n k : nat) (st st' : Queue) :
  covered g [g] ->
  GenerateTasks_checked_out world metric_in g reference cache_id n k st
  = Returns st' ->
  locks_blocked_upto g st k ->
  locks_blocked_upto g st' (k + n) /\ extends st st'.
Proof.
  intros Hg. revert k st. induction n as [| n IH]; intros k st H Hb.
  - injection H as <-. rewrite Nat.add_0_r. split; [exact Hb |].
    apply extends_refl.
  - simpl in H.
    destruct (vec_get (checked_out_query_subtables_ st) k) as [e |] eqn:Ee;
      [| discriminate].
    apply vec_get_Returns in Ee. cbn [outcome_bind] in H.
    destruct (Insert_ g e) as [[ok e'] |] eqn:Ei; [| discriminate].
    cbn [outcome_bind] in H.
    apply Insert__Returns in Ei as (a & Ha & Hok & Ha' & _).
    assert (Hstep : exists st1,
               GenerateTasks_checked_out world metric_in g reference
                 cache_id n (S k) st1 = Returns st'
               /\ extends st st1
               /\ exists e1 a1,
                    checked_out_query_subtables_ st1 !! k = Some e1
                    /\ lock_assigned_work_ e1 = Some a1 /\ covered g a1).
    { destruct (existsb (interval_overlaps g) a) eqn:Ec.
      - rewrite (Insert_false g a Ec) in Hok. simpl in Hok. subst ok.
        exists st. split; [exact H |]. split; [apply extends_refl |].
        exists e, a. auto.
      - rewrite (Insert_true g a Ec) in Hok, Ha'. simpl in Hok, Ha'.
        subst ok. eexists. split; [exact H |]. split.
        + apply (extends_lock_pushed world metric_in reference _ k e e' a g
                   st Ee Ha Ha').
        + unfold PushTask_. simpl.
          rewrite list_lookup_insert_eq by (eapply lookup_lt_Some, Ee).
          eexists. exists (a ++ [g]). split; [reflexivity |].
          split; [exact Ha' | apply covered_snoc; exact Hg]. }
    destruct Hstep as (st1 & Hrun & Hext & e1 & a1 & He1 & Ha1 & Hc1).
    destruct (IH (S k) st1 Hrun) as [Hb' Hext'].
    { intros i ei Hi Hei.
      destruct (decide (i = k)) as [-> | Hne].
      - exists a1. assert (ei = e1) by congruence. subst ei. auto.
      - apply (locks_blocked_extends g st st1 k Hext Hb i ei);
          [lia | exact Hei]. }
    split.
    + replace (k + S n)%nat with (S k + n)%nat by lia. exact Hb'.
    + eapply extends_trans; eassumption.
Qed.

Lemma GenerateTasks_one_blocks (world : communicator)
    (metric_in : MetricType) (received : Z * Z * Z * Z) (st st' : Queue) :
  covered (reference_grid received) [reference_grid received] ->
  GenerateTasks_one world metric_in received st = Returns st' ->
  blocked world (reference_grid received) st' /\ extends st st'.
Proof.
  intros Hg H. unfold GenerateTasks_one in H.
  destruct (GenerateTasks_active world metric_in (reference_grid received)
              (frontier_reference_subtable received) (snd received)
              (length (query_subtables_ st)) 0 st) as [st1 |] eqn:E1;
    [| discriminate].
  cbn [outcome_bind] in H.
  apply GenerateTasks_active_blocks in E1 as [Hb1 Hext1]; [| exact Hg |].
  2: { intros i q Hi. lia. }
  apply GenerateTasks_checked_out_blocks in H as [Hb2 Hext2]; [| exact Hg |].
  2: { intros i e Hi. lia. }
  pose proof Hext1 as (Hq1 & _). pose proof Hext2 as (Hq2 & _ & Hl2 & _).
  split; [| eapply extends_trans; eassumption].
  split.
  - rewrite Hq2, Hq1.
    apply (active_blocked_extends world _ st1 st' _ Hext2). exact Hb1.
  - rewrite Hl2. exact Hb2.
Qed.

Lemma GenerateTasks_blocks (world : communicator) (metric_in : MetricType)
    (ids : list (Z * Z * Z * Z)) (st st' : Queue) :
  Forall (fun id => covered (reference_grid id) [reference_grid id]) ids ->
  GenerateTasks world metric_in ids st = Returns st' ->
  Forall (fun id => blocked world (reference_grid id) st') ids
  /\ extends st st'.
Proof.
  intros Hids. revert st.
  induction Hids as [| id ids Hid _ IH]; intros st H.
  - injection H as <-. split; [constructor | apply extends_refl].
  - simpl in H.
    destruct (GenerateTasks_one world metric_in id st) as [st1 |] eqn:E1;
      [| discriminate].
    cbn [outcome_bind] in H.
    apply GenerateTasks_one_blocks in E1 as [Hb1 Hext1]; [| exact Hid].
    destruct (IH st1 H) as [Hall Hext]. split.
    + constructor; [| exact Hall].
      eapply blocked_extends; eassumption.
    + eapply extends_trans; eassumption.
Qed.

Lemma GenerateTasks_all_blocked (world : communicator)
    (metric_in : MetricType) (ids : list (Z * Z * Z * Z)) (st : Queue) :
  Forall (fun id => blocked world (reference_grid id) st) ids ->
  GenerateTasks world metric_in ids st = Returns st.
Proof.
  induction 1 as [| id ids Hid _ IH]; [reflexivity |].
  simpl. rewrite (GenerateTasks_one_blocked world metric_in id st Hid).
  cbn [outcome_bind]. exact IH.
Qed.

Lemma reference_grid_covers_itself (received : Z * Z * Z * Z) :
  0 < snd (fst received) ->
  covered (reference_grid received) [reference_grid received].
Proof.
  destruct received as [[[owner b] c] cache]. simpl. intros Hc.
  apply (covered_self _ b (b + c) []). lia.
Qed.

Lemma zip_slots_insert (qs : list SubTableType) (ts : list (list TaskType))
    (aw : list (option DisjointIntIntervals)) (ws : list Z) (i : nat)
    (q : SubTableType) (t : list TaskType)
    (a : option DisjointIntIntervals) (w : Z) :
  aw !! i = Some a -> ws !! i = Some w ->
  zip_slots (<[i := q]> qs) (<[i := t]> ts) aw ws
  = <[i := {| slot_subtree := q; slot_tasks := t; slot_assigned := a;
              slot_remaining_work := w |}]> (zip_slots qs ts aw ws).
Proof.
  revert ts aw ws i.
  induction qs as [| q0 qs IH]; intros ts aw ws i Ha Hw; [reflexivity |].
  destruct ts as [| t0 ts]; [destruct i; reflexivity |].
  destruct aw as [| a0 aw]; [destruct i; discriminate |].
  destruct ws as [| w0 ws]; [destruct i; discriminate |].
  destruct i as [| i].
  - simpl in *. congruence.
  - simpl in *. f_equal. apply IH; assumption.
Qed.

(** ** The scanning loop ends *)

Lemma DequeueTask_slot_progress (world : communicator) (i : nat)
    (task_out : TaskType * Z) (want : bool) (st : Queue) :
  lengths_ok st -> (i < length (tasks_ st))%nat ->
  exists st' task it cleaned,
    DequeueTask_slot world i task_out want st
    = Returns (st', task, it, cleaned)
    /\ lengths_ok st'
    /\ (length (tasks_ st') - (if cleaned then i else S i)
        < length (tasks_ st) - i)%nat.
Proof.
  intros Hok Hi. pose proof Hok as (Ht & Ha & Hw).
  destruct (lookup_lt_is_Some_2 (tasks_ st) i Hi) as [h Hh].
  destruct (lookups_of_slot i st Hok Hi) as (a & q & w & Has & Hq & Hws).
  assert (Hev : forall st0, lengths_ok st0 ->
                  length (tasks_ st0) = length (tasks_ st) ->
                  lengths_ok (evicted i st0)
                  /\ (length (tasks_ (evicted i st0)) - i
                      < length (tasks_ st) - i)%nat).
  { intros st0 Hok0 Heq. pose proof Hok0 as (Ht0 & _). split.
    - apply lengths_ok_evicted; [exact Hok0 | lia].
    - simpl. rewrite length_swap_remove by lia. lia. }
  destruct h as [| t h].
  - rewrite (DequeueTask_slot_on_empty_heap world i task_out want st q w)
      by assumption.
    destruct (table_rank q =? rank world).
    + destruct (w =? 0).
      * do 4 eexists. split; [reflexivity |]. apply Hev; auto.
      * do 4 eexists. split; [reflexivity |].
        split; [exact Hok | cbv iota; lia].
    + do 4 eexists. split; [reflexivity |].
      apply (Hev (flush_queued q st)); auto.
  - destruct want.
    + rewrite (DequeueTask_slot_checkout world i task_out st t h a q w)
        by assumption.
      do 4 eexists. split; [reflexivity |].
      destruct (Hev (popped i t h st)) as [Hok' Hlt].
      { apply lengths_ok_popped. exact Hok. }
      { simpl. apply length_insert. }
      split; [exact Hok' |]. cbv iota.
      change (tasks_ (checked_out_to i _ (popped i t h st)))
        with (tasks_ (evicted i (popped i t h st))).
      lia.
    + rewrite (DequeueTask_slot_pop world i task_out st t h Hh).
      do 4 eexists. split; [reflexivity |]. split.
      * apply lengths_ok_popped. exact Hok.
      * simpl. rewrite length_insert. lia.
Qed.

(** With as many steps as there are slots left to probe, the scanning
    loop of [DequeueTask] returns. *)
Lemma DequeueTask_scan_returns (world : communicator) (fuel : nat)
    (probe_index : nat) (task_out : TaskType * Z) (want : bool)
    (it : option nat) (st : Queue) :
  lengths_ok st ->
  (length (tasks_ st) - probe_index <= fuel)%nat ->
  returns (DequeueTask_scan fuel world probe_index task_out want it st).
Proof.
  revert probe_index task_out it st.
  induction fuel as [| fuel IH]; intros i task_out it st Hok Hfuel.
  - simpl.
    destruct (i <? length (tasks_ st))%nat eqn:Ei.
    + apply Nat.ltb_lt in Ei. lia.
    + rewrite andb_false_r. eexists. reflexivity.
  - simpl.
    destruct ((snd task_out <? 0) && (i <? length (tasks_ st))%nat) eqn:Ec.
    2: { eexists. reflexivity. }
    apply andb_prop in Ec as [_ Ei]. apply Nat.ltb_lt in Ei.
    destruct (DequeueTask_slot_progress world i task_out want st Hok Ei)
      as (st' & task & it' & cleaned & Hrun & Hok' & Hlt).
    rewrite Hrun. cbn [outcome_bind]. apply IH; [exact Hok' | lia].
Qed.

(** [DequeueTask] returns whenever its redistribution does. *)
Lemma DequeueTask_returns (world : communicator) (thread_id : Z)
    (metric_in : MetricType) (task_out : TaskType * Z) (want : bool)
    (st : Queue) :
  well_formed st ->
  returns (RedistributeAmongCores_ world metric_in st) ->
  returns (DequeueTask world thread_id metric_in task_out want st).
Proof.
  intros Hwf [st1 Hr]. unfold DequeueTask.
  destruct (Z.of_nat (length (tasks_ st)) <? num_threads_ st).
  - rewrite Hr. cbn [outcome_bind].
    apply DequeueTask_scan_returns; [| lia].
    eapply RedistributeAmongCores__well_formed; eassumption.
  - cbn [outcome_bind].
    apply DequeueTask_scan_returns; [apply Hwf | lia].
Qed.

Lemma split_subtree__inv (world : communicator) (metric_in : MetricType)
    (s : nat) (st st' : Queue) :
  lengths_ok st ->
  split_subtree_ world metric_in s st = Returns st' ->
  exists q l r a w h,
    query_subtables_ st !! s = Some q
    /\ left (start_node q) = Some l
    /\ right (start_node q) = Some r
    /\ assigned_work_ st !! s = Some (Some a)
    /\ remaining_work_for_query_subtables_ st !! s = Some w
    /\ tasks_ st !! s = Some h.
Proof.
  intros Hok H.
  destruct (query_subtables_ st !! s) as [q |] eqn:Hq.
  2: { unfold split_subtree_, vec_get in H. rewrite Hq in H. discriminate. }
  pose proof (lookup_lt_Some _ _ _ Hq) as Hs.
  pose proof Hok as (Ht & Ha & Hw).
  destruct (lookup_lt_is_Some_2 (tasks_ st) s) as [h Hh]; [lia |].
  destruct (lookup_lt_is_Some_2 (assigned_work_ st) s) as [oa Has]; [lia |].
  destruct (lookup_lt_is_Some_2 (remaining_work_for_query_subtables_ st) s)
    as [w Hws]; [lia |].
  destruct oa as [a |].
  2: { rewrite (split_subtree__null world metric_in s st q h Hq Has Hh) in H.
       discriminate. }
  destruct (left (start_node q)) as [l |] eqn:Hl.
  2: { unfold split_subtree_ in H.
       rewrite (proj2 (vec_get_Returns _ _ _) Hq) in H.
       cbn [outcome_bind] in H. rewrite Hl in H. discriminate. }
  destruct (right (start_node q)) as [r |] eqn:Hr.
  2: { unfold split_subtree_ in H.
       rewrite (proj2 (vec_get_Returns _ _ _) Hq) in H.
       cbn [outcome_bind] in H. rewrite Hl, Hr in H. discriminate. }
  exists q, l, r, a, w, h. auto 10.
Qed.

Lemma split_subtree__slots (world : communicator) (metric_in : MetricType)
    (s : nat) (st st' : Queue) (q : SubTableType) (l r : TreeType)
    (a : list interval) (w : Z) (h : list TaskType) :
  lengths_ok st ->
  query_subtables_ st !! s = Some q ->
  left (start_node q) = Some l ->
  right (start_node q) = Some r ->
  assigned_work_ st !! s = Some (Some a) ->
  remaining_work_for_query_subtables_ st !! s = Some w ->
  tasks_ st !! s = Some h ->
  split_subtree_ world metric_in s st = Returns st' ->
  lengths_ok st'
  /\ slots st'
     = <[s := {| slot_subtree := set_start_node q l;
                 slot_tasks :=
                   repush_heap world metric_in (set_start_node q l) h [];
                 slot_assigned := Some a;
                 slot_remaining_work := w |}]> (slots st)
       ++ [{| slot_subtree := set_start_node q r;
              slot_tasks :=
                repush_heap world metric_in (set_start_node q r) h [];
              slot_assigned := Some a;
              slot_remaining_work := w |}].
Proof.
  intros Hok Hq Hl Hr Has Hws Hh H. pose proof Hok as (Ht & Ha & Hw).
  destruct (split_subtree__Returns world metric_in s st q l r a w h
              Hok Hq Hl Hr Has Hws Hh)
    as (st1 & Hrun & Hqs & Hass & Hrw & Htasks & _).
  rewrite Hrun in H. injection H as <-. split.
  - unfold lengths_ok. rewrite Hqs, Hass, Hrw, Htasks.
    rewrite !length_app, !length_insert. simpl. lia.
  - unfold slots. rewrite Hqs, Hass, Hrw, Htasks.
    rewrite zip_slots_app by (rewrite !length_insert; assumption).
    f_equal. apply zip_slots_insert; assumption.
Qed.

Lemma children_of_inner_node (n : TreeType) :
  is_leaf n = false -> exists l r, left n = Some l /\ right n = Some r.
Proof.
  destruct n as [| b c bd l r]; [discriminate |]. intros _.
  exists l, r. split; reflexivity.
Qed.

(** * The claims of the specification *)

(** C1.  In every state a process reaches from an initialised queue by
    the public operations (pushing a task, the two forms of dequeue, pop,
    task generation with the splitting it triggers, check-out and return,
    synchronisation, a new queue for an imported subtable, completed
    computation), the number of remaining tasks is the sum of the sizes of
    the heaps of the active slots and of the checked-out entries, and the
    remaining local computation is the sum of the work of the tasks in
    those heaps, as a 64-bit unsigned integer (the sum itself when it is
    below 2^64).  Every such operation that returns leaves a state with
    the same equalities. *)
Theorem task_accounting
    (world : communicator) (metric_in : MetricType) (st : Queue) :
  reachable world metric_in st ->
  num_remaining_tasks_ st = total_tasks (all_heaps st)
  /\ remaining_local_computation_ st = wrap64 (total_work (all_heaps st))
  /\ (0 <= total_work (all_heaps st) < two64 ->
      remaining_local_computation_ st = total_work (all_heaps st))
  /\ (forall st', step world metric_in st st' -> accounting st').
Proof.
  intros Hreach.
  destruct (reachable_well_formed world metric_in st Hreach) as [Hok [Hn Hl]].
  split; [exact Hn |]. split; [exact Hl |]. split.
  - intros Hrange. rewrite Hl. apply wrap64_exact. exact Hrange.
  - intros st' Hstep.
    apply (step_well_formed world metric_in st st'); [| exact Hstep].
    split; [exact Hok | split; assumption].
Qed.

(** C2.  For a slot [s] whose heap holds the task [t] on top of [h], the
    single-slot dequeue writes [t] and [s] into the caller's pair, takes
    [t] off the heap, lowers the number of remaining tasks by one and the
    remaining local computation by [work t] (in 64-bit unsigned
    arithmetic), and returns [false].  When a checkout is requested, the
    slot then moves into a new checked-out entry at the front of the list,
    locked to the rank of the caller; the entry holds the slot's assigned
    work, subtable, remaining work and the heap [h]; the slot leaves the
    vectors and the number of exported subtables grows by one.  In an
    ordered heap no task has a higher priority than [t]. *)
Theorem DequeueTask_slot_nonempty_heap
    (world : communicator) (s : nat) (task_out : TaskType * Z) (st : Queue)
    (t : TaskType) (h : list TaskType)
    (a : option DisjointIntIntervals) (q : SubTableType) (w : Z) :
  lengths_ok st ->
  tasks_ st !! s = Some (t :: h) ->
  assigned_work_ st !! s = Some a ->
  query_subtables_ st !! s = Some q ->
  remaining_work_for_query_subtables_ st !! s = Some w ->
  let st1 := popped s t h st in
  let e := {| lock_assigned_work_ := a; locked_mpi_rank_ := rank world;
              lock_query_subtable_ := q;
              lock_remaining_work_for_query_subtable_ := w;
              lock_task_ := h |} in
  DequeueTask_slot world s task_out false st
  = Returns (st1, (t, Z.of_nat s), None, false)
  /\ DequeueTask_slot world s task_out true st
     = Returns (checked_out_to s e st1, (t, Z.of_nat s), Some 0%nat, false)
  /\ num_remaining_tasks_ st1 = num_remaining_tasks_ st - 1
  /\ remaining_local_computation_ st1
     = wrap64 (remaining_local_computation_ st - work t)
  /\ tasks_ st1 !! s = Some h
  /\ checked_out_query_subtables_ (checked_out_to s e st1)
     = e :: checked_out_query_subtables_ st
  /\ num_exported_query_subtables_ (checked_out_to s e st1)
     = num_exported_query_subtables_ st + 1
  /\ slots (checked_out_to s e st1) = swap_remove (slots st1) s
  /\ (heap_ordered (t :: h) -> Forall (fun u => priority u <= priority t) h).
Proof.
  intros Hok Ht Ha Hq Hw st1 e.
  pose proof (lookup_lt_Some _ _ _ Ht) as Hlt.
  split; [apply DequeueTask_slot_pop; exact Ht |].
  split; [apply DequeueTask_slot_checkout; assumption |].
  split; [reflexivity |]. split; [reflexivity |]. split.
  { simpl. apply list_lookup_insert_eq. exact Hlt. }
  split; [reflexivity |]. split; [reflexivity |]. split.
  2: { intros [Hall _]. exact Hall. }
  unfold checked_out_to.
  change (slots (evicted s st1) = swap_remove (slots st1) s).
  apply slots_evicted.
  - apply (lengths_ok_popped s t h st Hok).
  - simpl. eapply lookup_lt_Some, Hq.
Qed.

(** C3.  For a slot [s] whose task heap is empty, the single-slot dequeue
    does one of three things.  When the slot's query subtable is of this
    process and its remaining work is zero, the slot is evicted by
    swap-with-last in the four vectors and the call returns [true].  When
    the query subtable is of another process, a flush request for it is
    queued on the table exchange, the number of imported subtables drops by
    one, the slot is evicted and the call returns [true].  Otherwise the
    call returns [false] and the state is as before.  The caller's pair is
    never written. *)
Theorem DequeueTask_slot_empty_heap
    (world : communicator) (s : nat) (task_out : TaskType * Z)
    (want_checkout : bool) (st : Queue) (q : SubTableType) (w : Z) :
  lengths_ok st ->
  tasks_ st !! s = Some [] ->
  query_subtables_ st !! s = Some q ->
  remaining_work_for_query_subtables_ st !! s = Some w ->
  DequeueTask_slot world s task_out want_checkout st
  = (if table_rank q =? rank world then
       if w =? 0 then Returns (evicted s st, task_out, None, true)
       else Returns (st, task_out, None, false)
     else Returns (evicted s (flush_queued q st), task_out, None, true))
  /\ slots (evicted s st) = swap_remove (slots st) s
  /\ table_exchange_ (flush_queued q st)
     = table_exchange_ st ++ [QueueFlushRequest q]
  /\ num_imported_query_subtables_ (evicted s (flush_queued q st))
     = num_imported_query_subtables_ st - 1
  /\ slots (evicted s (flush_queued q st)) = swap_remove (slots st) s.
Proof.
  intros Hok Ht Hq Hw.
  pose proof (lookup_lt_Some _ _ _ Hq) as Hs.
  split; [apply DequeueTask_slot_on_empty_heap; assumption |].
  split; [apply slots_evicted; assumption |].
  split; [reflexivity |]. split; [reflexivity |].
  apply (slots_evicted s (flush_queued q st)); assumption.
Qed.

(** C4.  A replay of [GenerateTasks] with the received ids of a run that
    returned does nothing: it returns the state the first run left, so no
    heap gains a task and the table exchange sees no further lock.  This
    is the effect of the insertion into the assigned set, which fails on
    an interval that meets one already there: a received id whose grid is
    met in the assigned set of every slot of this process and of every
    checked-out entry leaves the state as it is.  The received reference
    subtables hold at least one point. *)
Theorem GenerateTasks_replay
    (world : communicator) (metric_in : MetricType)
    (received_subtable_ids : list (Z * Z * Z * Z)) (st st1 : Queue) :
  Forall (fun id => 0 < snd (fst id)) received_subtable_ids ->
  GenerateTasks world metric_in received_subtable_ids st = Returns st1 ->
  GenerateTasks world metric_in received_subtable_ids st1 = Returns st1
  /\ Forall (fun id => blocked world (reference_grid id) st1)
       received_subtable_ids
  /\ (forall id st2,
        blocked world (reference_grid id) st2 ->
        GenerateTasks world metric_in [id] st2 = Returns st2).
Proof.
  intros Hpos Hrun.
  assert (Hcov : Forall (fun id => covered (reference_grid id)
                                     [reference_grid id])
                   received_subtable_ids).
  { eapply Forall_impl; [exact Hpos |]. simpl. intros id.
    apply reference_grid_covers_itself. }
  destruct (GenerateTasks_blocks world metric_in _ st st1 Hcov Hrun)
    as [Hall _].
  split; [apply GenerateTasks_all_blocked; exact Hall |].
  split; [exact Hall |].
  intros id st2 Hb. simpl.
  rewrite (GenerateTasks_one_blocked world metric_in id st2 Hb).
  reflexivity.
Qed.

(** C5.  In every state a process reaches, the vectors of query
    subtables, task heaps, assigned work and remaining work have one
    length.  The operations that add or remove a slot handle the four
    vectors in step, so that position [i] of each belongs to one query
    subtable: seen as one vector of records, the state after [GrowSlots_]
    or [PushNewQueue] has one record more at the end, after [Evict_] it
    has the record at the evicted position replaced by the last one and
    the last one dropped, after [split_subtree_] it has the record of the
    left child at the split position and the record of the right child at
    the end, and after [Synchronize] it is unchanged or has the record of
    the returned entry at the end. *)
Theorem parallel_vectors_aligned
    (world : communicator) (metric_in : MetricType) (st : Queue) :
  reachable world metric_in st ->
  lengths_ok st
  /\ length (slots st) = length (query_subtables_ st)
  /\ (exists st',
        GrowSlots_ st = Returns st' /\ lengths_ok st'
        /\ slots st'
           = slots st
             ++ [{| slot_subtree := new_SubTableType; slot_tasks := [];
                    slot_assigned := None; slot_remaining_work := 0 |}])
  /\ (forall i st',
        Evict_ i st = Returns st' ->
        lengths_ok st' /\ slots st' = swap_remove (slots st) i)
  /\ (forall s st',
        split_subtree_ world metric_in s st = Returns st' ->
        lengths_ok st'
        /\ exists sl sr,
             slot_assigned sl = slot_assigned sr
             /\ slot_remaining_work sl = slot_remaining_work sr
             /\ length (slot_tasks sl) = length (slot_tasks sr)
             /\ slots st' = <[s := sl]> (slots st) ++ [sr])
  /\ (forall received st',
        Synchronize received st = Returns st' ->
        lengths_ok st'
        /\ (slots st' = slots st
            \/ exists i e,
                 checked_out_query_subtables_ st !! i = Some e
                 /\ slots st'
                    = slots st
                      ++ [slot_of_lock
                            (set_lock_query_subtable_
                               (Copy (lock_query_subtable_ e) received) e)]))
  /\ (forall r q st' i,
        PushNewQueue r q st = Returns (st', i) ->
        lengths_ok st'
        /\ i = length (slots st)
        /\ slots st'
           = slots st
             ++ [{| slot_subtree := set_originating_rank (Alias q) r;
                    slot_tasks := []; slot_assigned := None;
                    slot_remaining_work := 0 |}])
  /\ (forall st', step world metric_in st st' -> lengths_ok st').
Proof.
  intros Hreach.
  destruct (reachable_well_formed world metric_in st Hreach) as [Hok Hacc].
  pose proof Hok as (Ht & Ha & Hw).
  split; [exact Hok |]. split; [apply length_slots; exact Hok |]. split.
  { eexists. split; [reflexivity |]. split.
    - unfold lengths_ok. simpl. rewrite !length_app. simpl. lia.
    - unfold slots. simpl. apply zip_slots_app; assumption. }
  split.
  { intros i st' H. apply Evict_Returns in H as (-> & _ & Hi & _). split.
    - apply lengths_ok_evicted; [exact Hok | lia].
    - apply slots_evicted; assumption. }
  split.
  { intros s st' H.
    destruct (split_subtree__inv world metric_in s st st' Hok H)
      as (q & l & r & a & w & h & Hq & Hl & Hr & Has & Hws & Hh).
    destruct (split_subtree__slots world metric_in s st st' q l r a w h
                Hok Hq Hl Hr Has Hws Hh H) as [Hok' Hslots].
    split; [exact Hok' |]. eexists. eexists.
    split; [| split; [| split; [| exact Hslots]]].
    - reflexivity.
    - reflexivity.
    - simpl. rewrite !length_repush_heap. reflexivity. }
  split.
  { intros received st' H.
    destruct (Synchronize_cases received st)
      as [Hs | (i & e & He & _ & [[_ Hs] | Hs])];
      rewrite Hs in H; injection H as <-.
    - split; [exact Hok | left; reflexivity].
    - split; [apply returned_lengths_ok; exact Hok |].
      right. exists i, e. split; [exact He |].
      unfold slots, returned, Return_. simpl.
      apply zip_slots_app; assumption.
    - split; [exact Hok | left; reflexivity]. }
  split.
  { intros r q st' i H. rewrite PushNewQueue_Returns in H.
    injection H as <- <-. split.
    - unfold lengths_ok. simpl. rewrite !length_app. simpl. lia.
    - split; [rewrite length_slots by exact Hok; lia |].
      unfold slots. simpl. apply zip_slots_app; assumption. }
  intros st' Hstep.
  apply (step_well_formed world metric_in st st' (conj Hok Hacc) Hstep).
Qed.

(** X21.  For a slot [s] whose query subtable is no leaf and has an
    assigned set, [split_subtree_] returns.  The subtable of [s] then
    starts at the left child; one slot is appended whose subtable starts at
    the right child, whose assigned set is a copy of the set of [s], whose
    remaining work is that of [s], and whose heap was created empty.  Each
    task drained from the heap of [s] is pushed once for the left and once
    for the right subtable, with the priority [PushTask] computes from the
    bound of that child, and the table exchange is asked for one cache
    lock per drained task, in the order of draining.  With an empty heap
    both heaps end empty and no lock is taken. *)
Theorem split_subtree_effect
    (world : communicator) (metric_in : MetricType) (s : nat) (st : Queue)
    (q : SubTableType) (a : list interval) (w : Z) (h : list TaskType) :
  lengths_ok st ->
  query_subtables_ st !! s = Some q ->
  is_leaf (start_node q) = false ->
  assigned_work_ st !! s = Some (Some a) ->
  remaining_work_for_query_subtables_ st !! s = Some w ->
  tasks_ st !! s = Some h ->
  exists l r st',
    left (start_node q) = Some l
    /\ right (start_node q) = Some r
    /\ split_subtree_ world metric_in s st = Returns st'
    /\ query_subtables_ st'
       = <[s := set_start_node q l]> (query_subtables_ st)
         ++ [set_start_node q r]
    /\ assigned_work_ st' = assigned_work_ st ++ [Some a]
    /\ remaining_work_for_query_subtables_ st'
       = remaining_work_for_query_subtables_ st ++ [w]
    /\ (exists hl hr,
          tasks_ st' = <[s := hl]> (tasks_ st) ++ [hr]
          /\ hl = repush_heap world metric_in (set_start_node q l) h []
          /\ hr = repush_heap world metric_in (set_start_node q r) h []
          /\ hl ≡ₚ map (fun t => make_task world metric_in
                                   (set_start_node q l)
                                   (reference_subtable t)) h
          /\ hr ≡ₚ map (fun t => make_task world metric_in
                                   (set_start_node q r)
                                   (reference_subtable t)) h)
    /\ (forall reference,
          priority (make_task world metric_in (set_start_node q l) reference)
          = - RangeDistanceSq_mid metric_in (bound l)
                (bound (start_node reference))
            - process_rank_favor_factor_
              * process_rank world (table_rank reference))
    /\ (forall reference,
          priority (make_task world metric_in (set_start_node q r) reference)
          = - RangeDistanceSq_mid metric_in (bound r)
                (bound (start_node reference))
            - process_rank_favor_factor_
              * process_rank world (table_rank reference))
    /\ table_exchange_ st'
       = table_exchange_ st
         ++ map (fun t => LockCache (reference_subtable_cache_block_id t) 1) h
    /\ num_remaining_tasks_ st'
       = num_remaining_tasks_ st - heap_size h + 2 * heap_size h
    /\ checked_out_query_subtables_ st' = checked_out_query_subtables_ st
    /\ (h = [] ->
        tasks_ st' = tasks_ st ++ [[]]
        /\ table_exchange_ st' = table_exchange_ st
        /\ num_remaining_tasks_ st' = num_remaining_tasks_ st
        /\ remaining_local_computation_ st'
           = remaining_local_computation_ st).
Proof.
  intros Hok Hq Hleaf Has Hws Hh.
  destruct (children_of_inner_node _ Hleaf) as (l & r & Hl & Hr).
  destruct (split_subtree__Returns world metric_in s st q l r a w h
              Hok Hq Hl Hr Has Hws Hh)
    as (st' & Hrun & Hqs & Hass & Hrw & Htasks & Hnum & Hloc & Hex & Hco & _).
  exists l, r, st'.
  split; [exact Hl |]. split; [exact Hr |]. split; [exact Hrun |].
  split; [exact Hqs |]. split; [exact Hass |]. split; [exact Hrw |].
  split.
  { eexists. eexists. split; [exact Htasks |].
    split; [reflexivity |]. split; [reflexivity |].
    split; rewrite repush_heap_Permutation, app_nil_r; reflexivity. }
  split; [reflexivity |]. split; [reflexivity |].
  split; [exact Hex |]. split; [exact Hnum |]. split; [exact Hco |].
  intros ->. rewrite Htasks, Hex, Hnum, Hloc. simpl.
  rewrite (list_insert_id _ _ _ Hh), app_nil_r.
  unfold heap_size. simpl. repeat split; try reflexivity. lia.
Qed.

(** C7.  The form of [push_completed_computation] for all query subtables
    lowers the remaining global computation by [quantity] and the remaining
    work of every active slot by [reference_count], leaves the checked-out
    entries as they are, and hands [quantity] to the table exchange.  The
    form for one checked-out entry lowers the remaining global computation
    by [quantity] and the remaining work of that entry alone by
    [reference_count], leaves the active slots as they are, and hands
    [quantity] to the table exchange.  The subtractions are those of
    64-bit unsigned integers; they are exact when the subtrahend does not
    exceed the counter. *)
Theorem push_completed_computation_effect
    (reference_count quantity : Z) (st : Queue) :
  lengths_ok st ->
  (exists st',
     push_completed_computation reference_count quantity st = Returns st'
     /\ remaining_global_computation_ st'
        = wrap64 (remaining_global_computation_ st - quantity)
     /\ (0 <= quantity <= remaining_global_computation_ st ->
         remaining_global_computation_ st < two64 ->
         remaining_global_computation_ st'
         = remaining_global_computation_ st - quantity)
     /\ remaining_work_for_query_subtables_ st'
        = map (fun w => wrap64 (w - reference_count))
            (remaining_work_for_query_subtables_ st)
     /\ (forall i w,
           remaining_work_for_query_subtables_ st !! i = Some w ->
           0 <= reference_count <= w -> w < two64 ->
           remaining_work_for_query_subtables_ st' !! i
           = Some (w - reference_count))
     /\ checked_out_query_subtables_ st' = checked_out_query_subtables_ st
     /\ table_exchange_ st'
        = table_exchange_ st ++ [PushCompletedComputation quantity])
  /\ (forall it e,
        checked_out_query_subtables_ st !! it = Some e ->
        exists st',
          push_completed_computation_lock reference_count quantity it st
          = Returns st'
          /\ remaining_global_computation_ st'
             = wrap64 (remaining_global_computation_ st - quantity)
          /\ (0 <= quantity <= remaining_global_computation_ st ->
              remaining_global_computation_ st < two64 ->
              remaining_global_computation_ st'
              = remaining_global_computation_ st - quantity)
          /\ checked_out_query_subtables_ st'
             = <[it := set_lock_remaining_work_
                         (wrap64 (lock_remaining_work_for_query_subtable_ e
                                  - reference_count)) e]>
                 (checked_out_query_subtables_ st)
          /\ (0 <= reference_count
                <= lock_remaining_work_for_query_subtable_ e ->
              lock_remaining_work_for_query_subtable_ e < two64 ->
              lock_remaining_work_for_query_subtable_
                <$> checked_out_query_subtables_ st' !! it
              = Some (lock_remaining_work_for_query_subtable_ e
                      - reference_count))
          /\ remaining_work_for_query_subtables_ st'
             = remaining_work_for_query_subtables_ st
          /\ table_exchange_ st'
             = table_exchange_ st ++ [PushCompletedComputation quantity]).
Proof.
  intros (Ht & Ha & Hw). split.
  - unfold push_completed_computation. simpl.
    rewrite <- Hw, subtract_remaining_work_all. simpl.
    eexists. split; [reflexivity |]. simpl.
    split; [reflexivity |]. split.
    { intros Hq Hlt. apply wrap64_exact. lia. }
    split; [reflexivity |]. split.
    { intros i w Hi Hrc Hlt.
      change (map (fun w => wrap64 (w - reference_count))
                (remaining_work_for_query_subtables_ st))
        with ((fun w => wrap64 (w - reference_count))
                <$> remaining_work_for_query_subtables_ st).
      rewrite list_lookup_fmap, Hi. simpl. f_equal.
      apply wrap64_exact. lia. }
    split; reflexivity.
  - intros it e He. unfold push_completed_computation_lock. simpl.
    rewrite He. eexists. split; [reflexivity |]. simpl.
    split; [reflexivity |]. split.
    { intros Hq Hlt. apply wrap64_exact. lia. }
    split; [reflexivity |]. split.
    { intros Hrc Hlt.
      rewrite list_lookup_insert_eq by (eapply lookup_lt_Some, He).
      simpl. f_equal. apply wrap64_exact. lia. }
    split; reflexivity.
Qed.

(** C8, as the code has it.  [PushNewQueue] appends one slot: a view of
    the given query subtable with its originating rank set, remaining work
    [0], an empty task heap, and a null pointer where the assigned work
    would be (no interval set is allocated).  It adds one to the number of
    imported subtables, returns the position of the new slot, the last
    one, and leaves the slots that were there as they were. *)
Theorem PushNewQueue_effect
    (originating_rank_in : Z) (query_subtable_in : SubTableType)
    (st : Queue) :
  exists st',
    PushNewQueue originating_rank_in query_subtable_in st
    = Returns (st', length (tasks_ st))
    /\ query_subtables_ st'
       = query_subtables_ st
         ++ [set_originating_rank (Alias query_subtable_in)
               originating_rank_in]
    /\ originating_rank
         (set_originating_rank (Alias query_subtable_in) originating_rank_in)
       = originating_rank_in
    /\ remaining_work_for_query_subtables_ st'
       = remaining_work_for_query_subtables_ st ++ [0]
    /\ tasks_ st' = tasks_ st ++ [[]]
    /\ assigned_work_ st' = assigned_work_ st ++ [None]
    /\ num_imported_query_subtables_ st'
       = num_imported_query_subtables_ st + 1
    /\ length (tasks_ st') = S (length (tasks_ st))
    /\ checked_out_query_subtables_ st' = checked_out_query_subtables_ st
    /\ num_exported_query_subtables_ st' = num_exported_query_subtables_ st
    /\ num_remaining_tasks_ st' = num_remaining_tasks_ st
    /\ remaining_local_computation_ st' = remaining_local_computation_ st
    /\ remaining_global_computation_ st' = remaining_global_computation_ st
    /\ table_exchange_ st' = table_exchange_ st
    /\ (lengths_ok st ->
        slots st'
        = slots st
          ++ [{| slot_subtree :=
                   set_originating_rank (Alias query_subtable_in)
                     originating_rank_in;
                 slot_tasks := [];
                 slot_assigned := None;
                 slot_remaining_work := 0 |}]).
Proof.
  exists (with_new_queue originating_rank_in query_subtable_in st).
  split; [apply PushNewQueue_Returns |].
  repeat (split; [reflexivity |]).
  split. { simpl. rewrite length_app. simpl. lia. }
  repeat (split; [reflexivity |]).
  intros (Ht & Ha & Hw). unfold slots. simpl.
  apply zip_slots_app; assumption.
Qed.

(** C9, as the code has it.  A [Synchronize] that finds no checked-out
    entry including the received subtable returns and leaves the state as
    it was.  The two decrements return as well; they subtract as 64-bit
    unsigned integers do, so that a decrement larger than the counter
    wraps around. *)
Theorem invariant_violations_continue
    (received : SubTableType) (d : Z) (st : Queue) :
  Forall (fun e => includes (lock_query_subtable_ e) received = false)
    (checked_out_query_subtables_ st) ->
  Synchronize received st = Returns st
  /\ decrement_remaining_local_computation d st
     = Returns (set_remaining_local_computation_
                  (wrap64 (remaining_local_computation_ st - d)) st)
  /\ decrement_remaining_global_computation d st
     = Returns (set_remaining_global_computation_
                  (wrap64 (remaining_global_computation_ st - d)) st)
  /\ (forall c, 0 <= c < d -> d <= two64 -> wrap64 (c - d) = c - d + two64).
Proof.
  intros H. split.
  { unfold Synchronize. rewrite find_including_None by exact H. reflexivity. }
  split; [reflexivity |]. split; [reflexivity |].
  intros c Hc Hd. unfold wrap64.
  symmetry. apply (Z.mod_unique _ _ (-1)); unfold two64 in *; lia.
Qed.

(** C10, as the code has it.  [Print] takes the top of every heap, of the
    active slots and of the checked-out entries, before it looks at the
    size: in a state that holds an empty heap it takes the top of an empty
    heap.  [CheckIntegrity] does the same heap by heap, but only while no
    task was found that references the subtable: an empty heap is reached
    when no heap before it holds such a task, and it is not looked at when
    a heap before it does and the heaps up to that one are non-empty.  When
    no heap is empty both operations return. *)
Theorem top_of_empty_heap (destruct_id : SubTableIDType) (st : Queue) :
  lengths_ok st ->
  (In [] (all_heaps st) -> Print st = Faults EmptyTop)
  /\ (forall pre post,
        all_heaps st = pre ++ [] :: post ->
        Forall (fun h => scan_storage destruct_id h = false) pre ->
        CheckIntegrity destruct_id st = Faults EmptyTop)
  /\ (forall pre h post,
        all_heaps st = pre ++ h :: post ->
        Forall (fun h => h <> []) pre ->
        scan_storage destruct_id h = true ->
        CheckIntegrity destruct_id st = Returns true)
  /\ (Forall (fun h => h <> []) (all_heaps st) ->
      CheckIntegrity destruct_id st
      = Returns (existsb (scan_storage destruct_id) (all_heaps st))
      /\ Print st
         = Returns (map active_line (slots st)
                    ++ map checked_out_line
                         (checked_out_query_subtables_ st))).
Proof.
  intros Hok. split; [apply Print_empty; exact Hok |]. split.
  { intros pre post Hsplit Hpre.
    rewrite CheckIntegrity_scan, Hsplit by exact Hok.
    apply scan_heaps_reaches_empty. exact Hpre. }
  split.
  { intros pre h post Hsplit Hpre Hh.
    rewrite CheckIntegrity_scan, Hsplit by exact Hok.
    apply scan_heaps_stops_at_match; assumption. }
  intros Hne. split.
  - rewrite CheckIntegrity_scan by exact Hok.
    rewrite scan_heaps_nonempty by exact Hne. reflexivity.
  - apply Print_nonempty; assumption.
Qed.

(** * Further properties of the operations *)

(** ** The choice of the slot to split *)

Lemma splittable_count (st : Queue) (i : nat) (c c' : Z) :
  splittable st i c -> splittable st i c' -> c = c'.
Proof.
  intros (q & h & Hq & _ & _ & _ & <-) (q' & h' & Hq' & _ & _ & _ & <-).
  rewrite Hq in Hq'. injection Hq' as <-. reflexivity.
Qed.

Lemma find_split_Returns (st : Queue) (n i : nat) (sz : Z)
    (best r : option nat) :
  find_split st n i sz best = Returns r ->
  (r = best
   /\ forall k c, (i <= k < i + n)%nat -> splittable st k c -> c <= sz)
  \/ exists j cj,
       r = Some j /\ (i <= j < i + n)%nat /\ splittable st j cj /\ sz < cj
       /\ (forall k c, (i <= k < i + n)%nat -> splittable st k c -> c <= cj)
       /\ (forall k c, (i <= k < j)%nat -> splittable st k c -> c < cj).
Proof.
  revert i sz best. induction n as [| n IH]; intros i sz best H.
  - injection H as <-. left. split; [reflexivity |]. intros k c Hk. lia.
  - assert (Hskip :
      find_split st n (S i) sz best = Returns r ->
      (forall c, splittable st i c -> c <= sz) ->
      (r = best
       /\ forall k c, (i <= k < i + S n)%nat -> splittable st k c -> c <= sz)
      \/ exists j cj,
           r = Some j /\ (i <= j < i + S n)%nat /\ splittable st j cj
           /\ sz < cj
           /\ (forall k c, (i <= k < i + S n)%nat -> splittable st k c ->
               c <= cj)
           /\ (forall k c, (i <= k < j)%nat -> splittable st k c -> c < cj)).
    { intros Hrun Hi.
      destruct (IH (S i) sz best Hrun)
        as [[-> Hnone] | (j & cj & -> & Hj & Hsj & Hlt & Hmax & Hfirst)].
      - left. split; [reflexivity |]. intros k c Hk Hs.
        destruct (decide (k = i)) as [-> | Hne].
        + apply Hi. exact Hs.
        + apply (Hnone k c); [lia | exact Hs].
      - right. exists j, cj. split; [reflexivity |]. split; [lia |].
        split; [exact Hsj |]. split; [lia |]. split.
        + intros k c Hk Hs. destruct (decide (k = i)) as [-> | Hne].
          * specialize (Hi c Hs). lia.
          * apply (Hmax k c); [lia | exact Hs].
        + intros k c Hk Hs. destruct (decide (k = i)) as [-> | Hne].
          * specialize (Hi c Hs). lia.
          * apply (Hfirst k c); [lia | exact Hs]. }
    simpl in H.
    destruct (vec_get (query_subtables_ st) i) as [q |] eqn:Eq;
      [| discriminate].
    apply vec_get_Returns in Eq. cbn [outcome_bind] in H.
    destruct (is_leaf (start_node q)) eqn:El.
    { apply Hskip; [exact H |].
      intros c (q' & h' & Hq' & _ & Hl' & _).
      rewrite Eq in Hq'. injection Hq' as <-. congruence. }
    destruct (vec_get (tasks_ st) i) as [h |] eqn:Et; [| discriminate].
    apply vec_get_Returns in Et. cbn [outcome_bind] in H.
    destruct (0 <? heap_size h) eqn:Eh; cbn [andb] in H.
    2:{ apply Hskip; [exact H |].
        intros c (q' & h' & _ & Hh' & _ & Hne & _).
        rewrite Et in Hh'. injection Hh' as <-.
        apply Z.ltb_ge in Eh. unfold heap_size in Eh.
        destruct h; [congruence | simpl in Eh; lia]. }
    destruct (sz <? count (start_node q)) eqn:Ec.
    2:{ apply Hskip; [exact H |].
        intros c (q' & h' & Hq' & _ & _ & _ & <-).
        rewrite Eq in Hq'. injection Hq' as <-.
        apply Z.ltb_ge in Ec. exact Ec. }
    apply Z.ltb_lt in Ec.
    assert (Hsi : splittable st i (count (start_node q))).
    { exists q, h. repeat split; try assumption.
      intros ->. discriminate. }
    destruct (IH (S i) _ _ H)
      as [[-> Hnone] | (j & cj & -> & Hj & Hsj & Hlt & Hmax & Hfirst)].
    + right. exists i, (count (start_node q)). split; [reflexivity |].
      split; [lia |]. split; [exact Hsi |]. split; [exact Ec |]. split.
      * intros k c Hk Hs. destruct (decide (k = i)) as [-> | Hne].
        -- rewrite (splittable_count _ _ _ _ Hs Hsi). lia.
        -- apply (Hnone k c); [lia | exact Hs].
      * intros k c Hk. lia.
    + right. exists j, cj. split; [reflexivity |]. split; [lia |].
      split; [exact Hsj |]. split; [lia |]. split.
      * intros k c Hk Hs. destruct (decide (k = i)) as [-> | Hne].
        -- rewrite (splittable_count _ _ _ _ Hs Hsi). lia.
        -- apply (Hmax k c); [lia | exact Hs].
      * intros k c Hk Hs. destruct (decide (k = i)) as [-> | Hne].
        -- rewrite (splittable_count _ _ _ _ Hs Hsi). lia.
        -- apply (Hfirst k c); [lia | exact Hs].
Qed.

Lemma find_split_total (st : Queue) (n i : nat) (sz : Z) (best : option nat) :
  lengths_ok st ->
  (i + n <= length (query_subtables_ st))%nat ->
  exists r, find_split st n i sz best = Returns r.
Proof.
  intros Hok. revert i sz best.
  induction n as [| n IH]; intros i sz best Hn; [eexists; reflexivity |].
  destruct Hok as (Ht & _).
  destruct (lookup_lt_is_Some_2 (query_subtables_ st) i) as [q Hq]; [lia |].
  destruct (lookup_lt_is_Some_2 (tasks_ st) i) as [h Hh]; [lia |].
  simpl. rewrite (proj2 (vec_get_Returns _ _ _) Hq). cbn [outcome_bind].
  destruct (is_leaf (start_node q)); [apply IH; lia |].
  rewrite (proj2 (vec_get_Returns _ _ _) Hh). cbn [outcome_bind].
  destruct ((0 <? heap_size h) && (sz <? count (start_node q)));
    apply IH; lia.
Qed.

Lemma find_split_none (st : Queue) :
  lengths_ok st ->
  (forall i c, splittable st i c -> c <= 0) ->
  find_split st (length (query_subtables_ st)) 0 0 None = Returns None.
Proof.
  intros Hok Hnone.
  destruct (find_split_total st (length (query_subtables_ st)) 0 0 None Hok)
    as [r Hr]; [lia |].
  rewrite Hr. f_equal.
  destruct (find_split_Returns _ _ _ _ _ _ Hr)
    as [[-> _] | (j & cj & _ & _ & Hsj & Hlt & _)]; [reflexivity |].
  specialize (Hnone j cj Hsj). lia.
Qed.

Lemma find_split_choice (st : Queue) (j : nat) (c : Z) :
  lengths_ok st ->
  splittable st j c ->
  0 < c ->
  (forall k c', splittable st k c' -> c' <= c) ->
  (forall k c', (k < j)%nat -> splittable st k c' -> c' < c) ->
  find_split st (length (query_subtables_ st)) 0 0 None = Returns (Some j).
Proof.
  intros Hok Hj Hc Hmax Hfirst.
  destruct (find_split_total st (length (query_subtables_ st)) 0 0 None Hok)
    as [r Hr]; [lia |].
  rewrite Hr. f_equal.
  assert (Hjlt : (j < length (query_subtables_ st))%nat).
  { destruct Hj as (q & h & Hq & _). exact (lookup_lt_Some _ _ _ Hq). }
  destruct (find_split_Returns _ _ _ _ _ _ Hr)
    as [[-> Hnone] | (j' & cj & -> & Hj' & Hsj & Hlt & Hmax' & Hfirst')].
  - specialize (Hnone j c). assert (c <= 0) by (apply Hnone; [lia | exact Hj]).
    lia.
  - assert (Hle : cj <= c) by exact (Hmax _ _ Hsj).
    assert (Hge : c <= cj) by (apply (Hmax' j c); [lia | exact Hj]).
    destruct (lt_eq_lt_dec j j') as [[Hlt' | ->] | Hgt]; [| reflexivity |].
    + assert (c < cj) by (apply (Hfirst' j c); [lia | exact Hj]). lia.
    + assert (cj < c) by exact (Hfirst _ _ Hgt Hsj). lia.
Qed.

(** X1. [RedistributeAmongCores_] changes nothing when no slot can be split:
    every slot is a leaf, has an empty heap, or has no point to share. *)
Theorem RedistributeAmongCores_nothing_to_split (world : communicator)
    (metric_in : MetricType) (st : Queue) :
  lengths_ok st ->
  (forall i c, splittable st i c -> c <= 0) ->
  RedistributeAmongCores_ world metric_in st = Returns st.
Proof.
  intros Hok Hnone. unfold RedistributeAmongCores_.
  rewrite (find_split_none st Hok Hnone). reflexivity.
Qed.

(** X2. [RedistributeAmongCores_] splits the slot whose subtable holds the
    most points among the slots that are no leaf and have a task; of several
    such slots of the same size the first one is split. *)
Theorem RedistributeAmongCores_splits_largest (world : communicator)
    (metric_in : MetricType) (st : Queue) (j : nat) (c : Z) :
  lengths_ok st ->
  splittable st j c ->
  0 < c ->
  (forall k c', splittable st k c' -> c' <= c) ->
  (forall k c', (k < j)%nat -> splittable st k c' -> c' < c) ->
  RedistributeAmongCores_ world metric_in st
  = split_subtree_ world metric_in j st.
Proof.
  intros Hok Hj Hc Hmax Hfirst. unfold RedistributeAmongCores_.
  rewrite (find_split_choice st j c Hok Hj Hc Hmax Hfirst). reflexivity.
Qed.

(** ** The scanning loop of [DequeueTask] *)

Lemma DequeueTask_slot_cases (world : communicator) (i : nat)
    (task_out : TaskType * Z) (want : bool) (st : Queue) :
  lengths_ok st -> (i < length (tasks_ st))%nat ->
  exists st' task it cleaned,
    DequeueTask_slot world i task_out want st
    = Returns (st', task, it, cleaned)
    /\ lengths_ok st'
    /\ (length (tasks_ st') - (if cleaned then i else S i)
        < length (tasks_ st) - i)%nat
    /\ ((tasks_ st !! i = Some [] /\ task = task_out /\ it = None
         /\ num_remaining_tasks_ st' = num_remaining_tasks_ st
         /\ (if cleaned then tasks_ st' = swap_remove (tasks_ st) i
             else st' = st))
        \/ exists t h,
             tasks_ st !! i = Some (t :: h)
             /\ task = (t, Z.of_nat i) /\ cleaned = false
             /\ it = (if want then Some 0%nat else None)
             /\ num_remaining_tasks_ st' = num_remaining_tasks_ st - 1).
Proof.
  intros Hok Hi. pose proof Hok as (Ht & Ha & Hw).
  destruct (lookup_lt_is_Some_2 (tasks_ st) i Hi) as [h Hh].
  destruct (lookups_of_slot i st Hok Hi) as (a & q & w & Has & Hq & Hws).
  assert (Hev : forall st0, lengths_ok st0 ->
                  length (tasks_ st0) = length (tasks_ st) ->
                  lengths_ok (evicted i st0)
                  /\ (length (tasks_ (evicted i st0)) - i
                      < length (tasks_ st) - i)%nat).
  { intros st0 Hok0 Heq. pose proof Hok0 as (Ht0 & _). split.
    - apply lengths_ok_evicted; [exact Hok0 | lia].
    - simpl. rewrite length_swap_remove by lia. lia. }
  destruct h as [| t h].
  - rewrite (DequeueTask_slot_on_empty_heap world i task_out want st q w)
      by assumption.
    destruct (table_rank q =? rank world).
    + destruct (w =? 0).
      * do 4 eexists. split; [reflexivity |].
        destruct (Hev st Hok eq_refl) as [Hok' Hlt].
        split; [exact Hok' |]. split; [exact Hlt |]. left.
        repeat split; try reflexivity. exact Hh.
      * do 4 eexists. split; [reflexivity |].
        split; [exact Hok |]. split; [cbv iota; lia |]. left.
        repeat split; try reflexivity. exact Hh.
    + do 4 eexists. split; [reflexivity |].
      destruct (Hev (flush_queued q st)) as [Hok' Hlt]; auto.
      split; [exact Hok' |]. split; [exact Hlt |]. left.
      repeat split; try reflexivity. exact Hh.
  - destruct want.
    + rewrite (DequeueTask_slot_checkout world i task_out st t h a q w)
        by assumption.
      do 4 eexists. split; [reflexivity |].
      destruct (Hev (popped i t h st)) as [Hok' Hlt].
      { apply lengths_ok_popped. exact Hok. }
      { simpl. apply length_insert. }
      split; [exact Hok' |]. split.
      { cbv iota.
        change (tasks_ (checked_out_to i _ (popped i t h st)))
          with (tasks_ (evicted i (popped i t h st))).
        lia. }
      right. exists t, h. repeat split; try reflexivity. exact Hh.
    + rewrite (DequeueTask_slot_pop world i task_out st t h Hh).
      do 4 eexists. split; [reflexivity |]. split.
      { apply lengths_ok_popped. exact Hok. }
      split; [simpl; rewrite length_insert; lia |].
      right. exists t, h. repeat split; try reflexivity. exact Hh.
Qed.

Lemma DequeueTask_scan_post (world : communicator) (fuel : nat)
    (probe_index : nat) (task_out : TaskType * Z) (want : bool)
    (it : option nat) (st : Queue) (n0 : Z) :
  lengths_ok st ->
  (length (tasks_ st) - probe_index <= fuel)%nat ->
  (snd task_out < 0 ->
   empty_before probe_index st /\ num_remaining_tasks_ st = n0) ->
  (0 <= snd task_out -> num_remaining_tasks_ st = n0 - 1) ->
  exists st' task' it',
    DequeueTask_scan fuel world probe_index task_out want it st
    = Returns (st', task', it')
    /\ lengths_ok st'
    /\ (snd task' < 0 ->
        Forall (fun h => h = []) (tasks_ st')
        /\ num_remaining_tasks_ st' = n0)
    /\ (0 <= snd task' -> num_remaining_tasks_ st' = n0 - 1).
Proof.
  revert probe_index task_out it st.
  induction fuel as [| fuel IH]; intros i task_out it st Hok Hfuel Hneg Hpos.
  - assert (Hi : (i <? length (tasks_ st))%nat = false)
      by (apply Nat.ltb_ge; lia).
    simpl. rewrite Hi, andb_false_r.
    do 3 eexists. split; [reflexivity |]. split; [exact Hok |].
    split; [| exact Hpos].
    intros Hlt. destruct (Hneg Hlt) as [Hemp Hnum]. split; [| exact Hnum].
    apply Forall_lookup. intros j h Hj. apply (Hemp j h); [| exact Hj].
    apply lookup_lt_Some in Hj. lia.
  - simpl.
    destruct (snd task_out <? 0) eqn:Es; cbn [andb].
    2: { apply Z.ltb_ge in Es.
         do 3 eexists. split; [reflexivity |]. split; [exact Hok |].
         split; [cbn [snd]; lia | exact Hpos]. }
    apply Z.ltb_lt in Es. destruct (Hneg Es) as [Hemp Hnum].
    destruct (i <? length (tasks_ st))%nat eqn:Ei.
    2: { apply Nat.ltb_ge in Ei.
         do 3 eexists. split; [reflexivity |]. split; [exact Hok |].
         split; [| exact Hpos].
         intros _. split; [| exact Hnum].
         apply Forall_lookup. intros j h Hj. apply (Hemp j h); [| exact Hj].
         apply lookup_lt_Some in Hj. lia. }
    apply Nat.ltb_lt in Ei.
    destruct (DequeueTask_slot_cases world i task_out want st Hok Ei)
      as (st1 & task1 & it1 & cleaned & Hrun & Hok1 & Hlt & Hcase).
    rewrite Hrun. cbn [outcome_bind]. apply IH; [exact Hok1 | lia | |].
    + intros Hs1.
      destruct Hcase as [(Hh & -> & _ & Hn1 & Hst1)
                        | (t & h & _ & -> & _ & _ & _)];
        [| cbn [snd] in Hs1; lia].
      split; [| lia].
      destruct cleaned.
      * intros j h Hj Hlook. rewrite Hst1 in Hlook.
        rewrite lookup_swap_remove in Hlook by exact Ei.
        destruct (decide (j < Nat.pred (length (tasks_ st)))%nat);
          [| discriminate].
        destruct (decide (i = j)); [lia |].
        exact (Hemp j h Hj Hlook).
      * subst st1. intros j h Hj Hlook.
        destruct (decide (j = i)) as [-> | Hne].
        -- rewrite Hh in Hlook. injection Hlook as <-. reflexivity.
        -- apply (Hemp j h); [lia | exact Hlook].
    + intros Hs1.
      destruct Hcase as [(_ & -> & _) | (t & h & _ & _ & _ & _ & Hn1)];
        [lia | lia].
Qed.

Lemma RedistributeAmongCores__lengths_ok (world : communicator)
    (metric_in : MetricType) (st st' : Queue) :
  lengths_ok st ->
  RedistributeAmongCores_ world metric_in st = Returns st' ->
  lengths_ok st'.
Proof.
  intros Hok H. unfold RedistributeAmongCores_ in H.
  destruct (find_split st (length (query_subtables_ st)) 0 0 None)
    as [[s |] |]; cbn [outcome_bind] in H; [| congruence | discriminate].
  destruct (split_subtree__inv world metric_in s st st' Hok H)
    as (q & l & r & a & w & h & Hq & Hl & Hr & Ha & Hw & Hh).
  exact (proj1 (split_subtree__slots world metric_in s st st' q l r a w h
                  Hok Hq Hl Hr Ha Hw Hh H)).
Qed.

(** X3. The scanning [DequeueTask], called with a pair whose index is
    negative, returns once its redistribution has.  Either it hands out no
    task, and then no active slot holds a task any more and the number of
    remaining tasks is the one the redistribution left; or it hands out one
    task and the number of remaining tasks is one less. *)
Theorem DequeueTask_finds_a_task_or_all_empty (world : communicator)
    (thread_id : Z) (metric_in : MetricType) (task_out : TaskType * Z)
    (want : bool) (st st1 : Queue) :
  lengths_ok st ->
  snd task_out < 0 ->
  (if Z.of_nat (length (tasks_ st)) <? num_threads_ st
   then RedistributeAmongCores_ world metric_in st
   else Returns st) = Returns st1 ->
  exists st' task' it',
    DequeueTask world thread_id metric_in task_out want st
    = Returns (st', task', it')
    /\ lengths_ok st'
    /\ ((snd task' < 0
         /\ Forall (fun h => h = []) (tasks_ st')
         /\ num_remaining_tasks_ st' = num_remaining_tasks_ st1)
        \/ (0 <= snd task'
            /\ num_remaining_tasks_ st'
               = num_remaining_tasks_ st1 - 1)).
Proof.
  intros Hok Hneg Hre. unfold DequeueTask. rewrite Hre. cbn [outcome_bind].
  assert (Hok1 : lengths_ok st1).
  { destruct (Z.of_nat (length (tasks_ st)) <? num_threads_ st).
    - exact (RedistributeAmongCores__lengths_ok _ _ _ _ Hok Hre).
    - injection Hre as <-. exact Hok. }
  destruct (DequeueTask_scan_post world (length (tasks_ st1)) 0 task_out want
              None st1 (num_remaining_tasks_ st1) Hok1)
    as (st' & task' & it' & Hrun & Hok' & Hnone & Hsome).
  - lia.
  - intros _. split; [| reflexivity]. intros j h Hj. lia.
  - intros Hge. lia.
  - exists st', task', it'. split; [exact Hrun |]. split; [exact Hok' |].
    destruct (Z.lt_ge_cases (snd task') 0) as [Hlt | Hge].
    + left. split; [exact Hlt |]. exact (Hnone Hlt).
    + right. split; [exact Hge |]. exact (Hsome Hge).
Qed.

(** ** Emptiness *)

Lemma total_tasks_nonneg (hs : list (list TaskType)) : 0 <= total_tasks hs.
Proof.
  induction hs as [| h hs IH]; simpl; [lia |]. unfold heap_size. lia.
Qed.

Lemma total_tasks_zero (hs : list (list TaskType)) :
  total_tasks hs = 0 <-> Forall (fun h => h = []) hs.
Proof.
  induction hs as [| h hs IH]; simpl.
  - split; [constructor | reflexivity].
  - pose proof (total_tasks_nonneg hs) as Hnn. unfold heap_size. split.
    + intros H. constructor.
      * destruct h; [reflexivity | simpl in H; lia].
      * apply IH. lia.
    + intros H. inversion H as [| ? ? -> Hrest]; subst.
      apply IH in Hrest. simpl. lia.
Qed.

(** X4. In every state a process reaches, [is_empty] answers [true]
    exactly when no heap holds a task, neither the heap of an active slot
    nor the heap of a checked-out entry. *)
Theorem is_empty_iff_no_task (world : communicator) (metric_in : MetricType)
    (st : Queue) :
  reachable world metric_in st ->
  is_empty st = true <-> Forall (fun h => h = []) (all_heaps st).
Proof.
  intros Hr.
  destruct (reachable_well_formed world metric_in st Hr) as [_ [Hnum _]].
  unfold is_empty. rewrite Z.eqb_eq, Hnum. apply total_tasks_zero.
Qed.

(** ** [top], [pop] and the single-slot dequeue *)

(** X5. On a slot whose heap holds a task, [top] gives the task that the
    single-slot [DequeueTask] hands out, and [pop] leaves the state that
    this [DequeueTask] leaves when no checkout is asked for.  On a slot
    whose heap is empty [top] and [pop] take the top of an empty heap,
    where [DequeueTask] returns. *)
Theorem pop_is_dequeue_without_checkout (world : communicator) (i : nat)
    (task_out : TaskType * Z) (st : Queue) (h : list TaskType) :
  lengths_ok st ->
  tasks_ st !! i = Some h ->
  match h with
  | t :: _ =>
      exists st',
        top i st = Returns t
        /\ pop i st = Returns st'
        /\ DequeueTask_slot world i task_out false st
           = Returns (st', (t, Z.of_nat i), None, false)
  | [] =>
      top i st = Faults EmptyTop
      /\ pop i st = Faults EmptyTop
      /\ returns (DequeueTask_slot world i task_out false st)
  end.
Proof.
  intros Hok Hh. destruct h as [| t h].
  - unfold top, pop. rewrite (proj2 (vec_get_Returns _ _ _) Hh).
    split; [reflexivity |]. split; [reflexivity |].
    destruct (DequeueTask_slot_progress world i task_out false st Hok)
      as (st' & task & it & cleaned & Hrun & _).
    { exact (lookup_lt_Some _ _ _ Hh). }
    eexists. exact Hrun.
  - exists (popped i t h st). unfold top, pop.
    rewrite (proj2 (vec_get_Returns _ _ _) Hh). cbn [outcome_bind heap_top].
    split; [reflexivity |]. split.
    + cbn [heap_pop outcome_bind]. unfold vec_set.
      change (tasks_ (set_remaining_local_computation_ _ st))
        with (tasks_ st).
      rewrite Hh. reflexivity.
    + apply DequeueTask_slot_pop. exact Hh.
Qed.

(** ** Push and dequeue *)

Lemma heap_push_above_top (t : TaskType) (h : list TaskType) :
  (forall u, head h = Some u -> priority u < priority t) ->
  heap_push t h = t :: h.
Proof.
  intros Htop. destruct h as [| u h]; [reflexivity |]. simpl.
  assert (Hlt : priority u < priority t) by (apply Htop; reflexivity).
  apply Z.ltb_lt in Hlt. rewrite Hlt. reflexivity.
Qed.

(** X6. A task pushed onto a slot with a priority above that of the task
    on top of the slot's heap (or onto an empty heap) is the task the next
    single-slot [DequeueTask] of that slot hands out.  After the two calls
    the heaps and the number of remaining tasks are as before, and so is
    the whole state when the remaining local computation was a 64-bit
    unsigned value. *)
Theorem PushTask_then_DequeueTask (world : communicator)
    (metric_in : MetricType) (i : nat) (reference : SubTableType)
    (task_out : TaskType * Z) (st : Queue) (q : SubTableType)
    (h : list TaskType) :
  query_subtables_ st !! i = Some q ->
  tasks_ st !! i = Some h ->
  (forall u, head h = Some u ->
             priority u < task_priority world metric_in q reference) ->
  exists st1 st2,
    PushTask world metric_in i reference st = Returns st1
    /\ DequeueTask_slot world i task_out false st1
       = Returns (st2, (make_task world metric_in q reference, Z.of_nat i),
                  None, false)
    /\ tasks_ st2 = tasks_ st
    /\ num_remaining_tasks_ st2 = num_remaining_tasks_ st
    /\ remaining_local_computation_ st2
       = wrap64 (remaining_local_computation_ st)
    /\ (0 <= remaining_local_computation_ st < two64 -> st2 = st).
Proof.
  intros Hq Hh Htop.
  set (t := make_task world metric_in q reference).
  assert (Hpush : heap_push t h = t :: h)
    by (apply heap_push_above_top; exact Htop).
  assert (Hlook : tasks_ (pushed i t h st) !! i = Some (t :: h)).
  { simpl. rewrite Hpush. apply list_lookup_insert_eq.
    exact (lookup_lt_Some _ _ _ Hh). }
  exists (pushed i t h st), (popped i t h (pushed i t h st)).
  split; [exact (PushTask_in_range world metric_in i reference q h st Hq Hh) |].
  split; [exact (DequeueTask_slot_pop world i task_out _ t h Hlook) |].
  assert (Htasks : tasks_ (popped i t h (pushed i t h st)) = tasks_ st).
  { simpl. rewrite list_insert_insert_eq. apply list_insert_id. exact Hh. }
  assert (Hnum : num_remaining_tasks_ (popped i t h (pushed i t h st))
                 = num_remaining_tasks_ st) by (simpl; lia).
  assert (Hloc : remaining_local_computation_ (popped i t h (pushed i t h st))
                 = wrap64 (remaining_local_computation_ st)).
  { simpl. rewrite wrap64_sub_l. f_equal. lia. }
  split; [exact Htasks |]. split; [exact Hnum |]. split; [exact Hloc |].
  intros Hrange.
  apply Queue_eq; try reflexivity; try assumption.
  rewrite Hloc. apply wrap64_exact. exact Hrange.
Qed.

(** ** A new queue for an imported subtable *)

(** X7. A slot made by [PushNewQueue] has an empty heap, so the single-slot
    [DequeueTask] at the position [PushNewQueue] returned removes it at
    once.  For a query subtable of another process the slot is flushed: the
    state is the one before [PushNewQueue], with one flush request for the
    subtable handed to the table exchange.  For a query subtable of this
    process the slot is evicted without a flush, and the number of imported
    subtables stays one higher than before. *)
Theorem PushNewQueue_then_DequeueTask (world : communicator)
    (originating_rank_in : Z) (query_subtable_in : SubTableType)
    (task_out : TaskType * Z) (want : bool) (st : Queue) :
  lengths_ok st ->
  exists st1 i,
    PushNewQueue originating_rank_in query_subtable_in st = Returns (st1, i)
    /\ DequeueTask_slot world i task_out want st1
       = Returns
           (if table_rank query_subtable_in =? rank world
            then set_num_imported_query_subtables_
                   (num_imported_query_subtables_ st + 1) st
            else exchange_call
                   (QueueFlushRequest
                      (set_originating_rank (Alias query_subtable_in)
                         originating_rank_in)) st,
            task_out, None, true).
Proof.
  intros Hok. pose proof Hok as (Ht & Ha & Hw).
  set (q := set_originating_rank (Alias query_subtable_in)
              originating_rank_in).
  exists (with_new_queue originating_rank_in query_subtable_in st),
         (length (tasks_ st)).
  split; [apply PushNewQueue_Returns |].
  assert (Hok1 : lengths_ok
                   (with_new_queue originating_rank_in query_subtable_in st)).
  { unfold lengths_ok. simpl. rewrite !length_app. simpl. lia. }
  rewrite (DequeueTask_slot_on_empty_heap world _ task_out want _ q 0 Hok1).
  2: { simpl. rewrite lookup_app_r by lia. rewrite Nat.sub_diag. reflexivity. }
  2: { simpl. rewrite Ht. rewrite lookup_app_r by lia.
       rewrite Nat.sub_diag. reflexivity. }
  2: { simpl. rewrite Ht, <- Hw. rewrite lookup_app_r by lia.
       rewrite Nat.sub_diag. reflexivity. }
  change (table_rank q) with (table_rank query_subtable_in).
  change (0 =? 0) with true. cbv iota.
  destruct (table_rank query_subtable_in =? rank world); f_equal; f_equal;
    f_equal; f_equal; apply Queue_eq; simpl; try reflexivity;
    try lia;
    try (rewrite Ht; apply swap_remove_last);
    try (rewrite Ht, <- Ha; apply swap_remove_last);
    try (rewrite Ht, <- Hw; apply swap_remove_last);
    try (rewrite <- Ht; apply swap_remove_last);
    try apply swap_remove_last.
Qed.

Lemma PushTask_fold_frame (world : communicator) (metric_in : MetricType)
    (i : nat) (references : list SubTableType) (s : Queue) :
  (i < length (query_subtables_ s))%nat ->
  length (tasks_ s) = length (query_subtables_ s) ->
  exists s' h h',
    fold_left
      (fun m reference =>
         let* s := m in PushTask world metric_in i reference s)
      references (Returns s) = Returns s'
    /\ query_subtables_ s' = query_subtables_ s
    /\ assigned_work_ s' = assigned_work_ s
    /\ remaining_work_for_query_subtables_ s'
       = remaining_work_for_query_subtables_ s
    /\ length (tasks_ s') = length (tasks_ s)
    /\ (forall k, k <> i -> tasks_ s' !! k = tasks_ s !! k)
    /\ tasks_ s !! i = Some h
    /\ tasks_ s' !! i = Some h'
    /\ length h' = (length h + length references)%nat.
Proof.
  revert s. induction references as [| reference rest IH]; intros s Hi Hlen.
  - destruct (lookup_lt_is_Some_2 (tasks_ s) i) as [h Hh]; [lia |].
    exists s, h, h. simpl. repeat split; try reflexivity; try assumption.
    lia.
  - destruct (lookup_lt_is_Some_2 (tasks_ s) i) as [h Hh]; [lia |].
    destruct (lookup_lt_is_Some_2 (query_subtables_ s) i) as [q Hq];
      [lia |].
    cbn [fold_left outcome_bind].
    rewrite (PushTask_in_range world metric_in i reference q h s Hq Hh).
    set (t := make_task world metric_in q reference).
    destruct (IH (pushed i t h s)) as (s' & h1 & h' & Hrun & Hqs & Haw & Hws
                                       & Hlen' & Hframe & Hh1 & Hh' & Hl).
    { exact Hi. }
    { simpl. rewrite length_insert. exact Hlen. }
    exists s', h, h'. split; [exact Hrun |].
    split; [exact Hqs |]. split; [exact Haw |]. split; [exact Hws |].
    split; [rewrite Hlen'; simpl; apply length_insert |].
    split.
    { intros k Hk. rewrite (Hframe k Hk). simpl.
      apply list_lookup_insert_ne. congruence. }
    split; [exact Hh |]. split; [exact Hh' |].
    simpl in Hh1. rewrite list_lookup_insert_eq in Hh1
      by exact (lookup_lt_Some _ _ _ Hh).
    injection Hh1 as <-. rewrite Hl, length_heap_push. simpl. lia.
Qed.

(** X8. A slot made by [PushNewQueue] has no assigned set.  When its query
    subtable is no leaf, [split_subtree_] on it dereferences the null
    pointer, whatever tasks were pushed onto the slot, and
    [RedistributeAmongCores_] does so when this slot is the one it picks. *)
Theorem split_of_new_queue_faults (world : communicator)
    (metric_in : MetricType) (originating_rank_in : Z)
    (query_subtable_in : SubTableType) (references : list SubTableType)
    (st : Queue) :
  lengths_ok st ->
  is_leaf (start_node query_subtable_in) = false ->
  exists st1 i st2,
    PushNewQueue originating_rank_in query_subtable_in st = Returns (st1, i)
    /\ fold_left
         (fun m reference =>
            let* s := m in PushTask world metric_in i reference s)
         references (Returns st1) = Returns st2
    /\ split_subtree_ world metric_in i st2 = Faults NullPointer
    /\ (references <> [] ->
        0 < count (start_node query_subtable_in) ->
        (forall k c, splittable st k c ->
                     c < count (start_node query_subtable_in)) ->
        RedistributeAmongCores_ world metric_in st2 = Faults NullPointer).
Proof.
  intros Hok Hleaf. pose proof Hok as (Ht & Ha & Hw).
  set (q := set_originating_rank (Alias query_subtable_in)
              originating_rank_in).
  set (st1 := with_new_queue originating_rank_in query_subtable_in st).
  set (i := length (tasks_ st)).
  destruct (PushTask_fold_frame world metric_in i references st1)
    as (st2 & h & h' & Hrun & Hqs & Haw & Hws & Hlen & Hframe & Hh & Hh'
        & Hl).
  { simpl. rewrite length_app. simpl. unfold i. lia. }
  { simpl. rewrite !length_app. simpl. lia. }
  assert (Hq2 : query_subtables_ st2 !! i = Some q).
  { rewrite Hqs. simpl. unfold i. rewrite Ht.
    rewrite lookup_app_r by lia. rewrite Nat.sub_diag. reflexivity. }
  assert (Ha2 : assigned_work_ st2 !! i = Some None).
  { rewrite Haw. simpl. unfold i. rewrite Ht, <- Ha.
    rewrite lookup_app_r by lia. rewrite Nat.sub_diag. reflexivity. }
  assert (Hh0 : h = []).
  { simpl in Hh. unfold i in Hh. rewrite lookup_app_r in Hh by lia.
    rewrite Nat.sub_diag in Hh. injection Hh as <-. reflexivity. }
  assert (Hnull : split_subtree_ world metric_in i st2 = Faults NullPointer)
    by exact (split_subtree__null world metric_in i st2 q h' Hq2 Ha2 Hh').
  exists st1, i, st2.
  split; [apply PushNewQueue_Returns |]. split; [exact Hrun |].
  split; [exact Hnull |].
  intros Hne Hcount Hsmaller.
  assert (Hok2 : lengths_ok st2).
  { unfold lengths_ok. rewrite Hlen, Hqs, Haw, Hws. simpl.
    rewrite !length_app. simpl. lia. }
  assert (Hsi : splittable st2 i (count (start_node query_subtable_in))).
  { exists q, h'. split; [exact Hq2 |]. split; [exact Hh' |].
    split; [exact Hleaf |]. split; [| reflexivity].
    intros ->. subst h. simpl in Hl. destruct references; [congruence |].
    simpl in Hl. lia. }
  assert (Hold : forall k c, k <> i -> splittable st2 k c ->
                             splittable st k c).
  { intros k c Hk (qk & hk & Hqk & Hhk & Hlk & Hnk & Hck).
    assert (Hklt : (k < length (query_subtables_ st))%nat).
    { apply lookup_lt_Some in Hqk. rewrite Hqs in Hqk. simpl in Hqk.
      rewrite length_app in Hqk. simpl in Hqk. unfold i in Hk. lia. }
    exists qk, hk. rewrite Hqs in Hqk. simpl in Hqk.
    rewrite lookup_app_l in Hqk by lia.
    rewrite (Hframe k Hk) in Hhk. simpl in Hhk.
    rewrite lookup_app_l in Hhk by lia.
    repeat split; assumption. }
  unfold RedistributeAmongCores_.
  rewrite (find_split_choice st2 i (count (start_node query_subtable_in))
             Hok2 Hsi Hcount); [exact Hnull | |].
  - intros k c Hs. destruct (decide (k = i)) as [-> | Hk].
    + rewrite (splittable_count _ _ _ _ Hs Hsi). lia.
    + specialize (Hsmaller k c (Hold k c Hk Hs)). lia.
  - intros k c Hk Hs. apply (Hsmaller k c). apply Hold; [lia | exact Hs].
Qed.



(** ** Completed computation and eviction *)

(** X9. After the form of [push_completed_computation] for all query
    subtables, the single-slot [DequeueTask] of a slot of this process with
    an empty heap evicts the slot exactly when the reference count reported
    was the whole remaining work of the slot; otherwise it leaves the state
    as it is and returns [false]. *)
Theorem completed_slot_is_evicted (world : communicator)
    (reference_count quantity : Z) (s : nat) (task_out : TaskType * Z)
    (want : bool) (st : Queue) (q : SubTableType) (w : Z) :
  lengths_ok st ->
  tasks_ st !! s = Some [] ->
  query_subtables_ st !! s = Some q ->
  table_rank q = rank world ->
  remaining_work_for_query_subtables_ st !! s = Some w ->
  0 <= reference_count <= w ->
  w < two64 ->
  exists st1,
    push_completed_computation reference_count quantity st = Returns st1
    /\ DequeueTask_slot world s task_out want st1
       = Returns (if reference_count =? w then evicted s st1 else st1,
                  task_out, None, reference_count =? w).
Proof.
  intros Hok Hh Hq Hrank Hw Hrc Hlt.
  eexists. split; [apply push_completed_computation_Returns; exact Hok |].
  match goal with
  | |- DequeueTask_slot _ _ _ _ ?x = _ => set (st1 := x)
  end.
  assert (Hok1 : lengths_ok st1).
  { unfold lengths_ok, st1. simpl. rewrite length_map. exact Hok. }
  rewrite (DequeueTask_slot_on_empty_heap world s task_out want st1 q
             (w - reference_count) Hok1 Hh Hq).
  2: { unfold st1. simpl. rewrite list_lookup_fmap, Hw. simpl. f_equal.
       apply wrap64_exact. lia. }
  rewrite Hrank, Z.eqb_refl.
  destruct (reference_count =? w) eqn:E.
  - apply Z.eqb_eq in E. subst w. rewrite Z.sub_diag. reflexivity.
  - apply Z.eqb_neq in E.
    assert (E' : (w - reference_count =? 0) = false)
      by (apply Z.eqb_neq; lia).
    rewrite E'. reflexivity.
Qed.

(** ** What [GenerateTasks] does to the state *)

Lemma GenerateTasks_active_effect (world : communicator)
    (metric_in : MetricType) (grid : interval) (reference : SubTableType)
    (cache_id : Z) (n j : nat) (st st' : Queue) :
  GenerateTasks_active world metric_in grid reference cache_id n j st
  = Returns st' ->
  (exists k,
     table_exchange_ st'
     = table_exchange_ st ++ replicate k (LockCache cache_id 1)
     /\ num_remaining_tasks_ st' = num_remaining_tasks_ st + Z.of_nat k)
  /\ query_subtables_ st' = query_subtables_ st
  /\ remaining_work_for_query_subtables_ st'
     = remaining_work_for_query_subtables_ st
  /\ checked_out_query_subtables_ st' = checked_out_query_subtables_ st
  /\ forall i q,
       query_subtables_ st !! i = Some q ->
       table_rank q <> rank world ->
       same_slot i st st'.
Proof.
  revert j st. induction n as [| n IH]; intros j st H.
  - injection H as <-. split.
    + exists 0%nat. simpl. rewrite app_nil_r. split; [reflexivity | lia].
    + repeat split; reflexivity.
  - simpl in H.
    destruct (vec_get (query_subtables_ st) j) as [q |] eqn:Eq;
      [| discriminate].
    apply vec_get_Returns in Eq. cbn [outcome_bind] in H.
    destruct (table_rank q =? rank world) eqn:Er.
    2: { cbn [outcome_bind] in H. exact (IH _ _ H). }
    apply Z.eqb_eq in Er.
    destruct (vec_get (assigned_work_ st) j) as [[a |] |] eqn:Ea;
      cbn [outcome_bind] in H; try discriminate.
    apply vec_get_Returns in Ea.
    destruct (Insert grid a) as [ok a'].
    destruct ok; [| cbn [outcome_bind] in H; exact (IH _ _ H)].
    unfold vec_set in H. rewrite Ea in H. cbn [outcome_bind] in H.
    destruct (PushTask world metric_in j reference
                (set_assigned_work_ (<[j := Some a']> (assigned_work_ st))
                   st)) as [st1 |] eqn:Ep; [| discriminate].
    cbn [outcome_bind] in H.
    destruct (PushTask_Returns world metric_in j reference _ _ Ep)
      as (q1 & h1 & Hq1 & Hh1 & ->).
    destruct (IH _ _ H) as ((k & Hlog & Hnum) & Hqs & Hws & Hco & Hframe).
    simpl in Hlog, Hnum, Hqs, Hws, Hco. split.
    + exists (S k). rewrite Hlog, <- app_assoc. split; [reflexivity | lia].
    + split; [exact Hqs |]. split; [exact Hws |]. split; [exact Hco |].
      intros i qi Hqi Hne.
      assert (Hij : j <> i).
      { intros ->. rewrite Eq in Hqi. injection Hqi as <-. contradiction. }
      destruct (Hframe i qi Hqi Hne) as [Ht Haw]. simpl in Ht, Haw.
      rewrite list_lookup_insert_ne in Ht by exact Hij.
      rewrite list_lookup_insert_ne in Haw by exact Hij.
      split; assumption.
Qed.

Lemma GenerateTasks_checked_out_effect (world : communicator)
    (metric_in : MetricType) (grid : interval) (reference : SubTableType)
    (cache_id : Z) (n k0 : nat) (st st' : Queue) :
  GenerateTasks_checked_out world metric_in grid reference cache_id n k0 st
  = Returns st' ->
  (exists k,
     table_exchange_ st'
     = table_exchange_ st ++ replicate k (LockCache cache_id 1)
     /\ num_remaining_tasks_ st' = num_remaining_tasks_ st + Z.of_nat k)
  /\ query_subtables_ st' = query_subtables_ st
  /\ remaining_work_for_query_subtables_ st'
     = remaining_work_for_query_subtables_ st
  /\ tasks_ st' = tasks_ st
  /\ assigned_work_ st' = assigned_work_ st.
Proof.
  revert k0 st. induction n as [| n IH]; intros k0 st H.
  - injection H as <-. split.
    + exists 0%nat. simpl. rewrite app_nil_r. split; [reflexivity | lia].
    + repeat split; reflexivity.
  - simpl in H.
    destruct (vec_get (checked_out_query_subtables_ st) k0) as [e |] eqn:Ee;
      [| discriminate].
    cbn [outcome_bind] in H.
    destruct (Insert_ grid e) as [[ok e'] |] eqn:Ei; [| discriminate].
    cbn [outcome_bind] in H.
    destruct ok; [| exact (IH _ _ H)].
    destruct (IH _ _ H) as ((k & Hlog & Hnum) & Hqs & Hws & Hts & Haw).
    simpl in Hlog, Hnum, Hqs, Hws, Hts, Haw. split.
    + exists (S k). rewrite Hlog, <- app_assoc. split; [reflexivity | lia].
    + repeat split; assumption.
Qed.

Lemma GenerateTasks_one_effect (world : communicator)
    (metric_in : MetricType) (received : Z * Z * Z * Z) (st st' : Queue) :
  GenerateTasks_one world metric_in received st = Returns st' ->
  (exists k,
     table_exchange_ st'
     = table_exchange_ st ++ replicate k (LockCache (snd received) 1)
     /\ num_remaining_tasks_ st' = num_remaining_tasks_ st + Z.of_nat k)
  /\ query_subtables_ st' = query_subtables_ st
  /\ remaining_work_for_query_subtables_ st'
     = remaining_work_for_query_subtables_ st
  /\ forall i q,
       query_subtables_ st !! i = Some q ->
       table_rank q <> rank world ->
       same_slot i st st'.
Proof.
  unfold GenerateTasks_one. intros H.
  destruct (GenerateTasks_active world metric_in (reference_grid received)
              (frontier_reference_subtable received) (snd received)
              (length (query_subtables_ st)) 0 st) as [st1 |] eqn:E1;
    [| discriminate].
  cbn [outcome_bind] in H.
  destruct (GenerateTasks_active_effect _ _ _ _ _ _ _ _ _ E1)
    as ((k1 & Hlog1 & Hnum1) & Hqs1 & Hws1 & _ & Hframe).
  destruct (GenerateTasks_checked_out_effect _ _ _ _ _ _ _ _ _ H)
    as ((k2 & Hlog2 & Hnum2) & Hqs2 & Hws2 & Hts2 & Haw2).
  split.
  - exists (k1 + k2)%nat.
    rewrite Hlog2, Hlog1, <- app_assoc, replicate_add.
    split; [reflexivity | lia].
  - split; [congruence |]. split; [congruence |].
    intros i q Hq Hne. destruct (Hframe i q Hq Hne) as [Ht Ha].
    split; [rewrite Hts2 | rewrite Haw2]; assumption.
Qed.

(** X10. A run of [GenerateTasks] that returns has asked the table
    exchange for exactly one cache lock per task it added: for each
    received id in turn some number of locks on the cache block of that id,
    and nothing else, and the number of remaining tasks has grown by the
    number of these locks. *)
Theorem GenerateTasks_one_lock_per_task (world : communicator)
    (metric_in : MetricType) (received_subtable_ids : list (Z * Z * Z * Z))
    (st st' : Queue) :
  GenerateTasks world metric_in received_subtable_ids st = Returns st' ->
  exists ks,
    length ks = length received_subtable_ids
    /\ table_exchange_ st'
       = table_exchange_ st ++ received_locks received_subtable_ids ks
    /\ num_remaining_tasks_ st'
       = num_remaining_tasks_ st + Z.of_nat (sum_list ks).
Proof.
  revert st. induction received_subtable_ids as [| received rest IH];
    intros st H.
  - injection H as <-. exists []. unfold received_locks. simpl.
    rewrite app_nil_r. repeat split. lia.
  - simpl in H.
    destruct (GenerateTasks_one world metric_in received st) as [st1 |] eqn:E1;
      [| discriminate].
    cbn [outcome_bind] in H.
    destruct (GenerateTasks_one_effect _ _ _ _ _ E1)
      as ((k & Hlog1 & Hnum1) & _).
    destruct (IH _ H) as (ks & Hlen & Hlog & Hnum).
    exists (k :: ks). split; [simpl; congruence |]. split.
    + rewrite Hlog, Hlog1, <- app_assoc. reflexivity.
    + rewrite Hnum, Hnum1. simpl. lia.
Qed.

(** X11. [GenerateTasks] works for the query subtables of this process
    only: the heap and the assigned set of every active slot whose query
    subtable belongs to another process are after the run what they were
    before, and so are the query subtables and the remaining work of all
    slots. *)
Theorem GenerateTasks_leaves_imported_slots (world : communicator)
    (metric_in : MetricType) (received_subtable_ids : list (Z * Z * Z * Z))
    (st st' : Queue) (i : nat) (q : SubTableType) :
  GenerateTasks world metric_in received_subtable_ids st = Returns st' ->
  query_subtables_ st !! i = Some q ->
  table_rank q <> rank world ->
  tasks_ st' !! i = tasks_ st !! i
  /\ assigned_work_ st' !! i = assigned_work_ st !! i
  /\ query_subtables_ st' = query_subtables_ st
  /\ remaining_work_for_query_subtables_ st'
     = remaining_work_for_query_subtables_ st.
Proof.
  revert st. induction received_subtable_ids as [| received rest IH];
    intros st H Hq Hne.
  - injection H as <-. repeat split.
  - simpl in H.
    destruct (GenerateTasks_one world metric_in received st) as [st1 |] eqn:E1;
      [| discriminate].
    cbn [outcome_bind] in H.
    destruct (GenerateTasks_one_effect _ _ _ _ _ E1)
      as (_ & Hqs1 & Hws1 & Hframe).
    destruct (Hframe i q Hq Hne) as [Ht1 Ha1].
    destruct (IH _ H) as (Ht & Ha & Hqs & Hws).
    { rewrite Hqs1. exact Hq. }
    { exact Hne. }
    repeat split; congruence.
Qed.


Lemma GenerateTasks_active_total (world : communicator)
    (metric_in : MetricType) (grid : interval) (reference : SubTableType)
    (cache_id : Z) (n j : nat) (st : Queue) :
  lengths_ok st ->
  (j + n <= length (query_subtables_ st))%nat ->
  own_allocated world st ->
  exists st',
    GenerateTasks_active world metric_in grid reference cache_id n j st
    = Returns st'
    /\ lengths_ok st'
    /\ own_allocated world st'.
Proof.
  revert j st. induction n as [| n IH]; intros j st Hok Hn Hown.
  - exists st. split; [reflexivity |]. split; assumption.
  - pose proof Hok as (Ht & Ha & Hw).
    destruct (lookup_lt_is_Some_2 (query_subtables_ st) j) as [q Hq]; [lia |].
    destruct (lookup_lt_is_Some_2 (tasks_ st) j) as [h Hh]; [lia |].
    simpl. rewrite (proj2 (vec_get_Returns _ _ _) Hq). cbn [outcome_bind].
    destruct (table_rank q =? rank world) eqn:Er.
    2: { cbn [outcome_bind]. apply IH; [exact Hok | lia | exact Hown]. }
    apply Z.eqb_eq in Er. destruct (Hown j q Hq Er) as [a Haw].
    rewrite (proj2 (vec_get_Returns _ _ _) Haw). cbn [outcome_bind].
    destruct (Insert grid a) as [ok a'].
    destruct ok.
    2: { cbn [outcome_bind]. apply IH; [exact Hok | lia | exact Hown]. }
    unfold vec_set. rewrite Haw. cbn [outcome_bind].
    rewrite (PushTask_in_range world metric_in j reference q h
               (set_assigned_work_ (<[j := Some a']> (assigned_work_ st)) st)
               Hq Hh).
    cbn [outcome_bind]. apply IH.
    + unfold lengths_ok. simpl. rewrite !length_insert. exact Hok.
    + simpl. lia.
    + intros j' q' Hq' Hr'. simpl in Hq' |- *.
      destruct (decide (j' = j)) as [-> | Hne].
      * exists a'. apply list_lookup_insert_eq.
        exact (lookup_lt_Some _ _ _ Haw).
      * rewrite list_lookup_insert_ne by congruence.
        exact (Hown j' q' Hq' Hr').
Qed.

Lemma GenerateTasks_checked_out_total (world : communicator)
    (metric_in : MetricType) (grid : interval) (reference : SubTableType)
    (cache_id : Z) (n k : nat) (st : Queue) :
  (k + n <= length (checked_out_query_subtables_ st))%nat ->
  entries_allocated st ->
  exists st',
    GenerateTasks_checked_out world metric_in grid reference cache_id n k st
    = Returns st'
    /\ entries_allocated st'.
Proof.
  revert k st. induction n as [| n IH]; intros k st Hn Hall.
  - exists st. split; [reflexivity | exact Hall].
  - destruct (lookup_lt_is_Some_2 (checked_out_query_subtables_ st) k)
      as [e He]; [lia |].
    simpl. rewrite (proj2 (vec_get_Returns _ _ _) He). cbn [outcome_bind].
    destruct (proj1 (Forall_lookup _ _) Hall k e He) as [a Ha].
    unfold Insert_. rewrite Ha.
    destruct (Insert grid a) as [ok a']. cbn [outcome_bind].
    destruct ok; [| apply IH; [lia | exact Hall]].
    apply IH.
    + simpl. rewrite length_insert. lia.
    + unfold entries_allocated. simpl. apply Forall_insert; [exact Hall |].
      exists a'. reflexivity.
Qed.

(** X12. [GenerateTasks] returns in every state whose vectors are aligned
    and in which each active slot of this process and each checked-out
    entry has an assigned set; the slots of other processes may have none.
    The state it leaves is of this kind again. *)
Theorem GenerateTasks_returns (world : communicator)
    (metric_in : MetricType) (received_subtable_ids : list (Z * Z * Z * Z))
    (st : Queue) :
  lengths_ok st ->
  own_allocated world st ->
  entries_allocated st ->
  exists st',
    GenerateTasks world metric_in received_subtable_ids st = Returns st'
    /\ lengths_ok st'
    /\ own_allocated world st'
    /\ entries_allocated st'.
Proof.
  revert st. induction received_subtable_ids as [| received rest IH];
    intros st Hok Hown Hall.
  - exists st. split; [reflexivity |]. repeat (split; [assumption |]).
    assumption.
  - simpl. unfold GenerateTasks_one.
    destruct (GenerateTasks_active_total world metric_in
                (reference_grid received)
                (frontier_reference_subtable received) (snd received)
                (length (query_subtables_ st)) 0 st Hok)
      as (st1 & Hrun1 & Hok1 & Hown1); [lia | exact Hown |].
    rewrite Hrun1. cbn [outcome_bind].
    destruct (GenerateTasks_active_effect _ _ _ _ _ _ _ _ _ Hrun1)
      as (_ & _ & _ & Hco1 & _).
    destruct (GenerateTasks_checked_out_total world metric_in
                (reference_grid received)
                (frontier_reference_subtable received) (snd received)
                (length (checked_out_query_subtables_ st1)) 0 st1)
      as (st2 & Hrun2 & Hall2).
    { lia. }
    { unfold entries_allocated. rewrite Hco1. exact Hall. }
    rewrite Hrun2. cbn [outcome_bind].
    destruct (GenerateTasks_checked_out_effect _ _ _ _ _ _ _ _ _ Hrun2)
      as (_ & Hqs2 & Hws2 & Hts2 & Haw2).
    apply IH.
    + unfold lengths_ok. rewrite Hqs2, Hws2, Hts2, Haw2. exact Hok1.
    + intros j q Hq Hr. rewrite Haw2. rewrite Hqs2 in Hq.
      exact (Hown1 j q Hq Hr).
    + exact Hall2.
Qed.

(** ** [Synchronize] and the first entry that includes the received one *)

Lemma find_including_first_match (received : SubTableType)
    (l : list QuerySubTableLock) (k i : nat) (e : QuerySubTableLock) :
  l !! i = Some e ->
  includes (lock_query_subtable_ e) received = true ->
  (forall j e', (j < i)%nat -> l !! j = Some e' ->
                includes (lock_query_subtable_ e') received = false) ->
  find_including received l k = Some ((k + i)%nat, e).
Proof.
  revert k i. induction l as [| e0 l IH]; intros k i He Hin Hbefore.
  - discriminate.
  - destruct i as [| i]; simpl.
    + injection He as ->. rewrite Hin. rewrite Nat.add_0_r. reflexivity.
    + rewrite (Hbefore 0%nat e0 ltac:(lia) eq_refl).
      rewrite (IH (S k) i He Hin).
      * f_equal. f_equal. lia.
      * intros j e' Hj He'. apply (Hbefore (S j) e'); [lia | exact He'].
Qed.

(** X13. [Synchronize] acts on the first checked-out entry whose query
    subtable includes the received one, and on no other: the subtable of
    that entry is overwritten with the received data; when the two ids are
    then equal the entry leaves the list, its state becomes the last active
    slot and the number of exported subtables drops by one; when they are
    not, the entry stays checked out and the active slots and the counters
    are as before.  Entries further down the list that include the received
    subtable as well are left as they are. *)
Theorem Synchronize_first_match (received : SubTableType) (st : Queue)
    (i : nat) (e : QuerySubTableLock) :
  lengths_ok st ->
  checked_out_query_subtables_ st !! i = Some e ->
  includes (lock_query_subtable_ e) received = true ->
  (forall j e', (j < i)%nat ->
                checked_out_query_subtables_ st !! j = Some e' ->
                includes (lock_query_subtable_ e') received = false) ->
  let e' := set_lock_query_subtable_
              (Copy (lock_query_subtable_ e) received) e in
  exists st',
    Synchronize received st = Returns st'
    /\ (if subtable_id_eqb (subtable_id received)
             (subtable_id (lock_query_subtable_ e'))
        then checked_out_query_subtables_ st'
             = delete i (checked_out_query_subtables_ st)
             /\ slots st' = slots st ++ [slot_of_lock e']
             /\ num_exported_query_subtables_ st'
                = num_exported_query_subtables_ st - 1
        else checked_out_query_subtables_ st'
             = <[i := e']> (checked_out_query_subtables_ st)
             /\ slots st' = slots st
             /\ num_exported_query_subtables_ st'
                = num_exported_query_subtables_ st).
Proof.
  intros Hok He Hin Hbefore e'. pose proof Hok as (Ht & Ha & Hw).
  unfold Synchronize.
  rewrite (find_including_first_match received _ 0 i e He Hin Hbefore).
  cbn [Nat.add].
  assert (Hid : subtable_id (lock_query_subtable_ e')
                = subtable_id (Copy (lock_query_subtable_ e) received))
    by reflexivity.
  rewrite Hid.
  destruct (subtable_id_eqb (subtable_id received)
              (subtable_id (Copy (lock_query_subtable_ e) received))) eqn:Eid.
  - eexists. split; [reflexivity |]. simpl.
    split; [reflexivity |]. split; [| reflexivity].
    unfold slots. simpl. apply zip_slots_app; assumption.
  - eexists. split; [reflexivity |]. simpl. repeat split.
Qed.

(** ** Waiting slots and slots that are done *)

Lemma slot_at (i : nat) (st : Queue) :
  lengths_ok st -> (i < length (tasks_ st))%nat ->
  exists q h a w,
    query_subtables_ st !! i = Some q
    /\ tasks_ st !! i = Some h
    /\ assigned_work_ st !! i = Some a
    /\ remaining_work_for_query_subtables_ st !! i = Some w
    /\ slots st !! i
       = Some {| slot_subtree := q; slot_tasks := h; slot_assigned := a;
                 slot_remaining_work := w |}.
Proof.
  intros Hok Hi.
  destruct (lookup_lt_is_Some_2 (tasks_ st) i Hi) as [h Hh].
  destruct (lookups_of_slot i st Hok Hi) as (a & q & w & Has & Hq & Hws).
  exists q, h, a, w. repeat (split; [assumption |]).
  unfold slots. rewrite lookup_zip_slots, Hq, Hh, Has, Hws. reflexivity.
Qed.

Lemma no_task_not_splittable (st : Queue) (i : nat) (c : Z) :
  Forall (fun h => h = []) (tasks_ st) -> splittable st i c -> c <= 0.
Proof.
  intros Hall (q & h & _ & Hh & _ & Hne & _).
  exfalso. apply Hne. exact (proj1 (Forall_lookup _ _) Hall i h Hh).
Qed.

Lemma slots_no_task (P : Slot -> Prop) (st : Queue) :
  lengths_ok st ->
  (forall s, P s -> slot_tasks s = []) ->
  Forall P (slots st) ->
  Forall (fun h => h = []) (tasks_ st).
Proof.
  intros Hok HP Hall. apply Forall_lookup. intros i h Hh.
  destruct (slot_at i st Hok (lookup_lt_Some _ _ _ Hh))
    as (q & h' & a & w & _ & Hh' & _ & _ & Hs).
  rewrite Hh in Hh'. injection Hh' as <-.
  exact (HP _ (proj1 (Forall_lookup _ _) Hall i _ Hs)).
Qed.

Lemma DequeueTask_scan_idle (world : communicator) (fuel : nat)
    (probe_index : nat) (task_out : TaskType * Z) (want : bool)
    (it : option nat) (st : Queue) :
  lengths_ok st ->
  (length (tasks_ st) - probe_index <= fuel)%nat ->
  Forall (idle world) (slots st) ->
  DequeueTask_scan fuel world probe_index task_out want it st
  = Returns (st, task_out, it).
Proof.
  intros Hok. revert probe_index.
  induction fuel as [| fuel IH]; intros i Hfuel Hidle.
  - simpl.
    assert (Hi : (i <? length (tasks_ st))%nat = false)
      by (apply Nat.ltb_ge; lia).
    rewrite Hi, andb_false_r. reflexivity.
  - simpl.
    destruct ((snd task_out <? 0) && (i <? length (tasks_ st))%nat) eqn:Ec;
      [| reflexivity].
    apply andb_prop in Ec as [_ Ei]. apply Nat.ltb_lt in Ei.
    destruct (slot_at i st Hok Ei) as (q & h & a & w & Hq & Hh & _ & Hw & Hs).
    destruct (proj1 (Forall_lookup _ _) Hidle i _ Hs) as (Hempty & Hr & Hne).
    simpl in Hempty, Hr, Hne. subst h.
    rewrite (DequeueTask_slot_on_empty_heap world i task_out want st q w
               Hok Hh Hq Hw).
    rewrite Hr, Z.eqb_refl.
    apply Z.eqb_neq in Hne. rewrite Hne. cbn [outcome_bind].
    apply IH; [lia | exact Hidle].
Qed.

(** X14. While every active slot waits (its heap is empty, its query
    subtable is of this process and some of its work is not yet reported
    as done), the scanning [DequeueTask] hands out nothing: it returns with
    the caller's pair and the state as they were, and removes no slot. *)
Theorem DequeueTask_while_slots_wait (world : communicator) (thread_id : Z)
    (metric_in : MetricType) (task_out : TaskType * Z) (want : bool)
    (st : Queue) :
  lengths_ok st ->
  Forall (idle world) (slots st) ->
  DequeueTask world thread_id metric_in task_out want st
  = Returns (st, task_out, None).
Proof.
  intros Hok Hidle. unfold DequeueTask.
  assert (Hre : (if Z.of_nat (length (tasks_ st)) <? num_threads_ st
                 then RedistributeAmongCores_ world metric_in st
                 else Returns st) = Returns st).
  { destruct (Z.of_nat (length (tasks_ st)) <? num_threads_ st);
      [| reflexivity].
    unfold RedistributeAmongCores_.
    rewrite find_split_none; [reflexivity | exact Hok |].
    intros i c. apply no_task_not_splittable.
    apply (slots_no_task (idle world) st Hok); [| exact Hidle].
    intros s Hs. apply Hs. }
  rewrite Hre. cbn [outcome_bind].
  apply DequeueTask_scan_idle; [exact Hok | lia | exact Hidle].
Qed.

Lemma swap_remove_Forall {A : Type} (P : A -> Prop) (v : list A) (i : nat) :
  (i < length v)%nat -> Forall P v -> Forall P (swap_remove v i).
Proof.
  intros Hi Hall.
  destruct (lookup_lt_is_Some_2 v i Hi) as [x Hx].
  pose proof (swap_remove_Permutation v i x Hx) as Hperm.
  rewrite <- Hperm in Hall. inversion Hall; assumption.
Qed.

Lemma DequeueTask_scan_sweep (world : communicator) (fuel : nat)
    (task_out : TaskType * Z) (want : bool) (it : option nat) (st : Queue) :
  lengths_ok st ->
  snd task_out < 0 ->
  (length (tasks_ st) <= fuel)%nat ->
  Forall (finished world) (slots st) ->
  exists st' flushed,
    DequeueTask_scan fuel world 0 task_out want it st
    = Returns (st', task_out, it)
    /\ flushed ≡ₚ imported world (query_subtables_ st)
    /\ st'
       = set_tasks_ []
           (set_remaining_work_for_query_subtables_ []
              (set_query_subtables_ []
                 (set_assigned_work_ []
                    (set_num_imported_query_subtables_
                       (num_imported_query_subtables_ st
                        - Z.of_nat (length flushed))
                       (set_table_exchange_
                          (table_exchange_ st
                           ++ map QueueFlushRequest flushed) st))))).
Proof.
  intros Hok Hneg. revert it st Hok.
  assert (Hdone : forall (it : option nat) (st : Queue),
            lengths_ok st -> tasks_ st = [] ->
            exists st' flushed,
              Returns (st, task_out, it) = Returns (st', task_out, it)
              /\ flushed ≡ₚ imported world (query_subtables_ st)
              /\ st'
                 = set_tasks_ []
                     (set_remaining_work_for_query_subtables_ []
                        (set_query_subtables_ []
                           (set_assigned_work_ []
                              (set_num_imported_query_subtables_
                                 (num_imported_query_subtables_ st
                                  - Z.of_nat (length flushed))
                                 (set_table_exchange_
                                    (table_exchange_ st
                                     ++ map QueueFlushRequest flushed)
                                    st)))))).
  { intros it st (Ht & Ha & Hw) Hnil. rewrite Hnil in Ht. simpl in Ht.
    assert (Hq : query_subtables_ st = [])
      by (destruct (query_subtables_ st); [reflexivity | discriminate]).
    rewrite Hq in Ha, Hw. simpl in Ha, Hw.
    exists st, []. split; [reflexivity |]. rewrite Hq.
    split; [reflexivity |].
    apply Queue_eq; simpl; try reflexivity; try assumption; try lia.
    - destruct (assigned_work_ st); [reflexivity | discriminate].
    - destruct (remaining_work_for_query_subtables_ st);
        [reflexivity | discriminate].
    - rewrite app_nil_r. reflexivity. }
  induction fuel as [| fuel IH]; intros it st Hok Hfuel Hfin.
  - assert (Hnil : tasks_ st = [])
      by (destruct (tasks_ st); [reflexivity | simpl in Hfuel; lia]).
    simpl. rewrite Hnil, andb_false_r.
    apply Hdone; [exact Hok | exact Hnil].
  - simpl.
    destruct (0 <? length (tasks_ st))%nat eqn:Ei.
    2: { rewrite andb_false_r. apply Hdone; [exact Hok |].
         apply Nat.ltb_ge in Ei.
         destruct (tasks_ st); [reflexivity | simpl in Ei; lia]. }
    apply Nat.ltb_lt in Ei. apply Z.ltb_lt in Hneg. rewrite Hneg.
    cbn [andb]. apply Z.ltb_lt in Hneg.
    pose proof Hok as (Ht & Ha & Hw).
    destruct (slot_at 0 st Hok Ei) as (q & h & a & w & Hq & Hh & _ & Hws & Hs).
    destruct (proj1 (Forall_lookup _ _) Hfin 0%nat _ Hs) as (Hempty & Hzero).
    simpl in Hempty, Hzero. subst h.
    rewrite (DequeueTask_slot_on_empty_heap world 0 task_out want st q w
               Hok Hh Hq Hws).
    assert (Hperm : q :: swap_remove (query_subtables_ st) 0
                    ≡ₚ query_subtables_ st)
      by exact (swap_remove_Permutation _ _ _ Hq).
    assert (Hfilter : imported world (q :: swap_remove (query_subtables_ st) 0)
                      ≡ₚ imported world (query_subtables_ st))
      by (unfold imported; rewrite Hperm; reflexivity).
    assert (Hnext : forall st0,
              lengths_ok st0 ->
              query_subtables_ st0 = query_subtables_ st ->
              tasks_ st0 = tasks_ st ->
              assigned_work_ st0 = assigned_work_ st ->
              remaining_work_for_query_subtables_ st0
              = remaining_work_for_query_subtables_ st ->
              lengths_ok (evicted 0 st0)
              /\ (length (tasks_ (evicted 0 st0)) <= fuel)%nat
              /\ Forall (finished world) (slots (evicted 0 st0))).
    { intros st0 Hok0 Eq Et Ea Ew. split; [| split].
      - apply lengths_ok_evicted; [exact Hok0 | rewrite Eq; lia].
      - simpl. rewrite Et, length_swap_remove by lia. lia.
      - rewrite slots_evicted by (try exact Hok0; rewrite Eq; lia).
        assert (Hsl : slots st0 = slots st)
          by (unfold slots; rewrite Eq, Et, Ea, Ew; reflexivity).
        rewrite Hsl. apply swap_remove_Forall; [| exact Hfin].
        rewrite length_slots by exact Hok. lia. }
    destruct (table_rank q =? rank world) eqn:Er.
    + apply Z.eqb_eq in Er. rewrite (Hzero Er), Z.eqb_refl.
      cbn [outcome_bind].
      destruct (Hnext st Hok) as (Hok1 & Hfuel1 & Hfin1); try reflexivity.
      destruct (IH it (evicted 0 st) Hok1 Hfuel1 Hfin1)
        as (st' & flushed & Hrun & Hfl & Hst').
      exists st', flushed. split; [exact Hrun |]. split.
      * rewrite Hfl. simpl. rewrite <- Hfilter. unfold imported.
        rewrite filter_cons_False; [reflexivity |]. intros Hne. exact (Hne Er).
      * rewrite Hst'. apply Queue_eq; reflexivity.
    + apply Z.eqb_neq in Er. cbn [outcome_bind].
      destruct (Hnext (flush_queued q st)) as (Hok1 & Hfuel1 & Hfin1);
        try reflexivity; [exact Hok |].
      destruct (IH it (evicted 0 (flush_queued q st)) Hok1 Hfuel1 Hfin1)
        as (st' & flushed & Hrun & Hfl & Hst').
      exists st', (q :: flushed). split; [exact Hrun |]. split.
      * rewrite Hfl. simpl. rewrite <- Hfilter. unfold imported.
        rewrite filter_cons_True by exact Er. reflexivity.
      * rewrite Hst'. apply Queue_eq; simpl; try reflexivity.
        -- lia.
        -- rewrite <- app_assoc. reflexivity.
Qed.

(** X15. When every active slot is done (its heap is empty and, if its
    query subtable is of this process, no work remains for it), one call of
    the scanning [DequeueTask] with a pair whose index is negative removes
    all the slots: the four vectors end empty, each query subtable of
    another process has been handed to the table exchange in one flush
    request and has been taken off the number of imported subtables, and
    nothing else has changed; no task is handed out. *)
Theorem DequeueTask_sweeps_finished_slots (world : communicator)
    (thread_id : Z) (metric_in : MetricType) (task_out : TaskType * Z)
    (want : bool) (st : Queue) :
  lengths_ok st ->
  snd task_out < 0 ->
  Forall (finished world) (slots st) ->
  exists st' flushed,
    DequeueTask world thread_id metric_in task_out want st
    = Returns (st', task_out, None)
    /\ flushed ≡ₚ imported world (query_subtables_ st)
    /\ st'
       = set_tasks_ []
           (set_remaining_work_for_query_subtables_ []
              (set_query_subtables_ []
                 (set_assigned_work_ []
                    (set_num_imported_query_subtables_
                       (num_imported_query_subtables_ st
                        - Z.of_nat (length flushed))
                       (set_table_exchange_
                          (table_exchange_ st
                           ++ map QueueFlushRequest flushed) st))))).
Proof.
  intros Hok Hneg Hfin. unfold DequeueTask.
  assert (Hre : (if Z.of_nat (length (tasks_ st)) <? num_threads_ st
                 then RedistributeAmongCores_ world metric_in st
                 else Returns st) = Returns st).
  { destruct (Z.of_nat (length (tasks_ st)) <? num_threads_ st);
      [| reflexivity].
    unfold RedistributeAmongCores_.
    rewrite find_split_none; [reflexivity | exact Hok |].
    intros i c. apply no_task_not_splittable.
    apply (slots_no_task (finished world) st Hok); [| exact Hfin].
    intros s Hs. apply Hs. }
  rewrite Hre. cbn [outcome_bind].
  apply DequeueTask_scan_sweep; [exact Hok | exact Hneg | lia | exact Hfin].
Qed.

(** ** The queue [Init] leaves *)

Lemma fold_wrap64_sum (l : list Z) (A : Z) :
  fold_left (fun acc n => wrap64 (acc + n)) l (wrap64 A)
  = wrap64 (A + sum_entries l).
Proof.
  revert A. induction l as [| n l IH]; intros A; simpl.
  - f_equal. lia.
  - rewrite wrap64_add_l, IH. f_equal. lia.
Qed.

Lemma wrap64_mul (a b : Z) : wrap64 (wrap64 a * wrap64 b) = wrap64 (a * b).
Proof. unfold wrap64. symmetry. apply Zmult_mod. Qed.

(** X16. [Init] on a constructed queue, given the frontier of the query
    tree of this process, returns a queue with one slot per frontier
    subtable, aligned vectors, no task and no checked-out entry; every slot
    has an (empty) assigned set, so that [GenerateTasks] can work on it.
    The remaining global computation is the product of the numbers of
    query and reference points of all processes, as a 64-bit unsigned
    integer.  When the total number of reference points is not zero (as
    such an integer) every slot waits; when it is zero every slot is done
    at once. *)
Theorem Init_leaves_waiting_slots (world : communicator)
    (frontier : list SubTableType)
    (query_n_entries reference_n_entries : list Z) (num_threads_in : Z) :
  Forall (fun q => table_rank q = rank world) frontier ->
  exists st,
    Init frontier query_n_entries reference_n_entries num_threads_in
      DistributedDualtreeTaskQueue = Returns st
    /\ lengths_ok st
    /\ length (slots st) = length frontier
    /\ is_empty st = true
    /\ checked_out_query_subtables_ st = []
    /\ own_allocated world st
    /\ remaining_global_computation_ st
       = wrap64 (sum_entries query_n_entries
                 * sum_entries reference_n_entries)
    /\ (wrap64 (sum_entries reference_n_entries) <> 0 ->
        Forall (idle world) (slots st))
    /\ (wrap64 (sum_entries reference_n_entries) = 0 ->
        Forall (finished world) (slots st)).
Proof.
  intros Hown. eexists. split; [reflexivity |].
  match goal with |- lengths_ok ?x /\ _ => set (st := x) end.
  assert (Hsum : forall l,
            fold_left (fun acc n => wrap64 (acc + n)) l 0
            = wrap64 (sum_entries l)).
  { intros l. change 0 with (wrap64 0) at 1. rewrite fold_wrap64_sum.
    f_equal. }
  assert (Hqs : query_subtables_ st
                = (fun q => set_cache_block_id q (-1)) <$> frontier)
    by reflexivity.
  assert (Hts : tasks_ st = (fun _ => []) <$> frontier) by reflexivity.
  assert (Haw : assigned_work_ st = (fun _ => Some []) <$> frontier)
    by reflexivity.
  assert (Hws : remaining_work_for_query_subtables_ st
                = (fun _ => fold_left (fun acc n => wrap64 (acc + n))
                              reference_n_entries 0) <$> frontier)
    by reflexivity.
  assert (Hok : lengths_ok st).
  { unfold lengths_ok. rewrite Hqs, Hts, Haw, Hws, !length_fmap.
    repeat split. }
  assert (Hslot : forall i s,
            slots st !! i = Some s ->
            slot_tasks s = []
            /\ table_rank (slot_subtree s) = rank world
            /\ slot_remaining_work s
               = wrap64 (sum_entries reference_n_entries)).
  { intros i s Hs. unfold slots in Hs.
    rewrite lookup_zip_slots, Hqs, Hts, Haw, Hws in Hs.
    rewrite !list_lookup_fmap in Hs.
    destruct (frontier !! i) as [q |] eqn:Eq; simpl in Hs; [| discriminate].
    injection Hs as <-. simpl. split; [reflexivity |].
    split; [| apply Hsum].
    exact (proj1 (Forall_lookup _ _) Hown i q Eq). }
  split; [exact Hok |]. split.
  { rewrite (length_slots _ Hok), Hqs. apply length_fmap. }
  split; [reflexivity |]. split; [reflexivity |]. split.
  { intros j q Hq _. rewrite Hqs in Hq. rewrite Haw.
    rewrite list_lookup_fmap in Hq. rewrite list_lookup_fmap.
    destruct (frontier !! j); [| discriminate].
    exists []. reflexivity. }
  split.
  { change (remaining_global_computation_ st)
      with (wrap64
              (fold_left (fun acc n => wrap64 (acc + n)) query_n_entries 0
               * fold_left (fun acc n => wrap64 (acc + n))
                   reference_n_entries 0)).
    rewrite !Hsum. apply wrap64_mul. }
  split.
  - intros Hne. apply Forall_lookup. intros i s Hs.
    destruct (Hslot i s Hs) as (Ht & Hr & Hw).
    split; [exact Ht |]. split; [exact Hr |]. congruence.
  - intros Hz. apply Forall_lookup. intros i s Hs.
    destruct (Hslot i s Hs) as (Ht & Hr & Hw).
    split; [exact Ht |]. intros _. congruence.
Qed.

(** ** Splitting and the amount of work *)

Lemma repush_work_children (world : communicator) (metric_in : MetricType)
    (ql qr : SubTableType) (c : Z) (h : list TaskType) :
  count (start_node ql) + count (start_node qr) = c ->
  Forall (fun t => count (start_node (query_subtable t)) = c) h ->
  repush_work world metric_in ql h + repush_work world metric_in qr h
  = heap_work h.
Proof.
  intros Hc Hall. induction Hall as [| t h Ht _ IH]; [reflexivity |].
  simpl. rewrite <- IH. unfold work. simpl. rewrite Ht, <- Hc. ring.
Qed.

(** X17. Splitting conserves the amount of work under these conditions:
    the slot is no leaf and has an assigned set (without one the split
    dereferences a null pointer), the counts of its two children add up to
    the count of its node, every task of its heap was made for a query
    node of that count (as [PushTask] makes them for the present subtable
    of the slot), and the remaining local computation is a 64-bit unsigned
    value.  Then [split_subtree_] returns, the tasks of the two heaps after
    the split carry together the work the tasks of the heap carried
    before, the remaining local computation is as before, and the number
    of remaining tasks has grown by the size of the heap. *)
Theorem split_subtree__conserves_work (world : communicator)
    (metric_in : MetricType) (s : nat) (st : Queue) (q : SubTableType)
    (l r : TreeType) (a : list interval) (w : Z) (h : list TaskType) :
  lengths_ok st ->
  query_subtables_ st !! s = Some q ->
  left (start_node q) = Some l ->
  right (start_node q) = Some r ->
  assigned_work_ st !! s = Some (Some a) ->
  remaining_work_for_query_subtables_ st !! s = Some w ->
  tasks_ st !! s = Some h ->
  count l + count r = count (start_node q) ->
  Forall (fun t => count (start_node (query_subtable t))
                   = count (start_node q)) h ->
  0 <= remaining_local_computation_ st < two64 ->
  exists st' hl hr,
    split_subtree_ world metric_in s st = Returns st'
    /\ tasks_ st' = <[s := hl]> (tasks_ st) ++ [hr]
    /\ heap_work hl + heap_work hr = heap_work h
    /\ remaining_local_computation_ st' = remaining_local_computation_ st
    /\ num_remaining_tasks_ st' = num_remaining_tasks_ st + heap_size h.
Proof.
  intros Hok Hq Hl Hr Ha Hw Hh Hcount Hall Hrange.
  destruct (split_subtree__Returns world metric_in s st q l r a w h
              Hok Hq Hl Hr Ha Hw Hh)
    as (st' & Hrun & _ & _ & _ & Hts & Hnum & Hloc & _).
  pose proof (repush_work_children world metric_in (set_start_node q l)
                (set_start_node q r) (count (start_node q)) h Hcount Hall)
    as Hwork.
  exists st', (repush_heap world metric_in (set_start_node q l) h []),
         (repush_heap world metric_in (set_start_node q r) h []).
  split; [exact Hrun |]. split; [exact Hts |]. split.
  { rewrite !heap_work_repush_heap. simpl. lia. }
  split; [| lia].
  rewrite Hloc.
  rewrite (repush_local_sum world metric_in _ _ h _
             (remaining_local_computation_ st - heap_work h)).
  - rewrite <- (wrap64_exact (remaining_local_computation_ st) Hrange) at 2.
    f_equal. lia.
  - apply drain_local_sum. symmetry. apply wrap64_exact. exact Hrange.
Qed.

(** ** Eviction and the positions of the slots *)

(** X18. [Evict_] removes the slot at the given position and no other:
    the slots after the call are, up to their order, the slots before it
    without the evicted one.  Every slot but the last keeps its position;
    the last slot takes the position of the evicted one, so that an index
    into the vectors taken before the call names another slot after it
    only if it named the last or the evicted slot. *)
Theorem Evict__keeps_the_other_slots (i : nat) (st : Queue) (x : Slot) :
  lengths_ok st ->
  slots st !! i = Some x ->
  exists st',
    Evict_ i st = Returns st'
    /\ lengths_ok st'
    /\ x :: slots st' ≡ₚ slots st
    /\ length (slots st') = Nat.pred (length (slots st))
    /\ (forall j, j <> i -> (j < Nat.pred (length (slots st)))%nat ->
                  slots st' !! j = slots st !! j)
    /\ ((i < Nat.pred (length (slots st)))%nat ->
        slots st' !! i = last (slots st)).
Proof.
  intros Hok Hx.
  pose proof (lookup_lt_Some _ _ _ Hx) as Hi.
  pose proof (length_slots st Hok) as Hlen.
  exists (evicted i st).
  split; [apply Evict_in_range; [exact Hok | lia] |].
  split; [apply lengths_ok_evicted; [exact Hok | lia] |].
  rewrite slots_evicted by (try exact Hok; lia).
  split; [exact (swap_remove_Permutation _ _ _ Hx) |].
  split; [apply length_swap_remove; lia |]. split.
  - intros j Hne Hj. rewrite lookup_swap_remove by exact Hi.
    destruct (decide (j < Nat.pred (length (slots st)))%nat); [| lia].
    destruct (decide (i = j)); [congruence | reflexivity].
  - intros Hlt. rewrite lookup_swap_remove by exact Hi.
    destruct (decide (i < Nat.pred (length (slots st)))%nat); [| lia].
    destruct (decide (i = i)); [reflexivity | congruence].
Qed.

(** ** Check-out and return *)

(** X19. [LockQuerySubTable] puts the new entry at the front of the list
    and returns the iterator to it, and [ReturnQuerySubTable] erases the
    entry of the iterator it is given.  With the check-out and the return
    of an entry as the specification describes them, returning the
    iterator just obtained leaves the list of checked-out entries, the
    number of exported subtables and all other counters as they were
    before the lock; the slots are the ones before the lock, with the slot
    that was locked now in the last position and the former last slot in
    its place. *)
Theorem LockQuerySubTable_then_ReturnQuerySubTable (s : nat)
    (remote_mpi_rank_in : Z) (st : Queue) (x : Slot) :
  lengths_ok st ->
  slots st !! s = Some x ->
  exists st1 it st2,
    LockQuerySubTable s remote_mpi_rank_in st = Returns (st1, it)
    /\ checked_out_query_subtables_ st1 !! it
       = Some {| lock_assigned_work_ := slot_assigned x;
                 locked_mpi_rank_ := remote_mpi_rank_in;
                 lock_query_subtable_ := slot_subtree x;
                 lock_remaining_work_for_query_subtable_ :=
                   slot_remaining_work x;
                 lock_task_ := slot_tasks x |}
    /\ ReturnQuerySubTable it st1 = Returns st2
    /\ lengths_ok st2
    /\ slots st2 = swap_remove (slots st) s ++ [x]
    /\ slots st2 ≡ₚ slots st
    /\ checked_out_query_subtables_ st2 = checked_out_query_subtables_ st
    /\ num_exported_query_subtables_ st2 = num_exported_query_subtables_ st
    /\ num_imported_query_subtables_ st2 = num_imported_query_subtables_ st
    /\ num_remaining_tasks_ st2 = num_remaining_tasks_ st
    /\ remaining_local_computation_ st2 = remaining_local_computation_ st
    /\ remaining_global_computation_ st2 = remaining_global_computation_ st
    /\ table_exchange_ st2 = table_exchange_ st.
Proof.
  intros Hok Hx. pose proof Hok as (Ht & Ha & Hw).
  pose proof (lookup_lt_Some _ _ _ Hx) as Hs.
  rewrite (length_slots st Hok) in Hs.
  destruct (slot_at s st Hok) as (q & h & a & w & Hq & Hh & Has & Hws & Hsl);
    [lia |].
  rewrite Hx in Hsl. injection Hsl as ->.
  set (e := {| lock_assigned_work_ := a;
               locked_mpi_rank_ := remote_mpi_rank_in;
               lock_query_subtable_ := q;
               lock_remaining_work_for_query_subtable_ := w;
               lock_task_ := h |}).
  exists (checked_out_to s e st), 0%nat, (returned 0 e (checked_out_to s e st)).
  split.
  { exact (LockQuerySubTable_in_range s remote_mpi_rank_in st a q w h Hok
             Has Hq Hws Hh). }
  split; [reflexivity |]. split; [reflexivity |].
  assert (Hslots : slots (returned 0 e (checked_out_to s e st))
                   = swap_remove (slots st) s
                     ++ [{| slot_subtree := q; slot_tasks := h;
                            slot_assigned := a;
                            slot_remaining_work := w |}]).
  { unfold slots. simpl.
    rewrite zip_slots_app
      by (rewrite !length_swap_remove by lia; lia).
    rewrite zip_slots_swap_remove by assumption. reflexivity. }
  split.
  { unfold lengths_ok. simpl. rewrite !length_app.
    rewrite !length_swap_remove by lia. simpl. lia. }
  split; [exact Hslots |]. split.
  { rewrite Hslots. rewrite <- (swap_remove_Permutation _ _ _ Hx) at 2.
    rewrite Permutation_app_comm. reflexivity. }
  split; [reflexivity |]. split; [simpl; lia |].
  repeat split.
Qed.

(** ** The order in which the slots are served *)

Lemma DequeueTask_scan_first_task (world : communicator) (fuel : nat)
    (probe_index p : nat) (task_out : TaskType * Z) (want : bool)
    (it : option nat) (st : Queue) (t : TaskType) (h : list TaskType)
    (a : option DisjointIntIntervals) (q : SubTableType) (w : Z) :
  lengths_ok st ->
  snd task_out < 0 ->
  (probe_index <= p)%nat ->
  (length (tasks_ st) - probe_index <= fuel)%nat ->
  tasks_ st !! p = Some (t :: h) ->
  assigned_work_ st !! p = Some a ->
  query_subtables_ st !! p = Some q ->
  remaining_work_for_query_subtables_ st !! p = Some w ->
  (forall j s, (probe_index <= j < p)%nat -> slots st !! j = Some s ->
               idle world s) ->
  DequeueTask_scan fuel world probe_index task_out want it st
  = Returns
      (if want
       then checked_out_to p
              {| lock_assigned_work_ := a; locked_mpi_rank_ := rank world;
                 lock_query_subtable_ := q;
                 lock_remaining_work_for_query_subtable_ := w;
                 lock_task_ := h |} (popped p t h st)
       else popped p t h st,
       (t, Z.of_nat p),
       if want then Some 0%nat else it).
Proof.
  intros Hok Hneg Hle Hfuel Hh Ha Hq Hw.
  pose proof (lookup_lt_Some _ _ _ Hh) as Hp.
  revert probe_index Hle Hfuel.
  induction fuel as [| fuel IH]; intros i Hle Hfuel Hidle; [lia |].
  simpl.
  apply Z.ltb_lt in Hneg. rewrite Hneg. apply Z.ltb_lt in Hneg.
  assert (Ei : (i <? length (tasks_ st))%nat = true)
    by (apply Nat.ltb_lt; lia).
  rewrite Ei. cbn [andb].
  destruct (decide (i = p)) as [-> | Hne].
  - assert (Hstop : forall (st' : Queue) (it' : option nat),
              DequeueTask_scan fuel world (S p) (t, Z.of_nat p) want it' st'
              = Returns (st', (t, Z.of_nat p), it')).
    { intros st' it'.
      assert (Hc : (snd (t, Z.of_nat p) <? 0) = false)
        by (apply Z.ltb_ge; simpl; lia).
      destruct fuel; simpl; simpl in Hc; rewrite Hc; reflexivity. }
    destruct want.
    + rewrite (DequeueTask_slot_checkout world p task_out st t h a q w
                 Hok Hh Ha Hq Hw).
      cbn [outcome_bind]. apply Hstop.
    + rewrite (DequeueTask_slot_pop world p task_out st t h Hh).
      cbn [outcome_bind]. apply Hstop.
  - destruct (slot_at i st Hok) as (qi & hi & ai & wi & Hqi & Hhi & _ & Hwi
                                    & Hsi); [lia |].
    destruct (Hidle i _ ltac:(lia) Hsi) as (Hempty & Hr & Hnz).
    simpl in Hempty, Hr, Hnz. subst hi.
    rewrite (DequeueTask_slot_on_empty_heap world i task_out want st qi wi
               Hok Hhi Hqi Hwi).
    rewrite Hr, Z.eqb_refl. apply Z.eqb_neq in Hnz. rewrite Hnz.
    cbn [outcome_bind]. apply IH; [lia | lia |].
    intros j s Hj. apply Hidle. lia.
Qed.

(** X20. When there are at least as many slots as threads, so that nothing
    is redistributed, the scanning [DequeueTask] called with a pair whose
    index is negative serves the slots in the order of their positions: if
    every slot before position [p] waits and the heap of slot [p] holds a
    task, it hands out the task on top of that heap together with [p], and
    leaves the state the single-slot [DequeueTask] of slot [p] leaves
    (with the slot checked out to the rank of the caller when a checkout
    is asked for, the check-out being the one the specification
    describes). *)
Theorem DequeueTask_serves_first_slot_with_a_task (world : communicator)
    (thread_id : Z) (metric_in : MetricType) (task_out : TaskType * Z)
    (want : bool) (st : Queue) (p : nat) (t : TaskType) (h : list TaskType)
    (a : option DisjointIntIntervals) (q : SubTableType) (w : Z) :
  lengths_ok st ->
  num_threads_ st <= Z.of_nat (length (tasks_ st)) ->
  snd task_out < 0 ->
  slots st !! p
  = Some {| slot_subtree := q; slot_tasks := t :: h; slot_assigned := a;
            slot_remaining_work := w |} ->
  (forall j s, (j < p)%nat -> slots st !! j = Some s -> idle world s) ->
  DequeueTask world thread_id metric_in task_out want st
  = Returns
      (if want
       then checked_out_to p
              {| lock_assigned_work_ := a; locked_mpi_rank_ := rank world;
                 lock_query_subtable_ := q;
                 lock_remaining_work_for_query_subtable_ := w;
                 lock_task_ := h |} (popped p t h st)
       else popped p t h st,
       (t, Z.of_nat p),
       if want then Some 0%nat else None).
Proof.
  intros Hok Hthreads Hneg Hp Hidle. unfold DequeueTask.
  assert (Hno : (Z.of_nat (length (tasks_ st)) <? num_threads_ st) = false)
    by (apply Z.ltb_ge; exact Hthreads).
  rewrite Hno. cbn [outcome_bind].
  pose proof (lookup_lt_Some _ _ _ Hp) as Hlt.
  rewrite (length_slots st Hok) in Hlt.
  destruct (slot_at p st Hok) as (q' & h' & a' & w' & Hq & Hh & Ha & Hw & Hs);
    [destruct Hok as (Ht & _); lia |].
  rewrite Hp in Hs. injection Hs as <- <- <- <-.
  apply (DequeueTask_scan_first_task world (length (tasks_ st)) 0 p task_out
           want None st t h a q w Hok Hneg); try assumption; try lia.
  intros j s Hj. apply Hidle. lia.
Qed.
End Queue.

(** * A worked example

    One process, a query table of two points and a reference table of
    three points.  Bounds are points of the integer line, the distance is
    the squared difference. *)

Definition example_world : communicator := {| rank := 0; comm_size := 1 |}.

Definition example_distance (_ : unit) (a b : Z) : Z := (a - b) * (a - b).

Definition example_process_rank (_ : communicator) (r : Z) : Z := r.

Definition example_query_tree : @TreeType Z :=
  TreeNode 0 2 0 (TreeLeaf 0 1 0) (TreeLeaf 1 1 1).

Definition example_query : @SubTableType Z :=
  {| table_rank := 0; originating_rank := 0;
     start_node := example_query_tree; cache_block_id := 0 |}.

Definition example_reference : @SubTableType Z :=
  {| table_rank := 0; originating_rank := 0; start_node := TreeLeaf 0 3 5;
     cache_block_id := 42 |}.

(** A query subtable of another process. *)
Definition example_imported : @SubTableType Z :=
  {| table_rank := 1; originating_rank := 1; start_node := TreeLeaf 7 1 9;
     cache_block_id := 0 |}.

Definition example_Copy (dst _ : @SubTableType Z) : @SubTableType Z := dst.

Definition example_FindSubTable (cache_id : Z) : option (@SubTableType Z) :=
  if cache_id =? 42 then Some example_reference else None.

Definition example_local_alias (b c : Z) : @SubTableType Z :=
  {| table_rank := 0; originating_rank := 0; start_node := TreeLeaf b c 0;
     cache_block_id := -1 |}.

Definition example_new_SubTableType : @SubTableType Z :=
  {| table_rank := 0; originating_rank := 0; start_node := TreeLeaf 0 0 0;
     cache_block_id := 0 |}.

Definition example_received : list (Z * Z * Z * Z) := [(0, 0, 3, 42)].

Definition example_task_out : @TaskType Z * Z :=
  (new_TaskType example_new_SubTableType, -1).

Definition result_or {A : Type} (default : A) (m : outcome A) : A :=
  match m with
  | Returns a => a
  | Faults _ => default
  end.

(** After [Init] with one thread and one frontier subtable. *)
Definition example_initial : @Queue Z :=
  Eval vm_compute in
    result_or DistributedDualtreeTaskQueue
      (Init [example_query] [2] [3] 1 DistributedDualtreeTaskQueue).

(** After the reference subtable was received: one task of work 6. *)
Definition example_generated : @Queue Z :=
  Eval vm_compute in
    result_or example_initial
      (GenerateTasks example_distance example_process_rank
         example_FindSubTable example_local_alias example_world tt
         example_received example_initial).

(** After that task was dequeued without a checkout. *)
Definition example_dequeued : @Queue Z :=
  Eval vm_compute in
    result_or example_generated
      (let* r := DequeueTask_slot example_world 0 example_task_out false
                   example_generated in
       Returns (fst (fst (fst r)))).

(** Two frontier subtables and the reference subtable received. *)
Definition example_two_generated : @Queue Z :=
  Eval vm_compute in
    result_or DistributedDualtreeTaskQueue
      (let* st := Init [example_query; example_query] [2] [3] 1
                    DistributedDualtreeTaskQueue in
       GenerateTasks example_distance example_process_rank
         example_FindSubTable example_local_alias example_world tt
         example_received st).

(** Then the task of the second slot dequeued: its heap is empty. *)
Definition example_two_slots : @Queue Z :=
  Eval vm_compute in
    result_or example_two_generated
      (let* r := DequeueTask_slot example_world 1 example_task_out false
                   example_two_generated in
       Returns (fst (fst (fst r)))).

Abbreviation example_reachable :=
  (reachable example_distance example_process_rank example_Copy
     example_FindSubTable example_local_alias example_new_SubTableType
     example_world tt).

Lemma example_initial_reachable : example_reachable example_initial.
Proof.
  apply (reachable_Init _ _ _ _ _ _ _ _ [example_query] [2] [3] 1).
  reflexivity.
Defined.

Lemma example_generated_reachable : example_reachable example_generated.
Proof.
  apply (reachable_step _ _ _ _ _ _ _ _ example_initial).
  - exact example_initial_reachable.
  - apply (step_GenerateTasks _ _ _ _ _ _ _ _ example_received).
    reflexivity.
Defined.

Lemma example_dequeued_reachable : example_reachable example_dequeued.
Proof.
  apply (reachable_step _ _ _ _ _ _ _ _ example_generated).
  - exact example_generated_reachable.
  - eapply (step_DequeueTask_slot _ _ _ _ _ _ _ _ 0%nat example_task_out
              false).
    reflexivity.
Defined.

Lemma example_two_slots_reachable : example_reachable example_two_slots.
Proof.
  apply (reachable_step _ _ _ _ _ _ _ _ example_two_generated).
  - apply (reachable_step _ _ _ _ _ _ _ _
             (result_or DistributedDualtreeTaskQueue
                (Init [example_query; example_query] [2] [3] 1
                   DistributedDualtreeTaskQueue))).
    + apply (reachable_Init _ _ _ _ _ _ _ _
               [example_query; example_query] [2] [3] 1).
      reflexivity.
    + apply (step_GenerateTasks _ _ _ _ _ _ _ _ example_received).
      reflexivity.
  - eapply (step_DequeueTask_slot _ _ _ _ _ _ _ _ 1%nat example_task_out
              false).
    reflexivity.
Defined.

Lemma example_lengths_ok_generated : lengths_ok example_generated.
Proof. repeat split. Defined.

Lemma example_lengths_ok_dequeued : lengths_ok example_dequeued.
Proof. repeat split. Defined.

Lemma example_lengths_ok_two_slots : lengths_ok example_two_slots.
Proof. repeat split. Defined.

(** ** The claims on the example *)

(** The task the received reference subtable makes. *)
Definition example_task : @TaskType Z :=
  {| query_subtable := set_cache_block_id example_query (-1);
     reference_subtable := example_reference;
     priority := -25 |}.

Lemma task_accounting_witness :
  example_reachable example_generated
  /\ num_remaining_tasks_ example_generated = 1
  /\ remaining_local_computation_ example_generated = 6.
Proof.
  split; [exact example_generated_reachable |].
  destruct (task_accounting example_distance example_process_rank
              example_Copy example_FindSubTable example_local_alias
              example_new_SubTableType example_world tt example_generated
              example_generated_reachable) as (Hn & Hl & _).
  split.
  - rewrite Hn. reflexivity.
  - rewrite Hl. reflexivity.
Defined.

Lemma DequeueTask_slot_nonempty_heap_witness :
  lengths_ok example_generated
  /\ DequeueTask_slot example_world 0 example_task_out false
       example_generated
     = Returns (example_dequeued,
                (example_task, 0), None, false)
  /\ num_remaining_tasks_ example_dequeued = 0
  /\ remaining_local_computation_ example_dequeued = 0.
Proof.
  split; [exact example_lengths_ok_generated |].
  destruct (DequeueTask_slot_nonempty_heap example_world 0 example_task_out
              example_generated example_task [] (Some [(0, 0, 3)])
              (set_cache_block_id example_query (-1)) 3
              example_lengths_ok_generated eq_refl eq_refl eq_refl eq_refl)
    as (Hpop & _).
  split; [exact Hpop |]. split; reflexivity.
Defined.

Lemma DequeueTask_slot_empty_heap_witness :
  lengths_ok example_dequeued
  /\ DequeueTask_slot example_world 0 example_task_out false example_dequeued
     = Returns (example_dequeued, example_task_out, None, false).
Proof.
  split; [exact example_lengths_ok_dequeued |].
  destruct (DequeueTask_slot_empty_heap example_world 0 example_task_out
              false example_dequeued (set_cache_block_id example_query (-1))
              3 example_lengths_ok_dequeued eq_refl eq_refl eq_refl)
    as (H & _).
  exact H.
Defined.

Lemma GenerateTasks_replay_witness :
  Forall (fun id : Z * Z * Z * Z => 0 < snd (fst id)) example_received
  /\ GenerateTasks example_distance example_process_rank
       example_FindSubTable example_local_alias example_world tt
       example_received example_initial
     = Returns example_generated
  /\ GenerateTasks example_distance example_process_rank
       example_FindSubTable example_local_alias example_world tt
       example_received example_generated
     = Returns example_generated.
Proof.
  assert (Hpos : Forall (fun id : Z * Z * Z * Z => 0 < snd (fst id))
                   example_received).
  { repeat constructor. }
  split; [exact Hpos |]. split; [reflexivity |].
  destruct (GenerateTasks_replay example_distance example_process_rank
              example_FindSubTable example_local_alias example_world tt
              example_received example_initial example_generated
              Hpos eq_refl) as (H & _).
  exact H.
Defined.

Lemma parallel_vectors_aligned_witness :
  example_reachable example_generated
  /\ lengths_ok example_generated
  /\ length (slots example_generated) = 1%nat.
Proof.
  split; [exact example_generated_reachable |].
  destruct (parallel_vectors_aligned example_distance example_process_rank
              example_Copy example_FindSubTable example_local_alias
              example_new_SubTableType example_world tt example_generated
              example_generated_reachable) as (Hok & Hlen & _).
  split; [exact Hok | exact Hlen].
Defined.

Lemma split_subtree_effect_witness :
  lengths_ok example_generated
  /\ is_leaf (start_node (set_cache_block_id example_query (-1))) = false
  /\ exists st',
       split_subtree_ example_distance example_process_rank
         example_new_SubTableType example_world tt 0 example_generated
       = Returns st'
       /\ length (query_subtables_ st') = 2%nat
       /\ table_exchange_ st'
          = table_exchange_ example_generated ++ [LockCache 42 1].
Proof.
  split; [exact example_lengths_ok_generated |]. split; [reflexivity |].
  destruct (split_subtree_effect example_distance example_process_rank
              example_new_SubTableType example_world tt 0 example_generated
              (set_cache_block_id example_query (-1)) [(0, 0, 3)] 3
              [example_task] example_lengths_ok_generated eq_refl eq_refl
              eq_refl eq_refl eq_refl)
    as (l & r & st' & _ & _ & Hrun & Hqs & _ & _ & _ & _ & _ & Hex & _).
  exists st'. split; [exact Hrun |]. split.
  - rewrite Hqs. reflexivity.
  - exact Hex.
Defined.

Lemma push_completed_computation_effect_witness :
  lengths_ok example_dequeued
  /\ exists st',
       push_completed_computation 3 6 example_dequeued = Returns st'
       /\ remaining_global_computation_ st' = 0
       /\ remaining_work_for_query_subtables_ st' = [0].
Proof.
  split; [exact example_lengths_ok_dequeued |].
  destruct (push_completed_computation_effect 3 6 example_dequeued
              example_lengths_ok_dequeued)
    as ((st' & Hrun & Hg & _ & Hw & _) & _).
  exists st'. split; [exact Hrun |]. split.
  - rewrite Hg. reflexivity.
  - rewrite Hw. reflexivity.
Defined.

Lemma invariant_violations_continue_witness :
  Forall (fun e : @QuerySubTableLock Z =>
            includes (lock_query_subtable_ e) example_imported = false)
    (checked_out_query_subtables_ example_generated)
  /\ Synchronize example_Copy example_imported example_generated
     = Returns example_generated
  /\ decrement_remaining_local_computation 7 example_generated
     = Returns (set_remaining_local_computation_ (two64 - 1)
                  example_generated).
Proof.
  assert (H : Forall (fun e : @QuerySubTableLock Z =>
                        includes (lock_query_subtable_ e) example_imported
                        = false)
                (checked_out_query_subtables_ example_generated)).
  { constructor. }
  split; [exact H |].
  destruct (invariant_violations_continue example_Copy example_imported 7
              example_generated H) as (Hs & Hl & _).
  split; [exact Hs | exact Hl].
Defined.

Lemma top_of_empty_heap_witness :
  lengths_ok example_two_slots
  /\ Print example_two_slots = Faults EmptyTop
  /\ CheckIntegrity (9, 9, 9) example_two_slots = Faults EmptyTop
  /\ CheckIntegrity (0, 0, 3) example_two_slots = Returns true
  /\ exists lines, Print example_generated = Returns lines.
Proof.
  split; [exact example_lengths_ok_two_slots |].
  destruct (top_of_empty_heap (9, 9, 9) example_two_slots
              example_lengths_ok_two_slots) as (Hp & Hc & _).
  destruct (top_of_empty_heap (0, 0, 3) example_two_slots
              example_lengths_ok_two_slots) as (_ & _ & Hm & _).
  destruct (top_of_empty_heap (0, 0, 3) example_generated
              example_lengths_ok_generated) as (_ & _ & _ & Hn).
  split.
  { apply Hp. right. left. reflexivity. }
  split.
  { apply (Hc [[example_task]] []); [reflexivity |]. repeat constructor. }
  split.
  { apply (Hm [] [example_task] [[]]);
      [reflexivity | constructor | reflexivity]. }
  eexists. apply Hn. repeat constructor. discriminate.
Defined.

(** ** Where the code departs from the specification *)

(** C8.  The slot [PushNewQueue] appends has no assigned set: the pointer
    is null, not a pointer to an empty set. *)
Lemma new_queue_assigned_set_is_null :
  (exists st',
     PushNewQueue example_new_SubTableType 1 example_imported example_initial
     = Returns (st', 1%nat)
     /\ assigned_work_ st' !! 1%nat = Some None)
  /\ ~ new_queue_has_empty_assigned_set example_new_SubTableType.
Proof.
  split.
  - eexists. split; reflexivity.
  - intros H.
    specialize (H 1 example_imported example_initial _ _ eq_refl).
    discriminate H.
Qed.

(** C9.  A [Synchronize] without a matching entry returns with the state
    as it was, and a decrement larger than the counter wraps around. *)
Lemma unmatched_synchronize_returns :
  Forall (fun e : @QuerySubTableLock Z =>
            includes (lock_query_subtable_ e) example_imported = false)
    (checked_out_query_subtables_ example_generated)
  /\ Synchronize example_Copy example_imported example_generated
     = Returns example_generated
  /\ remaining_local_computation_ example_generated = 6
  /\ decrement_remaining_local_computation 7 example_generated
     = Returns (set_remaining_local_computation_ 18446744073709551615
                  example_generated)
  /\ ~ invariant_violations_are_fatal example_Copy.
Proof.
  split; [constructor |]. split; [reflexivity |]. split; [reflexivity |].
  split; [reflexivity |].
  intros (H & _).
  apply (H example_imported example_generated); [constructor |].
  eexists. reflexivity.
Qed.

(** C10.  [CheckIntegrity] stops at the first heap that holds a task
    referencing the subtable: the empty heap after it is not looked at. *)
Lemma CheckIntegrity_skips_empty_heap :
  example_reachable example_two_slots
  /\ lengths_ok example_two_slots
  /\ In [] (all_heaps example_two_slots)
  /\ CheckIntegrity (0, 0, 3) example_two_slots = Returns true
  /\ ~ @empty_heap_is_always_reached Z.
Proof.
  split; [exact example_two_slots_reachable |].
  split; [exact example_lengths_ok_two_slots |].
  split; [right; left; reflexivity |]. split; [reflexivity |].
  intros H.
  destruct (H (0, 0, 3) example_two_slots example_lengths_ok_two_slots)
    as [Hc _]; [right; left; reflexivity |].
  discriminate Hc.
Qed.

(** ** The further properties on the example *)

Lemma example_lengths_ok_initial : lengths_ok example_initial.
Proof. repeat split. Defined.

(** A query subtable of another process that is no leaf. *)
Definition example_imported_node : @SubTableType Z :=
  {| table_rank := 1; originating_rank := 1;
     start_node := TreeNode 4 4 2 (TreeLeaf 4 2 1) (TreeLeaf 6 2 3);
     cache_block_id := 0 |}.

(** The initial queue with a slot for a query subtable of process 1. *)
Definition example_with_imported : @Queue Z :=
  Eval vm_compute in
    result_or example_initial
      (let* r := PushNewQueue example_new_SubTableType 1 example_imported
                   example_initial in
       Returns (fst r)).

Lemma example_lengths_ok_with_imported : lengths_ok example_with_imported.
Proof. repeat split. Defined.

(** The same after the reference subtable was received. *)
Definition example_with_imported_generated : @Queue Z :=
  Eval vm_compute in
    result_or example_with_imported
      (GenerateTasks example_distance example_process_rank
         example_FindSubTable example_local_alias example_world tt
         example_received example_with_imported).

(** The entry the dequeue with checkout makes of the only slot. *)
Definition example_entry : @QuerySubTableLock Z :=
  {| lock_assigned_work_ := Some [(0, 0, 3)];
     locked_mpi_rank_ := 0;
     lock_query_subtable_ := set_cache_block_id example_query (-1);
     lock_remaining_work_for_query_subtable_ := 3;
     lock_task_ := [] |}.

(** After the task was dequeued with a checkout of its slot. *)
Definition example_checked_out : @Queue Z :=
  Eval vm_compute in
    result_or example_generated
      (let* r := DequeueTask_slot example_world 0 example_task_out true
                   example_generated in
       Returns (fst (fst (fst r)))).

Lemma example_lengths_ok_checked_out : lengths_ok example_checked_out.
Proof. repeat split. Defined.

(** After all the work of the only slot was reported as done, with a slot
    for a query subtable of process 1. *)
Definition example_finished : @Queue Z :=
  Eval vm_compute in
    result_or example_dequeued
      (let* st := push_completed_computation 3 6 example_dequeued in
       let* r := PushNewQueue example_new_SubTableType 1 example_imported
                   st in
       Returns (fst r)).

Lemma example_lengths_ok_finished : lengths_ok example_finished.
Proof. repeat split. Defined.

Lemma example_initial_not_splittable (i : nat) (c : Z) :
  splittable example_initial i c -> c <= 0.
Proof.
  intros (q & h & _ & Hh & _ & Hne & _). exfalso. apply Hne.
  destruct i as [| i]; [| destruct i; discriminate].
  injection Hh as <-. reflexivity.
Defined.

Lemma example_generated_splittable (k : nat) (c : Z) :
  splittable example_generated k c -> k = 0%nat /\ c = 2.
Proof.
  intros (q & h & Hq & _ & _ & _ & <-).
  destruct k as [| k]; [| destruct k; discriminate].
  injection Hq as <-. split; reflexivity.
Defined.

Lemma RedistributeAmongCores_nothing_to_split_witness :
  lengths_ok example_initial
  /\ RedistributeAmongCores_ example_distance example_process_rank
       example_new_SubTableType example_world tt example_initial
     = Returns example_initial.
Proof.
  split; [exact example_lengths_ok_initial |].
  exact (RedistributeAmongCores_nothing_to_split example_distance
           example_process_rank example_new_SubTableType example_world tt
           example_initial example_lengths_ok_initial
           example_initial_not_splittable).
Defined.

Lemma RedistributeAmongCores_splits_largest_witness :
  lengths_ok example_generated
  /\ splittable example_generated 0 2
  /\ RedistributeAmongCores_ example_distance example_process_rank
       example_new_SubTableType example_world tt example_generated
     = split_subtree_ example_distance example_process_rank
         example_new_SubTableType example_world tt 0 example_generated.
Proof.
  assert (Hs : splittable example_generated 0 2).
  { exists (set_cache_block_id example_query (-1)), [example_task].
    repeat split. discriminate. }
  split; [exact example_lengths_ok_generated |]. split; [exact Hs |].
  apply (RedistributeAmongCores_splits_largest example_distance
           example_process_rank example_new_SubTableType example_world tt
           example_generated 0 2 example_lengths_ok_generated Hs).
  - lia.
  - intros k c' Hk. destruct (example_generated_splittable k c' Hk). lia.
  - intros k c' Hk. lia.
Defined.

Lemma DequeueTask_finds_a_task_or_all_empty_witness :
  lengths_ok example_generated
  /\ snd example_task_out < 0
  /\ exists st' task' it',
       DequeueTask example_distance example_process_rank
         example_new_SubTableType example_world 0 tt example_task_out false
         example_generated
       = Returns (st', task', it')
       /\ lengths_ok st'.
Proof.
  assert (Hneg : snd example_task_out < 0) by (simpl; lia).
  split; [exact example_lengths_ok_generated |]. split; [exact Hneg |].
  destruct (DequeueTask_finds_a_task_or_all_empty example_distance
              example_process_rank example_new_SubTableType example_world 0
              tt example_task_out false example_generated example_generated
              example_lengths_ok_generated Hneg eq_refl)
    as (st' & task' & it' & Hrun & Hok & _).
  exists st', task', it'. split; assumption.
Defined.

Lemma is_empty_iff_no_task_witness :
  example_reachable example_dequeued
  /\ Forall (fun h : list (@TaskType Z) => h = [])
       (all_heaps example_dequeued).
Proof.
  split; [exact example_dequeued_reachable |].
  apply (proj1 (is_empty_iff_no_task example_distance example_process_rank
                  example_Copy example_FindSubTable example_local_alias
                  example_new_SubTableType example_world tt example_dequeued
                  example_dequeued_reachable)).
  reflexivity.
Defined.

Lemma pop_is_dequeue_without_checkout_witness :
  lengths_ok example_generated
  /\ exists st',
       top 0 example_generated = Returns example_task
       /\ pop 0 example_generated = Returns st'
       /\ DequeueTask_slot example_world 0 example_task_out false
            example_generated
          = Returns (st', (example_task, 0), None, false).
Proof.
  split; [exact example_lengths_ok_generated |].
  exact (pop_is_dequeue_without_checkout example_world 0 example_task_out
           example_generated [example_task] example_lengths_ok_generated
           eq_refl).
Defined.

Lemma PushTask_then_DequeueTask_witness :
  exists st1 st2,
    PushTask example_distance example_process_rank example_world tt 0
      example_reference example_dequeued = Returns st1
    /\ DequeueTask_slot example_world 0 example_task_out false st1
       = Returns (st2, (example_task, 0), None, false)
    /\ st2 = example_dequeued.
Proof.
  destruct (PushTask_then_DequeueTask example_distance example_process_rank
              example_world tt 0 example_reference example_task_out
              example_dequeued (set_cache_block_id example_query (-1)) []
              eq_refl eq_refl)
    as (st1 & st2 & Hpush & Hpop & _ & _ & _ & Hsame).
  { intros u Hu. discriminate. }
  exists st1, st2. split; [exact Hpush |]. split; [exact Hpop |].
  apply Hsame. unfold two64. simpl. lia.
Defined.

Lemma PushNewQueue_then_DequeueTask_witness :
  lengths_ok example_generated
  /\ exists st1 i,
       PushNewQueue example_new_SubTableType 1 example_imported
         example_generated = Returns (st1, i)
       /\ DequeueTask_slot example_world i example_task_out false st1
          = Returns (exchange_call (QueueFlushRequest example_imported)
                       example_generated,
                     example_task_out, None, true).
Proof.
  split; [exact example_lengths_ok_generated |].
  exact (PushNewQueue_then_DequeueTask example_new_SubTableType example_world
           1 example_imported example_task_out false example_generated
           example_lengths_ok_generated).
Defined.

Lemma split_of_new_queue_faults_witness :
  lengths_ok example_initial
  /\ is_leaf (start_node example_imported_node) = false
  /\ exists st1 i st2,
       PushNewQueue example_new_SubTableType 1 example_imported_node
         example_initial = Returns (st1, i)
       /\ PushTask example_distance example_process_rank example_world tt i
            example_reference st1 = Returns st2
       /\ split_subtree_ example_distance example_process_rank
            example_new_SubTableType example_world tt i st2
          = Faults NullPointer
       /\ RedistributeAmongCores_ example_distance example_process_rank
            example_new_SubTableType example_world tt st2
          = Faults NullPointer.
Proof.
  split; [exact example_lengths_ok_initial |]. split; [reflexivity |].
  destruct (split_of_new_queue_faults example_distance example_process_rank
              example_new_SubTableType example_world tt 1
              example_imported_node [example_reference] example_initial
              example_lengths_ok_initial eq_refl)
    as (st1 & i & st2 & Hnew & Hpush & Hsplit & Hre).
  exists st1, i, st2. split; [exact Hnew |]. split; [exact Hpush |].
  split; [exact Hsplit |]. apply Hre.
  - discriminate.
  - simpl. lia.
  - intros k c Hk. pose proof (example_initial_not_splittable k c Hk).
    simpl. lia.
Defined.

Lemma completed_slot_is_evicted_witness :
  lengths_ok example_dequeued
  /\ exists st1,
       push_completed_computation 3 6 example_dequeued = Returns st1
       /\ DequeueTask_slot example_world 0 example_task_out false st1
          = Returns (evicted 0 st1, example_task_out, None, true).
Proof.
  split; [exact example_lengths_ok_dequeued |].
  assert (Hrange : 0 <= 3 <= 3) by lia.
  assert (Hlt : 3 < two64) by (unfold two64; simpl; lia).
  exact (completed_slot_is_evicted example_world 3 6 0 example_task_out
           false example_dequeued (set_cache_block_id example_query (-1)) 3
           example_lengths_ok_dequeued eq_refl eq_refl eq_refl eq_refl
           Hrange Hlt).
Defined.

Lemma GenerateTasks_one_lock_per_task_witness :
  GenerateTasks example_distance example_process_rank example_FindSubTable
    example_local_alias example_world tt example_received example_initial
  = Returns example_generated
  /\ exists ks,
       length ks = 1%nat
       /\ table_exchange_ example_generated
          = received_locks example_received ks
       /\ 1 = Z.of_nat (sum_list ks).
Proof.
  split; [reflexivity |].
  destruct (GenerateTasks_one_lock_per_task example_distance
              example_process_rank example_FindSubTable example_local_alias
              example_world tt example_received example_initial
              example_generated eq_refl) as (ks & Hlen & Hlog & Hnum).
  exists ks. split; [exact Hlen |]. split; [exact Hlog |].
  simpl in Hnum. exact Hnum.
Defined.

Lemma GenerateTasks_leaves_imported_slots_witness :
  GenerateTasks example_distance example_process_rank example_FindSubTable
    example_local_alias example_world tt example_received
    example_with_imported
  = Returns example_with_imported_generated
  /\ tasks_ example_with_imported_generated !! 1%nat = Some []
  /\ assigned_work_ example_with_imported_generated !! 1%nat = Some None.
Proof.
  split; [reflexivity |].
  assert (Hne : table_rank example_imported <> rank example_world)
    by discriminate.
  destruct (GenerateTasks_leaves_imported_slots example_distance
              example_process_rank example_FindSubTable example_local_alias
              example_world tt example_received example_with_imported
              example_with_imported_generated 1 example_imported
              eq_refl eq_refl Hne) as (Ht & Ha & _).
  split; [rewrite Ht | rewrite Ha]; reflexivity.
Defined.

Lemma example_with_imported_own_allocated :
  own_allocated example_world example_with_imported.
Proof.
  intros j q Hq Hr.
  destruct j as [| [| j]].
  - exists []. reflexivity.
  - injection Hq as <-. discriminate.
  - destruct j; discriminate.
Defined.

Lemma GenerateTasks_returns_witness :
  lengths_ok example_with_imported
  /\ own_allocated example_world example_with_imported
  /\ entries_allocated example_with_imported
  /\ exists st',
       GenerateTasks example_distance example_process_rank
         example_FindSubTable example_local_alias example_world tt
         example_received example_with_imported = Returns st'
       /\ lengths_ok st'.
Proof.
  assert (Hall : entries_allocated example_with_imported) by constructor.
  split; [exact example_lengths_ok_with_imported |].
  split; [exact example_with_imported_own_allocated |].
  split; [exact Hall |].
  destruct (GenerateTasks_returns example_distance example_process_rank
              example_FindSubTable example_local_alias example_world tt
              example_received example_with_imported
              example_lengths_ok_with_imported
              example_with_imported_own_allocated Hall)
    as (st' & Hrun & Hok & _).
  exists st'. split; assumption.
Defined.

Lemma Synchronize_first_match_witness :
  lengths_ok example_checked_out
  /\ checked_out_query_subtables_ example_checked_out !! 0%nat
     = Some example_entry
  /\ includes (lock_query_subtable_ example_entry) example_query = true
  /\ exists st',
       Synchronize example_Copy example_query example_checked_out
       = Returns st'
       /\ checked_out_query_subtables_ st' = []
       /\ slots st' = [slot_of_lock example_entry]
       /\ num_exported_query_subtables_ st' = 0.
Proof.
  split; [exact example_lengths_ok_checked_out |]. split; [reflexivity |].
  split; [reflexivity |].
  destruct (Synchronize_first_match example_Copy example_query
              example_checked_out 0 example_entry
              example_lengths_ok_checked_out eq_refl eq_refl)
    as (st' & Hrun & Hco & Hsl & Hex).
  { intros j e' Hj. lia. }
  exists st'. split; [exact Hrun |]. split; [exact Hco |].
  split; [exact Hsl | exact Hex].
Defined.

Lemma example_initial_idle : Forall (idle example_world) (slots example_initial).
Proof.
  repeat constructor. simpl. discriminate.
Defined.

Lemma DequeueTask_while_slots_wait_witness :
  lengths_ok example_initial
  /\ Forall (idle example_world) (slots example_initial)
  /\ DequeueTask example_distance example_process_rank
       example_new_SubTableType example_world 0 tt example_task_out false
       example_initial
     = Returns (example_initial, example_task_out, None).
Proof.
  split; [exact example_lengths_ok_initial |].
  split; [exact example_initial_idle |].
  exact (DequeueTask_while_slots_wait example_distance example_process_rank
           example_new_SubTableType example_world 0 tt example_task_out false
           example_initial example_lengths_ok_initial example_initial_idle).
Defined.

Lemma example_finished_finished :
  Forall (finished example_world) (slots example_finished).
Proof. repeat constructor. Defined.

Lemma DequeueTask_sweeps_finished_slots_witness :
  lengths_ok example_finished
  /\ snd example_task_out < 0
  /\ Forall (finished example_world) (slots example_finished)
  /\ exists st',
       DequeueTask example_distance example_process_rank
         example_new_SubTableType example_world 0 tt example_task_out false
         example_finished
       = Returns (st', example_task_out, None)
       /\ tasks_ st' = []
       /\ query_subtables_ st' = [].
Proof.
  assert (Hneg : snd example_task_out < 0) by (simpl; lia).
  split; [exact example_lengths_ok_finished |]. split; [exact Hneg |].
  split; [exact example_finished_finished |].
  destruct (DequeueTask_sweeps_finished_slots example_distance
              example_process_rank example_new_SubTableType example_world 0
              tt example_task_out false example_finished
              example_lengths_ok_finished Hneg example_finished_finished)
    as (st' & flushed & Hrun & _ & Hst').
  exists st'. split; [exact Hrun |]. rewrite Hst'. split; reflexivity.
Defined.

Lemma Init_leaves_waiting_slots_witness :
  Forall (fun q : @SubTableType Z => table_rank q = rank example_world)
    [example_query]
  /\ exists st,
       Init [example_query] [2] [3] 1 DistributedDualtreeTaskQueue
       = Returns st
       /\ lengths_ok st
       /\ Forall (idle example_world) (slots st).
Proof.
  assert (Hown : Forall (fun q : @SubTableType Z =>
                           table_rank q = rank example_world)
                   [example_query]) by (repeat constructor).
  split; [exact Hown |].
  destruct (Init_leaves_waiting_slots example_world [example_query] [2] [3] 1
              Hown) as (st & Hrun & Hok & _ & _ & _ & _ & _ & Hidle & _).
  exists st. split; [exact Hrun |]. split; [exact Hok |].
  apply Hidle. vm_compute. discriminate.
Defined.

Lemma split_subtree__conserves_work_witness :
  lengths_ok example_generated
  /\ exists st',
       split_subtree_ example_distance example_process_rank
         example_new_SubTableType example_world tt 0 example_generated
       = Returns st'
       /\ remaining_local_computation_ st' = 6
       /\ num_remaining_tasks_ st' = 2.
Proof.
  split; [exact example_lengths_ok_generated |].
  assert (Hall : Forall (fun t : @TaskType Z =>
                           count (start_node (query_subtable t))
                           = count (start_node
                                      (set_cache_block_id example_query
                                         (-1))))
                   [example_task]) by (repeat constructor).
  assert (Hrange : 0 <= remaining_local_computation_ example_generated
                   < two64) by (unfold two64; simpl; lia).
  destruct (split_subtree__conserves_work example_distance
              example_process_rank example_new_SubTableType example_world tt
              0 example_generated (set_cache_block_id example_query (-1))
              (TreeLeaf 0 1 0) (TreeLeaf 1 1 1) [(0, 0, 3)] 3 [example_task]
              example_lengths_ok_generated eq_refl eq_refl eq_refl eq_refl
              eq_refl eq_refl eq_refl Hall Hrange)
    as (st' & hl & hr & Hrun & _ & _ & Hloc & Hnum).
  exists st'. split; [exact Hrun |]. split.
  - rewrite Hloc. reflexivity.
  - rewrite Hnum. reflexivity.
Defined.

Lemma Evict__keeps_the_other_slots_witness :
  lengths_ok example_two_slots
  /\ exists st',
       Evict_ 0 example_two_slots = Returns st'
       /\ length (slots st') = 1%nat
       /\ slots st' !! 0%nat = last (slots example_two_slots).
Proof.
  split; [exact example_lengths_ok_two_slots |].
  destruct (Evict__keeps_the_other_slots 0 example_two_slots
              {| slot_subtree := set_cache_block_id example_query (-1);
                 slot_tasks := [example_task];
                 slot_assigned := Some [(0, 0, 3)];
                 slot_remaining_work := 3 |}
              example_lengths_ok_two_slots eq_refl)
    as (st' & Hrun & _ & _ & Hlen & _ & Hlast).
  exists st'. split; [exact Hrun |]. split; [exact Hlen |].
  apply Hlast. simpl. lia.
Defined.

Lemma LockQuerySubTable_then_ReturnQuerySubTable_witness :
  lengths_ok example_two_slots
  /\ exists st1 it st2,
       LockQuerySubTable 0 1 example_two_slots = Returns (st1, it)
       /\ ReturnQuerySubTable it st1 = Returns st2
       /\ length (slots st2) = 2%nat
       /\ checked_out_query_subtables_ st2 = []
       /\ num_exported_query_subtables_ st2 = 0.
Proof.
  split; [exact example_lengths_ok_two_slots |].
  destruct (LockQuerySubTable_then_ReturnQuerySubTable 0 1 example_two_slots
              {| slot_subtree := set_cache_block_id example_query (-1);
                 slot_tasks := [example_task];
                 slot_assigned := Some [(0, 0, 3)];
                 slot_remaining_work := 3 |}
              example_lengths_ok_two_slots eq_refl)
    as (st1 & it & st2 & Hlock & _ & Hret & _ & Hsl & _ & Hco & Hex & _).
  exists st1, it, st2. split; [exact Hlock |]. split; [exact Hret |].
  split; [rewrite Hsl; reflexivity |]. split; [exact Hco | exact Hex].
Defined.

Lemma DequeueTask_serves_first_slot_with_a_task_witness :
  lengths_ok example_generated
  /\ num_threads_ example_generated
     <= Z.of_nat (length (tasks_ example_generated))
  /\ DequeueTask example_distance example_process_rank
       example_new_SubTableType example_world 0 tt example_task_out false
       example_generated
     = Returns (example_dequeued, (example_task, 0), None).
Proof.
  assert (Hthreads : num_threads_ example_generated
                     <= Z.of_nat (length (tasks_ example_generated)))
    by (simpl; lia).
  assert (Hneg : snd example_task_out < 0) by (simpl; lia).
  split; [exact example_lengths_ok_generated |]. split; [exact Hthreads |].
  apply (DequeueTask_serves_first_slot_with_a_task example_distance
           example_process_rank example_new_SubTableType example_world 0 tt
           example_task_out false example_generated 0 example_task []
           (Some [(0, 0, 3)]) (set_cache_block_id example_query (-1)) 3
           example_lengths_ok_generated Hthreads Hneg eq_refl).
  intros j s Hj. lia.
Defined.

(** ** The split of a slot that has no assigned set *)

(** A queue for three threads with one query subtable of this process. *)
Definition example_three_threads : @Queue Z :=
  Eval vm_compute in
    result_or DistributedDualtreeTaskQueue
      (Init [example_query] [2] [3] 3 DistributedDualtreeTaskQueue).

(** The same after a query subtable of process 1 that is no leaf was
    imported and a task was pushed for it. *)
Definition example_imported_pushed : @Queue Z :=
  Eval vm_compute in
    result_or example_three_threads
      (let* r := PushNewQueue example_new_SubTableType 1
                   example_imported_node example_three_threads in
       PushTask example_distance example_process_rank example_world tt
         (snd r) example_reference (fst r)).

Lemma example_imported_pushed_reachable :
  example_reachable example_imported_pushed.
Proof.
  apply (reachable_step _ _ _ _ _ _ _ _
           (with_new_queue 1 example_imported_node example_three_threads)).
  - apply (reachable_step _ _ _ _ _ _ _ _ example_three_threads).
    + apply (reachable_Init _ _ _ _ _ _ _ _ [example_query] [2] [3] 3).
      reflexivity.
    + apply (step_PushNewQueue _ _ _ _ _ _ _ _ 1 example_imported_node
               example_three_threads _ 1%nat).
      reflexivity.
  - apply (step_PushTask _ _ _ _ _ _ _ _ 1%nat example_reference).
    reflexivity.
Defined.

(** C6, on the code.  The queue is initialised for three threads with one
    query subtable of this process; [PushNewQueue] then makes a slot for a
    query subtable of process 1 that is no leaf, and [PushTask] pushes one
    task onto it.  The slot has a null pointer where its assigned set would
    be.  [split_subtree_] on this slot sets the left child, appends the
    alias for the right child, drains the heap and appends the new heap,
    and then dereferences the null pointer to copy the assigned set: it
    does not append the copy nor push the drained task again.  The
    scanning [DequeueTask] reaches this split through
    [RedistributeAmongCores_], since there are fewer slots than threads
    and the slot is the largest one that can be split. *)
Theorem split_subtree_dereferences_null_assigned_set :
  example_reachable example_imported_pushed
  /\ query_subtables_ example_imported_pushed !! 1%nat
     = Some example_imported_node
  /\ is_leaf (start_node example_imported_node) = false
  /\ assigned_work_ example_imported_pushed !! 1%nat = Some None
  /\ heap_size <$> tasks_ example_imported_pushed !! 1%nat = Some 1
  /\ split_subtree_ example_distance example_process_rank
       example_new_SubTableType example_world tt 1 example_imported_pushed
     = Faults NullPointer
  /\ RedistributeAmongCores_ example_distance example_process_rank
       example_new_SubTableType example_world tt example_imported_pushed
     = Faults NullPointer
  /\ DequeueTask example_distance example_process_rank
       example_new_SubTableType example_world 0 tt example_task_out false
       example_imported_pushed
     = Faults NullPointer.
Proof.
  split; [exact example_imported_pushed_reachable |].
  repeat split; reflexivity.
Qed.
